(** * Quick Notes: the cached, filtered, paginated note search

    A shallow embedding of [backend/src/notes/notes.service.ts] together
    with the request DTOs it is called with, the Prisma note table it
    queries and the cache adapter it talks to.

    Asynchronous code is embedded by explicit state passing: an [await]ed
    call is a step of a state-and-exception monad over a [World] that holds
    the note table, the cache contents and a trace of the calls made so
    far.  A rejected promise is a thrown exception; whatever was done
    before the throw stays done.

    Around the service the file embeds what calls it and what stands
    beside it: the notes page and the note form of the client
    (Dashboard.tsx, NoteModal.tsx), the users and the authentication
    service (users.service.ts, auth.service.ts) over a user table of
    their own, and the session handling of the client
    (AuthContext.tsx). *)

Set Warnings "-register-all".

From Stdlib Require Import ZArith Ascii String.
From stdpp Require Import base tactics option list sorting strings pretty gmap.

Local Open Scope string_scope.
Local Open Scope list_scope.
Local Open Scope Z_scope.

(** ** Data model *)

(** The [Note] row of [@prisma/client].  Timestamps are milliseconds since
    the epoch.  The projections carry a prefix because [id] is taken. *)
Record Note := mkNote {
  note_id : string;
  note_title : string;
  note_content : string;
  note_tags : list string;
  note_userId : string;
  note_createdAt : Z;
  note_updatedAt : Z;
}.

(** [PaginatedNotes] of notes.service.ts, lines 9-15. *)
Record PaginatedNotes := mkPage {
  notes : list Note;
  total : Z;
  page : Z;
  limit : Z;
  totalPages : Z;
}.

(** create-note.dto.ts: the validated body of a create request. *)
Record CreateNoteDto := mkCreateNoteDto {
  create_title : string;
  create_content : string;
  create_tags : option (list string);
}.

(** update-note.dto.ts: every field is optional. *)
Record UpdateNoteDto := mkUpdateNoteDto {
  update_title : option string;
  update_content : option string;
  update_tags : option (list string);
}.

(** query-notes.dto.ts: every field is optional. *)
Record QueryNotesDto := mkQueryNotesDto {
  query_search : option string;
  query_tags : option (list string);
  query_page : option Z;
  query_limit : option Z;
}.

(** What a call can throw: the two exceptions notes.service.ts raises
    itself, the 400 of the validation pipe, and whatever the Prisma
    client rejects with, which the service lets through uninterpreted. *)
Inductive Exception :=
  | NotFoundException (message : string)
  | ForbiddenException (message : string)
  | BadRequestException (message : string)
  | PrismaClientError.

Inductive Result (A : Type) :=
  | Ok (a : A)
  | Throw (e : Exception).
Arguments Ok {A} a.
Arguments Throw {A} e.

(** ** The world the service runs in *)

Inductive StoreOp :=
  | OpCreate | OpFindMany | OpCount | OpFindUnique | OpUpdate | OpDelete.

Inductive Event :=
  | EvStore (op : StoreOp)
  | EvCacheGet (key : string)
  | EvCacheSet (key : string)
  | EvCacheInvalidate (pattern : string).

(** The note table and what surrounds it: the clock [now] the database
    stamps rows with, the id generator behind the id column's default
    ([idgen] applied to a running [serial]), and an oracle [outage] that
    says for each call, counted by [calls], whether the database answers
    it.  An unanswered call rejects and changes no row.

    Two things are the database's own business and are kept as it hands
    them over: [lower], the lowering of one character in its locale, by
    which it compares text without regard to case; and [tie], which ranks
    the rows for the call of a given number and so settles the order of
    rows that the sort key of a query leaves equal. *)
Record Store := mkStore {
  rows : list Note;
  now : Z;
  idgen : nat → string;
  serial : nat;
  outage : nat → bool;
  calls : nat;
  lower : string → string;
  tie : nat → Note → nat;
}.

Record CacheEntry := mkEntry {
  entry_value : PaginatedNotes;
  entry_ttl : Z;
}.

(** The note table, the contents of the cache, the calls made so far and
    an oracle [cache_down] that says for each call to the cache, by the
    number of calls made before it, whether the cache fails to answer
    it. *)
Record World := mkWorld {
  prisma : Store;
  redis : gmap string CacheEntry;
  trace : list Event;
  cache_down : nat → bool;
}.

(** ** The monad of awaited calls *)

Definition M (A : Type) : Type := World → Result A * World.

Definition ret {A} (a : A) : M A := λ w, (Ok a, w).

Definition throw {A} (e : Exception) : M A := λ w, (Throw e, w).

Definition bind {A B} (m : M A) (k : A → M B) : M B :=
  λ w, match m w with
       | (Ok a, w') => k a w'
       | (Throw e, w') => (Throw e, w')
       end.

Notation "'await' x <- m ;; k" := (bind m (λ x, k))
  (at level 10, x name, m at level 99, k at level 200,
   format "'[v' 'await'  x  <-  m  ;; '/' k ']'").

Definition log (ev : Event) (w : World) : World :=
  mkWorld (prisma w) (redis w) (trace w ++ [ev]) (cache_down w).

(** [Promise.all([p, q])]: both calls are issued; the result rejects when
    either does. *)
Definition promise_all {A B} (p : M A) (q : M B) : M (A * B) :=
  λ w, match p w with
       | (ra, w1) =>
         match q w1 with
         | (rb, w2) =>
           match ra, rb with
           | Ok a, Ok b => (Ok (a, b), w2)
           | Throw e, _ => (Throw e, w2)
           | Ok _, Throw e => (Throw e, w2)
           end
         end
       end.

(** ** Text *)

(** Strings hold text in UTF-8.  A character is a byte that is not a
    continuation byte, together with the continuation bytes that follow
    it. *)
Definition is_continuation (b : ascii) : bool :=
  let n := N_of_ascii b in ((128 <=? n) && (n <? 192))%N.

Definition starts_continued (s : string) : bool :=
  match s with
  | String b _ => is_continuation b
  | EmptyString => false
  end.

Fixpoint characters (s : string) : list string :=
  match s with
  | EmptyString => []
  | String b s' =>
    match characters s' with
    | c :: cs =>
      if starts_continued c then String b c :: cs
      else String b EmptyString :: c :: cs
    | [] => [String b EmptyString]
    end
  end.

(** The text with the given bytes. *)
Definition bytes (l : list Z) : string :=
  foldr (λ n s, String (ascii_of_N (Z.to_N n)) s) EmptyString l.

(** Lowering of the ASCII letters, which leaves every other byte as it
    is: what a database in the C locale does to a character, and the
    lowering the sample data is run with. *)
Definition toLower_ascii (c : ascii) : ascii :=
  let n := N_of_ascii c in
  if ((65 <=? n) && (n <=? 90))%N then ascii_of_N (n + 32) else c.

Fixpoint ascii_lower (s : string) : string :=
  match s with
  | EmptyString => EmptyString
  | String c s' => String (toLower_ascii c) (ascii_lower s')
  end.

(** [includes needle hay]: [needle] occurs in [hay] at some position.
    In UTF-8 a text occurs in another as a sequence of bytes exactly when
    it does as a sequence of code units. *)
Fixpoint includes (needle hay : string) : bool :=
  String.prefix needle hay ||
  match hay with
  | EmptyString => false
  | String _ hay' => includes needle hay'
  end.

(** ** Text as the database compares it *)

(** A [LIKE] pattern: [%] stands for any run of characters, [_] for any
    one character, and a backslash makes the character after it stand for
    itself.  A pattern that ends in a lone backslash is refused by
    PostgreSQL; the patterns below end in [%]. *)
Inductive LikeToken :=
  | any_run
  | any_character
  | literal (c : string).

Fixpoint like_tokens (pattern : list string) : list LikeToken :=
  match pattern with
  | [] => []
  | c :: rest =>
    if bool_decide (c = "\")
    then match rest with
         | escaped :: rest' => literal escaped :: like_tokens rest'
         | [] => []
         end
    else if bool_decide (c = "%") then any_run :: like_tokens rest
    else if bool_decide (c = "_") then any_character :: like_tokens rest
    else literal c :: like_tokens rest
  end.

Fixpoint like (same : string → string → bool) (pattern : list LikeToken)
    (text : list string) : bool :=
  match pattern with
  | [] => match text with [] => true | _ :: _ => false end
  | literal c :: pattern' =>
    match text with
    | x :: text' => same c x && like same pattern' text'
    | [] => false
    end
  | any_character :: pattern' =>
    match text with
    | _ :: text' => like same pattern' text'
    | [] => false
    end
  | any_run :: pattern' =>
    (fix from (text : list string) : bool :=
       like same pattern' text
       || match text with
          | [] => false
          | _ :: text' => from text'
          end) text
  end.

(** [value ILIKE '%' || term || '%']: both sides are lowered character
    by character with the lowering of the database's locale and then
    matched.  Prisma hands the term over as it is, so a [%], a [_] or a
    backslash in it acts as in any pattern. *)
Definition ilike (lower : string → string) (term value : string) : bool :=
  like (λ c x, bool_decide (lower c = lower x))
       (any_run :: like_tokens (characters term ++ ["%"]))
       (characters value).

(** ** The Prisma note table *)

(** The filters notes.service.ts builds: [{ contains, mode: 'insensitive' }]
    on a text column, an [OR] of such conditions, and [{ hasEvery }] on the
    tag array. *)
Inductive StringFilter :=
  | contains_insensitive (s : string).

Inductive NoteCondition :=
  | on_title (f : StringFilter)
  | on_content (f : StringFilter).

Record NoteWhere := mkWhere {
  where_userId : string;
  where_OR : option (list NoteCondition);
  where_tags_hasEvery : option (list string);
}.

Record NoteCreateInput := mkCreateInput {
  data_title : string;
  data_content : string;
  data_tags : list string;
  data_userId : string;
}.

Definition string_filter_matches (lower : string → string) (f : StringFilter)
    (value : string) : bool :=
  match f with
  | contains_insensitive s => ilike lower s value
  end.

Definition condition_matches (lower : string → string) (n : Note)
    (c : NoteCondition) : bool :=
  match c with
  | on_title f => string_filter_matches lower f (note_title n)
  | on_content f => string_filter_matches lower f (note_content n)
  end.

Definition hasEvery (required : list string) (n : Note) : bool :=
  forallb (λ t, bool_decide (t ∈ note_tags n)) required.

Definition where_matches (lower : string → string) (wh : NoteWhere)
    (n : Note) : bool :=
  bool_decide (note_userId n = where_userId wh)
  && match where_OR wh with
     | Some conditions => existsb (condition_matches lower n) conditions
     | None => true
     end
  && match where_tags_hasEvery wh with
     | Some required => hasEvery required n
     | None => true
     end.

(** [orderBy: { updatedAt: 'desc' }]: [a] may come before [b]. *)
Definition updatedAt_desc (a b : Note) : Prop :=
  note_updatedAt b ≤ note_updatedAt a.

Global Instance updatedAt_desc_dec : RelDecision updatedAt_desc.
Proof. intros a b. unfold updatedAt_desc. apply _. Defined.

Global Instance updatedAt_desc_trans : Transitive updatedAt_desc.
Proof. unfold updatedAt_desc. intros a b c ??. lia. Qed.

Global Instance updatedAt_desc_total : Total updatedAt_desc.
Proof. unfold updatedAt_desc. intros a b. lia. Qed.

(** Sorting by [updatedAt] descending, rows with equal [updatedAt]
    keeping the order they come in. *)
Fixpoint insert_ordered (n : Note) (l : list Note) : list Note :=
  match l with
  | [] => [n]
  | m :: l' =>
    if decide (updatedAt_desc n m) then n :: m :: l'
    else m :: insert_ordered n l'
  end.

Definition order_by_updatedAt_desc (l : list Note) : list Note :=
  foldr insert_ordered [] l.

(** The order in which the database comes by the rows for one call:
    by rank, rows of equal rank as the table holds them. *)
Fixpoint insert_ranked (rank : Note → nat) (n : Note) (l : list Note)
    : list Note :=
  match l with
  | [] => [n]
  | m :: l' =>
    if decide (rank n ≤ rank m)%nat then n :: m :: l'
    else m :: insert_ranked rank n l'
  end.

Definition scan_order (rank : Note → nat) (l : list Note) : list Note :=
  foldr (insert_ranked rank) [] l.

(** The rows a filter selects. *)
Definition selected (wh : NoteWhere) (s : Store) : list Note :=
  List.filter (where_matches (lower s) wh) (rows s).

(** The rows a filter selects, in the order the call being answered
    yields them.  The query names [updatedAt] as its only sort key, which
    leaves the order of rows with equal [updatedAt] to the database: it is
    the order the database comes by them for this call. *)
Definition select_ordered (wh : NoteWhere) (s : Store) : list Note :=
  order_by_updatedAt_desc (scan_order (tie s (calls s)) (selected wh s)).

(** [skip] and [take] of a query: [skip] rows are passed over and at most
    [take] returned.  The service only sends [skip >= 0] and [take >= 1]
    once the request is validated; Prisma rejects a negative [skip]
    ([None]) and reads a negative [take] from the end of the list. *)
Definition window {A} (skip take : Z) (l : list A) : option (list A) :=
  if skip <? 0 then None
  else if 0 <=? take
  then Some (List.firstn (Z.to_nat take) (List.skipn (Z.to_nat skip) l))
  else Some (rev (List.firstn (Z.to_nat (- take))
                              (List.skipn (Z.to_nat skip) (rev l)))).

Definition set_prisma (s : Store) (w : World) : World :=
  mkWorld s (redis w) (trace w) (cache_down w).

Definition answered (s : Store) : Store :=
  mkStore (rows s) (now s) (idgen s) (serial s) (outage s) (S (calls s))
          (lower s) (tie s).

Definition set_rows (l : list Note) (s : Store) : Store :=
  mkStore l (now s) (idgen s) (serial s) (outage s) (calls s) (lower s)
          (tie s).

(** One round trip to the database: it is traced and counted, and it
    either rejects without touching a row or runs [f]. *)
Definition store_call {A} (op : StoreOp) (f : Store → Result A * Store) : M A :=
  λ w,
    let s := prisma w in
    let w' := log (EvStore op) w in
    if outage s (calls s)
    then (Throw PrismaClientError, set_prisma (answered s) w')
    else let '(r, s') := f (answered s) in (r, set_prisma s' w').

Definition has_id (id : string) (n : Note) : bool :=
  bool_decide (note_id n = id).

(** What [update] writes over a row: a field absent from [data] keeps its
    value. *)
Definition apply_update (data : UpdateNoteDto) (stamp : Z) (n : Note) : Note :=
  mkNote (note_id n)
         (default (note_title n) (update_title data))
         (default (note_content n) (update_content data))
         (default (note_tags n) (update_tags data))
         (note_userId n)
         (note_createdAt n)
         stamp.

(** Modelled from the spec: the Prisma schema of the note table
    (prisma/schema.prisma) is not among the sources.  From the spec's data
    model: the id is assigned by the table and is unique, [createdAt] and
    [updatedAt] are stamped on insertion, and [updatedAt] is stamped again
    by every update. *)
Module PrismaNote.

Definition create (data : NoteCreateInput) : M Note :=
  store_call OpCreate (λ s,
    let id := idgen s (serial s) in
    let s1 := mkStore (rows s) (now s) (idgen s) (S (serial s))
                      (outage s) (calls s) (lower s) (tie s) in
    if existsb (has_id id) (rows s)
    then (Throw PrismaClientError, s1)
    else
      let n := mkNote id (data_title data) (data_content data)
                      (data_tags data) (data_userId data) (now s) (now s) in
      (Ok n, set_rows (rows s ++ [n]) s1)).

Definition findMany (wh : NoteWhere) (skip take : Z) : M (list Note) :=
  store_call OpFindMany (λ s,
    match window skip take (select_ordered wh s) with
    | Some l => (Ok l, s)
    | None => (Throw PrismaClientError, s)
    end).

Definition count (wh : NoteWhere) : M Z :=
  store_call OpCount (λ s,
    (Ok (Z.of_nat (length (selected wh s))), s)).

Definition findUnique (id : string) : M (option Note) :=
  store_call OpFindUnique (λ s, (Ok (List.find (has_id id) (rows s)), s)).

Definition update (id : string) (data : UpdateNoteDto) : M Note :=
  store_call OpUpdate (λ s,
    match List.find (has_id id) (rows s) with
    | None => (Throw PrismaClientError, s)
    | Some n =>
      let n' := apply_update data (now s) n in
      (Ok n', set_rows (List.map (λ m, if has_id id m then n' else m)
                                 (rows s)) s)
    end).

Definition delete (id : string) : M Note :=
  store_call OpDelete (λ s,
    match List.find (has_id id) (rows s) with
    | None => (Throw PrismaClientError, s)
    | Some n =>
      (Ok n, set_rows (List.filter (λ m, negb (has_id id m)) (rows s)) s)
    end).

(** [findMany({ where, select: { tags: true } })]: the tag arrays of the
    selected rows, one per row, with no window and no sort key, so in the
    order the database comes by the rows. *)
Definition findManyTags (wh : NoteWhere) : M (list (list string)) :=
  store_call OpFindMany (λ s,
    (Ok (List.map note_tags (scan_order (tie s (calls s)) (selected wh s))),
     s)).

End PrismaNote.

(** ** The cache adapter *)

(** Modelled from the spec: cache/cache.service.ts is not among the
    sources.  From the spec, sections 4.1 and 4.2: [get] yields the value
    stored under a key or nothing, [set] stores a value with a
    time-to-live, [invalidatePattern] deletes every key under a prefix,
    the search key is derived from the user id, the term (empty when
    absent), the sorted and deduplicated tag list joined by a separator,
    the page and the page size, and every search key of a user lies under
    that user's prefix.  From sections 4.1 and 7: a [get] the cache fails
    to answer is a miss, a [set] it fails to answer stores nothing, an
    invalidation it fails to answer deletes nothing, and none of the
    three lets the caller know.  Entries are modelled within their
    time-to-live. *)
Module CacheService.

(** The cache answers the call that is made next. *)
Definition reachable (w : World) : bool :=
  negb (cache_down w (length (trace w))).

Definition normalizeTags (tags : list string) : list string :=
  merge_sort String.le (remove_dups tags).

Definition userNotesPrefix (userId : string) : string :=
  "notes:" +:+ userId +:+ ":".

Definition generateNotesSearchKey (userId : string) (search : option string)
    (tags : option (list string)) (page limit : Z) : string :=
  userNotesPrefix userId
  +:+ (default EmptyString search
  +:+ ":" +:+ String.concat "," (normalizeTags (default [] tags))
  +:+ ":" +:+ pretty page
  +:+ ":" +:+ pretty limit).

Definition get (key : string) : M (option PaginatedNotes) :=
  λ w, (Ok (if reachable w then entry_value <$> redis w !! key else None),
        log (EvCacheGet key) w).

Definition set (key : string) (value : PaginatedNotes) (ttlSeconds : Z)
    : M unit :=
  λ w, (Ok tt,
        log (EvCacheSet key)
            (mkWorld (prisma w)
                     (if reachable w
                      then <[key := mkEntry value ttlSeconds]> (redis w)
                      else redis w)
                     (trace w) (cache_down w))).

Definition under (pattern : string) (kv : string * CacheEntry) : Prop :=
  String.prefix pattern kv.1 = true.

Global Instance under_dec pattern kv : Decision (under pattern kv).
Proof. unfold under. apply _. Defined.

Definition invalidatePattern (pattern : string) : M unit :=
  λ w, (Ok tt,
        log (EvCacheInvalidate pattern)
            (mkWorld (prisma w)
                     (if reachable w
                      then filter (λ kv, ¬ under pattern kv) (redis w)
                      else redis w)
                     (trace w) (cache_down w))).

Definition invalidateUserNotesCache (userId : string) : M unit :=
  invalidatePattern (userNotesPrefix userId).

End CacheService.

(** ** notes.service.ts *)

(** [Math.ceil(total / limit)] for a page size the validation lets
    through ([limit >= 1]); at [limit = 0] JavaScript yields [Infinity] or
    [NaN], which this integer does not render. *)
Definition Math_ceil_div (total limit : Z) : Z := - ((- total) / limit).

(** JavaScript truthiness of an optional string: [undefined] and the empty
    string are falsy. *)
Definition truthy (s : option string) : bool :=
  match s with
  | Some EmptyString | None => false
  | Some _ => true
  end.

(** [[...new Set(values)]]: each value once, in the order of first
    occurrence. *)
Definition Set_spread (values : list string) : list string :=
  fold_left (λ seen v, if decide (v ∈ seen) then seen else seen ++ [v])
            values [].

(** The order of strings by UTF-16 code unit, read off their UTF-8
    bytes.  Byte by byte the two orders agree, except that a character
    beyond U+FFFF, whose first byte is 240 or more and whose first code
    unit is a surrogate, comes before the characters from U+E000 to
    U+FFFF, whose first byte is 238 or 239. *)
Definition code_unit_key (b : ascii) : N :=
  let n := N_of_ascii b in
  if (240 <=? n)%N then (237 * 32 + 1 + (n - 240))%N else (n * 32)%N.

Fixpoint code_unit_leb (a b : string) : bool :=
  match a, b with
  | EmptyString, _ => true
  | String _ _, EmptyString => false
  | String x a', String y b' =>
    if (code_unit_key x <? code_unit_key y)%N then true
    else if (code_unit_key y <? code_unit_key x)%N then false
    else code_unit_leb a' b'
  end.

Definition code_unit_le (a b : string) : Prop := code_unit_leb a b = true.

Global Instance code_unit_le_dec : RelDecision code_unit_le.
Proof. intros a b. unfold code_unit_le. apply _. Defined.

Global Instance code_unit_le_trans : Transitive code_unit_le.
Proof.
  unfold code_unit_le. intros a. induction a as [|x a IH]; intros b c.
  - done.
  - destruct b as [|y b]; [done|]. destruct c as [|z c]; [done|]. simpl.
    destruct (N.ltb_spec (code_unit_key x) (code_unit_key y));
      destruct (N.ltb_spec (code_unit_key y) (code_unit_key z));
      destruct (N.ltb_spec (code_unit_key x) (code_unit_key z));
      destruct (N.ltb_spec (code_unit_key y) (code_unit_key x));
      destruct (N.ltb_spec (code_unit_key z) (code_unit_key y));
      destruct (N.ltb_spec (code_unit_key z) (code_unit_key x));
      try done; try lia.
    apply IH.
Qed.

Global Instance code_unit_le_total : Total code_unit_le.
Proof.
  unfold code_unit_le. intros a. induction a as [|x a IH]; intros b.
  - by left.
  - destruct b as [|y b]; [by right|]. simpl.
    destruct (N.ltb_spec (code_unit_key x) (code_unit_key y));
      destruct (N.ltb_spec (code_unit_key y) (code_unit_key x));
      try lia; auto.
Qed.

(** [Array.prototype.sort()] without a comparator on strings: ascending by
    code unit. *)
Definition Array_sort (values : list string) : list string :=
  merge_sort code_unit_le values.

Module NotesService.

(** Lines 24-40. *)
Definition create (userId : string) (createNoteDto : CreateNoteDto) : M Note :=
  let title := create_title createNoteDto in
  let content := create_content createNoteDto in
  let tags := create_tags createNoteDto in
  await note <- PrismaNote.create
                  (mkCreateInput title content (default [] tags) userId) ;;
  await _ <- CacheService.invalidateUserNotesCache userId ;;
  ret note.

(** The [where] object of lines 56-71. *)
Definition build_where (userId : string) (search : option string)
    (tags : option (list string)) : NoteWhere :=
  mkWhere userId
    (if truthy search
     then Some [on_title (contains_insensitive (default EmptyString search));
                on_content (contains_insensitive (default EmptyString search))]
     else None)
    (match tags with
     | Some ((_ :: _) as required) => Some required
     | _ => None
     end).

(** Lines 54-94: what [findAll] does once the cache has missed. *)
Definition findAll_miss (userId cacheKey : string) (search : option string)
    (tags : option (list string)) (page limit : Z) : M PaginatedNotes :=
  let skip := (page - 1) * limit in
  let where_ := build_where userId search tags in
  await found <- promise_all (PrismaNote.findMany where_ skip limit)
                             (PrismaNote.count where_) ;;
  let result := mkPage found.1 found.2 page limit
                       (Math_ceil_div found.2 limit) in
  await _ <- CacheService.set cacheKey result 300 ;;
  ret result.

(** Lines 42-95. *)
Definition findAll (userId : string) (queryDto : QueryNotesDto)
    : M PaginatedNotes :=
  let search := query_search queryDto in
  let tags := query_tags queryDto in
  let page := default 1 (query_page queryDto) in
  let limit := default 10 (query_limit queryDto) in
  let cacheKey :=
    CacheService.generateNotesSearchKey userId search tags page limit in
  await cachedResult <- CacheService.get cacheKey ;;
  match cachedResult with
  | Some cached => ret cached
  | None => findAll_miss userId cacheKey search tags page limit
  end.

(** Lines 97-111. *)
Definition findOne (id userId : string) : M Note :=
  await note <- PrismaNote.findUnique id ;;
  match note with
  | None => throw (NotFoundException "Note not found")
  | Some note =>
    if bool_decide (note_userId note ≠ userId)
    then throw (ForbiddenException "Access denied")
    else ret note
  end.

(** Lines 113-125. *)
Definition update (id userId : string) (updateNoteDto : UpdateNoteDto)
    : M Note :=
  await _ <- findOne id userId ;;
  await note <- PrismaNote.update id updateNoteDto ;;
  await _ <- CacheService.invalidateUserNotesCache userId ;;
  ret note.

(** Lines 127-136. *)
Definition remove (id userId : string) : M unit :=
  await _ <- findOne id userId ;;
  await _ <- PrismaNote.delete id ;;
  await _ <- CacheService.invalidateUserNotesCache userId ;;
  ret tt.

(** Lines 138-146. *)
Definition getAllTags (userId : string) : M (list string) :=
  await notes <- PrismaNote.findManyTags (mkWhere userId None None) ;;
  let allTags := List.concat notes in
  ret (Array_sort (Set_spread allTags)).

End NotesService.

(** ** Request validation and the controller *)

(** A JSON value of a request body. *)
Inductive Json :=
  | JNull
  | JBool (b : bool)
  | JNumber (z : Z)
  | JString (s : string)
  | JArray (items : list Json).

(** The body of [POST /notes]; an absent property is [None]. *)
Record CreateNoteBody := mkCreateBody {
  body_title : option Json;
  body_content : option Json;
  body_tags : option Json;
}.

(** A numeric query parameter after [@Type(() => Number)]. *)
Inductive QueryNumber :=
  | integer (z : Z)
  | not_an_integer.

(** A textual query parameter as the query-string parser hands it over:
    given once it is a string, given several times an array of strings. *)
Inductive QueryValue :=
  | one (s : string)
  | many (l : list string).

(** The query of [GET /notes]. *)
Record NotesQuery := mkNotesQuery {
  param_search : option QueryValue;
  param_tags : option QueryValue;
  param_page : option QueryNumber;
  param_limit : option QueryNumber;
}.

(** The class-validator constraints the DTOs are decorated with. *)
Definition IsString (v : option Json) : bool :=
  match v with
  | Some (JString _) => true
  | _ => false
  end.

Definition IsNotEmpty (v : option Json) : bool :=
  match v with
  | None | Some JNull | Some (JString EmptyString) => false
  | _ => true
  end.

Definition IsStringArray (v : option Json) : bool :=
  match v with
  | Some (JArray items) => forallb (λ i, IsString (Some i)) items
  | _ => false
  end.

(** [@IsOptional()]: the other constraints are skipped for [undefined]
    and [null]. *)
Definition IsOptional (v : option Json) : bool :=
  match v with
  | None | Some JNull => true
  | _ => false
  end.

Definition IsInt_Min (lo : Z) (v : QueryNumber) : bool :=
  match v with
  | integer z => lo <=? z
  | not_an_integer => false
  end.

Definition IsString_param (v : QueryValue) : bool :=
  match v with
  | one _ => true
  | many _ => false
  end.

Definition IsArray_param (v : QueryValue) : bool :=
  match v with
  | one _ => false
  | many _ => true
  end.

Definition text_of (v : option QueryValue) : option string :=
  match v with
  | Some (one s) => Some s
  | _ => None
  end.

Definition list_of (v : option QueryValue) : option (list string) :=
  match v with
  | Some (many l) => Some l
  | _ => None
  end.

Definition string_of (v : option Json) : string :=
  match v with
  | Some (JString s) => s
  | _ => EmptyString
  end.

Definition strings_of (v : option Json) : option (list string) :=
  match v with
  | Some (JArray items) => Some (List.map (λ i, string_of (Some i)) items)
  | _ => None
  end.

Definition number_of (v : option QueryNumber) : option Z :=
  match v with
  | Some (integer z) => Some z
  | _ => None
  end.

(** Modelled from the spec: main.ts, which installs the validation pipe,
    is not among the sources.  From the spec, section 7: malformed input
    is surfaced to the caller as a validation error before the operation
    runs.  The constraints checked are the decorators of
    create-note.dto.ts and query-notes.dto.ts; the exception names the
    properties that failed. *)
Module ValidationPipe.

Definition failing (checks : list (string * bool)) : list string :=
  List.map fst (List.filter (λ c, negb (snd c)) checks).

Definition verdict {A} (checks : list (string * bool)) (dto : A) : M A :=
  match failing checks with
  | [] => ret dto
  | _ :: _ => throw (BadRequestException (String.concat "," (failing checks)))
  end.

(** create-note.dto.ts, lines 4-20. *)
Definition createNoteDto (body : CreateNoteBody) : M CreateNoteDto :=
  verdict
    [("title", IsString (body_title body) && IsNotEmpty (body_title body));
     ("content", IsString (body_content body) && IsNotEmpty (body_content body));
     ("tags", IsOptional (body_tags body) || IsStringArray (body_tags body))]
    (mkCreateNoteDto (string_of (body_title body))
                     (string_of (body_content body))
                     (strings_of (body_tags body))).

(** query-notes.dto.ts, lines 5-30. *)
Definition transformed (query : NotesQuery) : QueryNotesDto :=
  mkQueryNotesDto (text_of (param_search query)) (list_of (param_tags query))
                  (number_of (param_page query))
                  (number_of (param_limit query)).

Definition queryNotesDto (query : NotesQuery) : M QueryNotesDto :=
  verdict
    [("search", from_option IsString_param true (param_search query));
     ("tags", from_option IsArray_param true (param_tags query));
     ("page", from_option (IsInt_Min 1) true (param_page query));
     ("limit", from_option (IsInt_Min 1) true (param_limit query))]
    (transformed query).

End ValidationPipe.

(** notes.controller.ts: the handlers behind [POST /notes] and
    [GET /notes], with [req.user.id] as [userId]. *)
Module NotesController.

Definition create (body : CreateNoteBody) (userId : string) : M Note :=
  await createNoteDto <- ValidationPipe.createNoteDto body ;;
  NotesService.create userId createNoteDto.

Definition findAll (query : NotesQuery) (userId : string)
    : M PaginatedNotes :=
  await queryDto <- ValidationPipe.queryNotesDto query ;;
  NotesService.findAll userId queryDto.

End NotesController.

(** ** Sample data *)

(** A database that answers, lowers the ASCII letters and comes by its
    rows in table order, and a cache that answers. *)
Definition sample_store (l : list Note) : Store :=
  mkStore l 1000 (λ n, "n" +:+ pretty n) 0 (λ _, false) 0 ascii_lower
          (λ _ _, 0%nat).

Definition sample_world (l : list Note) : World :=
  mkWorld (sample_store l) ∅ [] (λ _, false).

Definition sample_note (id owner : string) (tags : list string) (stamp : Z)
    : Note :=
  mkNote id ("Title " +:+ id) "Some content" tags owner stamp stamp.

(** The body of a create request with the given texts and tags. *)
Definition create_body (title content : string) (tags : option (list string))
    : CreateNoteBody :=
  mkCreateBody (Some (JString title)) (Some (JString content))
               ((λ ts, JArray (JString <$> ts)) <$> tags).

(** The id the table would assign next is not taken. *)
Definition id_is_free (s : Store) : Prop :=
  ∀ n, n ∈ rows s → note_id n ≠ idgen s (serial s).

(** Two notes of user u stamped in the same millisecond, b stored
    before a. *)
Definition tied_world : World :=
  sample_world [sample_note "b" "u" [] 5; sample_note "a" "u" [] 5].

(** A note of user u and a note of user v. *)
Definition desk_world : World :=
  sample_world [sample_note "a" "u" ["work"] 5; sample_note "c" "v" [] 7].

(** Twenty-five notes of user u, the oldest first, between two notes of
    user v that were changed after them. *)
Definition shelf_world : World :=
  sample_world
    (sample_note "v1" "v" ["work"] 100
     :: List.map (λ i, sample_note (pretty i) "u" ["work"] (Z.of_nat i))
                 (seq 0 25)
     ++ [sample_note "v2" "v" [] 101]).


(** Two notes of user u whose tags repeat, come out of order and, for
    two of them, sort differently by byte and by code unit: U+FF5E is one
    code unit above the two surrogates of U+1F600, and its first byte is
    below the first byte of U+1F600. *)
Definition labelled_world : World :=
  sample_world
    [ sample_note "a" "u" [bytes [239; 189; 158]; "work"] 1;
      sample_note "b" "u" ["work"; bytes [240; 159; 152; 128]; "Alpha"] 2;
      sample_note "c" "v" ["zeta"] 3 ].

Definition no_filter : QueryNotesDto := mkQueryNotesDto None None None None.



Definition third_page : QueryNotesDto :=
  mkQueryNotesDto None None (Some 3) (Some 10).

Definition work_filter : QueryNotesDto :=
  mkQueryNotesDto None (Some ["work"]) None None.

(** [desk_world] after user u has searched once: the page is cached. *)
Definition cached_world : World :=
  (NotesService.findAll "u" no_filter desk_world).2.

Definition retitle : UpdateNoteDto :=
  mkUpdateNoteDto (Some "Renamed") None None.

(** The same tag filter written in two ways. *)
Definition tags_b_a_b : NotesQuery :=
  mkNotesQuery None (Some (many ["b"; "a"; "b"])) (Some (integer 2)) None.

Definition tags_a_b : NotesQuery :=
  mkNotesQuery None (Some (many ["a"; "b"])) (Some (integer 2)) None.

(** ** The client *)

(** The white space and the line ends of ECMAScript: U+0009 to U+000D,
    U+0020, U+00A0, U+1680, U+2000 to U+200A, U+2028, U+2029, U+202F,
    U+205F, U+3000 and U+FEFF, each in UTF-8. *)
Definition white_space_characters : list string :=
  [bytes [9]; bytes [10]; bytes [11]; bytes [12]; bytes [13]; bytes [32];
   bytes [194; 160]; bytes [225; 154; 128]; bytes [226; 128; 128];
   bytes [226; 128; 129]; bytes [226; 128; 130]; bytes [226; 128; 131];
   bytes [226; 128; 132]; bytes [226; 128; 133]; bytes [226; 128; 134];
   bytes [226; 128; 135]; bytes [226; 128; 136]; bytes [226; 128; 137];
   bytes [226; 128; 138]; bytes [226; 128; 168]; bytes [226; 128; 169];
   bytes [226; 128; 175]; bytes [226; 129; 159]; bytes [227; 128; 128];
   bytes [239; 187; 191]].

Definition white_space (c : string) : bool :=
  bool_decide (c ∈ white_space_characters).

(** The text the given characters make up. *)
Definition join (l : list string) : string :=
  foldr String.append EmptyString l.

Fixpoint drop_white_space (l : list string) : list string :=
  match l with
  | [] => []
  | c :: l' => if white_space c then drop_white_space l' else l
  end.

(** [String.prototype.trim]: the text without the white space at its
    start and at its end. *)
Definition trim (s : string) : string :=
  join (rev (drop_white_space (rev (drop_white_space (characters s))))).

(** The characters of a text without the white space at either end. *)
Definition trimmed (l : list string) : list string :=
  rev (drop_white_space (rev (drop_white_space l))).

Fixpoint all_continuation (t : string) : bool :=
  match t with
  | EmptyString => true
  | String b t' => is_continuation b && all_continuation t'
  end.

(** A list of characters as [characters] cuts them: each is a byte with
    the continuation bytes after it, and none but the first starts with a
    continuation byte. *)
Definition well_cut (l : list string) : Prop :=
  Forall (λ c, ∃ b t, c = String b t ∧ all_continuation t = true) l
  ∧ Forall (λ c, starts_continued c = false) (tail l).

(** The text holds no ASCII letter. *)
Fixpoint no_letter (s : string) : bool :=
  match s with
  | EmptyString => true
  | String b s' =>
    let n := N_of_ascii b in
    negb ((65 <=? n) && (n <=? 90))%N && negb ((97 <=? n) && (n <=? 122))%N
    && no_letter s'
  end.

(** A request the client sends to the notes API, with its JSON body. *)
Inductive ApiCall :=
  | post_notes (body : CreateNoteBody)
  | patch_note (id : string) (body : CreateNoteBody).

(** What comes back: success, or a failure with the message of the
    response body when there is one. *)
Inductive ApiReply :=
  | succeeded
  | failed (message : option string).

(** NoteModal.tsx (src/unnamed/part_005, lines 21-92): the state of the
    form and its handlers. *)
Module NoteModal.

Record State := mkState {
  title : string;
  content : string;
  tags : list string;
  tagInput : string;
  loading : bool;
  error : string;
}.

Section engine.

(** [String.prototype.toLowerCase], which the engine provides. *)
Context (toLowerCase : string → string).

(** Lines 43-52: a key pressed in the tag input. *)
Definition handleAddTag (key : string) (st : State) : State :=
  if bool_decide (key = "Enter") || bool_decide (key = ",")
  then
    let newTag := toLowerCase (trim (tagInput st)) in
    let tags' :=
      if truthy (Some newTag) && negb (bool_decide (newTag ∈ tags st))
      then tags st ++ [newTag]
      else tags st in
    mkState (title st) (content st) tags' EmptyString (loading st) (error st)
  else st.

End engine.

(** Lines 54-56. *)
Definition handleRemoveTag (tagToRemove : string) (st : State) : State :=
  mkState (title st) (content st)
          (List.filter (λ tag, bool_decide (tag ≠ tagToRemove)) (tags st))
          (tagInput st) (loading st) (error st).

(** Lines 69-73: the body of the request. *)
Definition noteData (st : State) : CreateNoteBody :=
  create_body (trim (title st)) (trim (content st)) (Some (tags st)).

(** Lines 63-82: the request a submit makes, if it makes one. *)
Definition request (note : option Note) (st : State) : option ApiCall :=
  if negb (truthy (Some (trim (title st)))) then None
  else match note with
       | Some n => Some (patch_note (note_id n) (noteData st))
       | None => Some (post_notes (noteData st))
       end.

(** Lines 58-92: a submit, with [api] as the server; the boolean tells
    whether [onSave] was called. *)
Definition handleSubmit (note : option Note) (api : ApiCall → ApiReply)
    (st : State) : State * bool :=
  match request note st with
  | None =>
    (mkState (title st) (content st) (tags st) (tagInput st) false
             "Title is required", false)
  | Some call =>
    match api call with
    | succeeded =>
      (mkState (title st) (content st) (tags st) (tagInput st) false
               EmptyString, true)
    | failed message =>
      (mkState (title st) (content st) (tags st) (tagInput st) false
               (if truthy message then default EmptyString message
                else "Failed to save note. Please try again."), false)
    end
  end.

End NoteModal.

(** Dashboard.tsx (src/unnamed/part_004, lines 17-125 and 320-347): the
    notes, the filter and the pager of the notes page and the handlers
    that work on them.  The loading indicator, the tag list and the modal
    are left aside. *)
Module Dashboard.

Record State := mkState {
  notes : list Note;
  filteredNotes : list Note;
  searchTerm : string;
  selectedTags : list string;
  currentPage : Z;
  totalPages : Z;
}.

Definition notesPerPage : Z := 10.

(** Lines 43-50: the query string of [GET /notes] as the server reads
    it; the tags travel as one comma-joined parameter. *)
Definition query (st : State) : NotesQuery :=
  mkNotesQuery
    (if truthy (Some (searchTerm st)) then Some (one (searchTerm st)) else None)
    (match selectedTags st with
     | [] => None
     | _ :: _ => Some (one (String.concat "," (selectedTags st)))
     end)
    (Some (integer (currentPage st)))
    (Some (integer notesPerPage)).

(** Lines 40-59: the outcome of the request arrives. *)
Definition fetchNotes (reply : Result PaginatedNotes) (st : State) : State :=
  match reply with
  | Ok (mkPage data_notes data_total _ _ _) =>
    mkState data_notes (filteredNotes st) (searchTerm st)
            (selectedTags st) (currentPage st)
            (Math_ceil_div data_total notesPerPage)
  | Throw _ => st
  end.

Section engine.

(** [String.prototype.toLowerCase], which the engine provides. *)
Context (toLowerCase : string → string).

(** Lines 70-88. *)
Definition filterNotes (st : State) : State :=
  let filtered := notes st in
  let filtered :=
    if truthy (Some (searchTerm st))
    then List.filter
           (λ note,
              includes (toLowerCase (searchTerm st))
                       (toLowerCase (note_title note))
              || includes (toLowerCase (searchTerm st))
                          (toLowerCase (note_content note)))
           filtered
    else filtered in
  let filtered :=
    match selectedTags st with
    | [] => filtered
    | _ :: _ =>
      List.filter
        (λ note, forallb (λ tag, bool_decide (tag ∈ note_tags note))
                         (selectedTags st))
        filtered
    end in
  mkState (notes st) filtered (searchTerm st) (selectedTags st)
          (currentPage st) (totalPages st).

(** Lines 119-126. *)
Definition toggleTag (tag : string) (st : State) : State :=
  mkState (notes st) (filteredNotes st) (searchTerm st)
          (if bool_decide (tag ∈ selectedTags st)
           then List.filter (λ t, bool_decide (t ≠ tag)) (selectedTags st)
           else selectedTags st ++ [tag])
          1 (totalPages st).

(** What happens on the page: the user types in the search box (lines
    183-186), toggles a tag, clears the tags (line 226), uses the pager,
    or the answer to a request arrives.  The pager (lines 320-347) is
    rendered only when there is more than one page, its numbered buttons
    run from 1 to [totalPages], and its end buttons are disabled on the
    first and on the last page.  The effect of lines 35-37 filters anew
    whenever the notes, the term or the tags are set. *)
Inductive Event :=
  | typed (text : string)
  | toggled (tag : string)
  | cleared
  | previous
  | numbered (p : Z)
  | next
  | fetched (reply : Result PaginatedNotes).

Definition set_page (p : Z) (st : State) : State :=
  mkState (notes st) (filteredNotes st) (searchTerm st) (selectedTags st)
          p (totalPages st).

Definition handle (ev : Event) (st : State) : State :=
  match ev with
  | typed text =>
    filterNotes (mkState (notes st) (filteredNotes st) text (selectedTags st)
                         1 (totalPages st))
  | toggled tag => filterNotes (toggleTag tag st)
  | cleared =>
    filterNotes (mkState (notes st) (filteredNotes st) (searchTerm st) []
                         (currentPage st) (totalPages st))
  | previous =>
    if (1 <? totalPages st) && negb (currentPage st =? 1)
    then set_page (Z.max 1 (currentPage st - 1)) st else st
  | numbered p =>
    if (1 <? totalPages st) && (1 <=? p) && (p <=? totalPages st)
    then set_page p st else st
  | next =>
    if (1 <? totalPages st) && negb (currentPage st =? totalPages st)
    then set_page (Z.min (totalPages st) (currentPage st + 1)) st else st
  | fetched (Ok data) => filterNotes (fetchNotes (Ok data) st)
  | fetched (Throw e) => fetchNotes (Throw e) st
  end.

Definition handle_all (evs : list Event) (st : State) : State :=
  fold_left (λ st ev, handle ev st) evs st.

End engine.

(** The page as it is first rendered (lines 19-29). *)
Definition initial : State := mkState [] [] EmptyString [] 1 1.

End Dashboard.

(** A tag as the form makes them: not empty, without white space around
    it, in lower case. *)
Definition tag_ok (toLowerCase : string → string) (t : string) : Prop :=
  t ≠ EmptyString ∧ trim t = t ∧ toLowerCase t = t.

(** A form being filled in: texts with white space around them, an em
    space before the title and a no-break space before the tag being
    typed, and one tag set. *)
Definition draft : NoteModal.State :=
  NoteModal.mkState (bytes [226; 128; 131] +:+ " Shopping ") " milk "
                    ["home"] (bytes [194; 160] +:+ "Work ") false EmptyString.

(** A form whose title is one no-break space. *)
Definition blank_draft : NoteModal.State :=
  NoteModal.mkState (bytes [194; 160]) "milk" [] EmptyString false EmptyString.


(** The notes page after the user has typed a term and picked two tags. *)
Definition picked : Dashboard.State :=
  Dashboard.handle_all ascii_lower
    [Dashboard.typed "milk"; Dashboard.toggled "work"; Dashboard.toggled "home"]
    Dashboard.initial.

(** ** Accounts *)

(** users.service.ts, which the listing of notes.service.ts carries from
    its line 147 on, and auth.service.ts.  The user table is kept apart
    from the note table: no call below touches a note. *)
Declare Scope accounts_scope.

Module Accounts.

(** The [User] row of [@prisma/client], with the columns the two services
    read. *)
Record User := mkUser {
  user_id : string;
  user_email : string;
  user_password : string;
}.

(** [JwtPayload] of auth.service.ts, lines 9-13; once a token has been
    decoded its [type] is whatever string the token carries. *)
Record JwtPayload := mkJwtPayload {
  sub : string;
  payload_email : string;
  payload_type : string;
}.

(** [AuthResponse] of auth.service.ts, lines 15-22. *)
Record PublicUser := mkPublicUser {
  public_id : string;
  public_email : string;
}.

Record AuthResponse := mkAuthResponse {
  accessToken : string;
  refreshToken : string;
  user : PublicUser;
}.

(** What a call can throw: the exceptions the two services raise
    themselves, and whatever the Prisma client or jsonwebtoken reject
    with, of which the services read the message only. *)
Inductive Exception :=
  | ConflictException (message : string)
  | UnauthorizedException (message : string)
  | BadRequestException (message : string)
  | LibraryError (message : string).

(** [error.message]. *)
Definition message_of (error : Exception) : string :=
  match error with
  | ConflictException message | UnauthorizedException message
  | BadRequestException message | LibraryError message => message
  end.

Inductive Result (A : Type) :=
  | Ok (a : A)
  | Throw (e : Exception).
Arguments Ok {A} a.
Arguments Throw {A} e.

(** bcrypt and jsonwebtoken, as far as the services use them: [hash]
    with the salt it draws, [compare], and [sign] and [verify] with the
    secret (absent when it is not configured), the options and the time
    of the call; both of the latter may throw. *)
Record Libraries := mkLibraries {
  bcrypt_hash : string → nat → string → string;
  bcrypt_compare : string → string → bool;
  jwt_sign : JwtPayload → option string → string → Z → Result string;
  jwt_verify : string → option string → Z → Result JwtPayload;
}.

(** The user table and what surrounds it: the id generator behind the id
    column's default, the message the client rejects with when a unique
    column is violated, an oracle [faults] that says for each call to the
    database, counted by [calls], whether it is rejected and with which
    message, the salts bcrypt draws, and the clock. *)
Record World := mkWorld {
  users : list User;
  idgen : nat → string;
  serial : nat;
  violation : string;
  faults : nat → option string;
  calls : nat;
  salts : nat → string;
  drawn : nat;
  clock : Z;
}.

Definition M (A : Type) : Type := World → Result A * World.

Definition ret {A} (a : A) : M A := λ w, (Ok a, w).

Definition throw {A} (e : Exception) : M A := λ w, (Throw e, w).

Definition bind {A B} (m : M A) (k : A → M B) : M B :=
  λ w, match m w with
       | (Ok a, w') => k a w'
       | (Throw e, w') => (Throw e, w')
       end.

Notation "'await' x <- m ;; k" := (bind m (λ x, k))
  (at level 10, x name, m at level 99, k at level 200) : accounts_scope.
Local Open Scope accounts_scope.

(** [try { body } catch (error) { handler }]. *)
Definition try_catch {A} (body : M A) (handler : Exception → M A) : M A :=
  λ w, match body w with
       | (Ok a, w') => (Ok a, w')
       | (Throw error, w') => handler error w'
       end.

(** What a library call returns or throws. *)
Definition lift {A} (f : World → Result A) : M A := λ w, (f w, w).

Definition answered (w : World) : World :=
  mkWorld (users w) (idgen w) (serial w) (violation w) (faults w)
          (S (calls w)) (salts w) (drawn w) (clock w).

(** One round trip to the database: it is counted, and it either rejects
    without touching a row or runs [f]. *)
Definition db_call {A} (f : World → Result A * World) : M A :=
  λ w, match faults w (calls w) with
       | Some message => (Throw (LibraryError message), answered w)
       | None => f (answered w)
       end.

Definition has_email (email : string) (u : User) : bool :=
  bool_decide (user_email u = email).

Definition has_user_id (id : string) (u : User) : bool :=
  bool_decide (user_id u = id).

(** The user table through the Prisma client.  [findUnique] is typed for
    unique columns only, so [id] and [email] are unique columns: an
    insertion that would repeat one is rejected. *)
Module PrismaUser.

Definition findUnique_email (email : string) : M (option User) :=
  db_call (λ w, (Ok (List.find (has_email email) (users w)), w)).

Definition findUnique_id (id : string) : M (option User) :=
  db_call (λ w, (Ok (List.find (has_user_id id) (users w)), w)).

Definition create (email password : string) : M User :=
  db_call (λ w,
    let id := idgen w (serial w) in
    let w1 := mkWorld (users w) (idgen w) (S (serial w)) (violation w)
                      (faults w) (calls w) (salts w) (drawn w) (clock w) in
    if existsb (has_user_id id) (users w) || existsb (has_email email) (users w)
    then (Throw (LibraryError (violation w)), w1)
    else
      let u := mkUser id email password in
      (Ok u,
       mkWorld (users w ++ [u]) (idgen w) (S (serial w)) (violation w)
               (faults w) (calls w) (salts w) (drawn w) (clock w))).

End PrismaUser.

(** [bcrypt.hash(data, saltRounds)]: a salt is drawn. *)
Definition bcrypt_hash_call (lib : Libraries) (data : string)
    (saltRounds : nat) : M string :=
  λ w, (Ok (bcrypt_hash lib data saltRounds (salts w (drawn w))),
        mkWorld (users w) (idgen w) (serial w) (violation w) (faults w)
                (calls w) (salts w) (S (drawn w)) (clock w)).

(** A value inside a template literal. *)
Definition interpolated (v : option string) : string :=
  default "undefined" v.

(** users.service.ts. *)
Module UsersService.

Section injected.

Context (lib : Libraries).

(** Lines 156-174 of the listing. *)
Definition create (email password : string) : M User :=
  await existingUser <- PrismaUser.findUnique_email email ;;
  match existingUser with
  | Some _ =>
    throw (ConflictException "User with this email already exists")
  | None =>
    let saltRounds := 12%nat in
    await hashedPassword <- bcrypt_hash_call lib password saltRounds ;;
    PrismaUser.create email hashedPassword
  end.

(** Lines 176-180. *)
Definition findByEmail (email : string) : M (option User) :=
  PrismaUser.findUnique_email email.

(** Lines 182-186. *)
Definition findById (id : string) : M (option User) :=
  PrismaUser.findUnique_id id.

(** Lines 188-190. *)
Definition validatePassword (plainPassword hashedPassword : string) : M bool :=
  ret (bcrypt_compare lib plainPassword hashedPassword).

End injected.

End UsersService.

(** auth.service.ts, with the [UsersService], the [JwtService] and the
    [ConfigService] it is constructed with. *)
Module AuthService.

Section injected.

Context (lib : Libraries) (configService_get : string → option string).

(** Lines 105-116. *)
Definition generateAccessToken (u : User) : M string :=
  lift (λ w,
    jwt_sign lib (mkJwtPayload (user_id u) (user_email u) "access")
             (configService_get "JWT_ACCESS_SECRET")
             (interpolated (configService_get "JWT_ACCESS_TTL") +:+ "s")
             (clock w)).

(** Lines 118-129. *)
Definition generateRefreshToken (u : User) : M string :=
  lift (λ w,
    jwt_sign lib (mkJwtPayload (user_id u) (user_email u) "refresh")
             (configService_get "JWT_REFRESH_SECRET")
             (interpolated (configService_get "JWT_REFRESH_TTL") +:+ "s")
             (clock w)).

(** Lines 91-103. *)
Definition generateTokens (u : User) : M AuthResponse :=
  await accessToken <- generateAccessToken u ;;
  await refreshToken <- generateRefreshToken u ;;
  ret (mkAuthResponse accessToken refreshToken
                      (mkPublicUser (user_id u) (user_email u))).

(** Lines 32-44. *)
Definition register (email password : string) : M AuthResponse :=
  try_catch
    (await u <- UsersService.create lib email password ;;
     generateTokens u)
    (λ error,
       if includes "already exists" (message_of error)
       then throw (BadRequestException "User with this email already exists")
       else throw error).

(** Lines 46-60. *)
Definition login (email password : string) : M AuthResponse :=
  await u <- UsersService.findByEmail email ;;
  match u with
  | None => throw (UnauthorizedException "Invalid credentials")
  | Some u =>
    await isPasswordValid <-
      UsersService.validatePassword lib password (user_password u) ;;
    if negb isPasswordValid
    then throw (UnauthorizedException "Invalid credentials")
    else generateTokens u
  end.

(** Lines 62-81. *)
Definition refresh (refreshToken : string) : M AuthResponse :=
  try_catch
    (await payload <-
       lift (λ w, jwt_verify lib refreshToken
                             (configService_get "JWT_REFRESH_SECRET")
                             (clock w)) ;;
     if bool_decide (payload_type payload ≠ "refresh")
     then throw (UnauthorizedException "Invalid token type")
     else
       await u <- UsersService.findById (sub payload) ;;
       match u with
       | None => throw (UnauthorizedException "User not found")
       | Some u => generateTokens u
       end)
    (λ error, throw (UnauthorizedException "Invalid refresh token")).

(** Lines 83-89. *)
Definition validateUser (payload : JwtPayload) : M User :=
  await u <- UsersService.findById (sub payload) ;;
  match u with
  | None => throw (UnauthorizedException "User not found")
  | Some u => ret u
  end.

End injected.

End AuthService.

End Accounts.

(** ** The client: the session *)

(** What the client gets for a request: the data of the response, or an
    error with the status of its response when there is one. *)
Inductive Reply (A : Type) :=
  | fulfilled (data : A)
  | rejected (status : option Z).
Arguments fulfilled {A} data.
Arguments rejected {A} status.

(** How the API answers one request of the client over time: the answer
    to the request itself, by the number of requests the client has sent
    before and the [Authorization] header it carries, and the answer of
    [POST /auth/refresh], by the number of refreshes before and the
    refresh token posted. *)
Record Exchange (A : Type) := mkExchange {
  answer : nat → option string → Reply A;
  refresh_answer : nat → string → Reply Accounts.AuthResponse;
}.
Arguments answer {A} _ _ _.
Arguments refresh_answer {A} _ _ _.

(** AuthContext.tsx (src/unnamed/part_005, lines 405-548). *)
Module AuthContext.

(** The two items of [localStorage], the user of the provider, the
    address the window was sent to, and what has gone over the wire: the
    [Authorization] header of each request sent through [api] and the
    tokens posted for a refresh. *)
Record State := mkState {
  accessToken : option string;
  refreshToken : option string;
  user : option Accounts.PublicUser;
  location : option string;
  sent : list (option string);
  refreshes : list string;
}.

(** Lines 430-436: the [Authorization] header of a request once the
    request interceptor has run over its config, whose header so far is
    [config]: it is set anew when a token is stored and left as it is
    otherwise. *)
Definition authorization (config : option string) (st : State)
    : option string :=
  if truthy (accessToken st)
  then Some ("Bearer " +:+ default EmptyString (accessToken st))
  else config.

(** Lines 439-468: a request through [api], with the response
    interceptor; [retry] is the [_retry] mark of its config and [config]
    the [Authorization] header the config carries.  The retry of line 456
    is a request through [api] again, with the config of the request that
    failed; [fuel] stands for it. *)
Fixpoint api {A} (fuel : nat) (exchange : Exchange A) (retry : bool)
    (config : option string) (st : State) : option (Reply A * State) :=
  match fuel with
  | O => None
  | S fuel =>
    let header := authorization config st in
    let st1 := mkState (accessToken st) (refreshToken st) (user st)
                       (location st) (sent st ++ [header]) (refreshes st) in
    match answer exchange (length (sent st)) header with
    | fulfilled data => Some (fulfilled data, st1)
    | rejected status =>
      if bool_decide (status = Some 401) && negb retry
      then
        if truthy (refreshToken st1)
        then
          let token := default EmptyString (refreshToken st1) in
          match refresh_answer exchange (length (refreshes st1)) token with
          | fulfilled response =>
            api fuel exchange true header
                (mkState (Some (Accounts.accessToken response))
                         (refreshToken st1) (user st1) (location st1)
                         (sent st1) (refreshes st1 ++ [token]))
          | rejected _ =>
            Some (rejected status,
                  mkState None None (user st1) (Some "/login") (sent st1)
                          (refreshes st1 ++ [token]))
          end
        else Some (rejected status, st1)
      else Some (rejected status, st1)
    end
  end.

(** Lines 506-517 and 519-530: [login] and [register] differ in the
    request they post only. *)
Definition login (fuel : nat) (exchange : Exchange Accounts.AuthResponse)
    (st : State) : option (Reply unit * State) :=
  match api fuel exchange false None st with
  | None => None
  | Some (fulfilled response, st') =>
    Some (fulfilled tt,
          mkState (Some (Accounts.accessToken response))
                  (Some (Accounts.refreshToken response))
                  (Some (Accounts.user response))
                  (location st') (sent st') (refreshes st'))
  | Some (rejected status, st') => Some (rejected status, st')
  end.

(** Lines 532-536. *)
Definition logout (st : State) : State :=
  mkState None None None (location st) (sent st) (refreshes st).

End AuthContext.

(** A browser that holds two tokens, and a server that turns the first
    request down with a 401, grants the refresh and then answers. *)
Definition stale_session : AuthContext.State :=
  AuthContext.mkState (Some "old") (Some "r1") None None [] [].

Definition renewing : Exchange string :=
  mkExchange string
    (λ k _, match k with
            | O => rejected (Some 401)
            | S _ => fulfilled "ok"
            end)
    (λ _ _, fulfilled (Accounts.mkAuthResponse
                         "new" "r2" (Accounts.mkPublicUser "u0" "ann"))).

(** A server that does the same but grants as access token the empty
    string. *)
Definition renewing_blank : Exchange string :=
  mkExchange string
    (λ k _, match k with
            | O => rejected (Some 401)
            | S _ => fulfilled "ok"
            end)
    (λ _ _, fulfilled (Accounts.mkAuthResponse
                         EmptyString "r2" (Accounts.mkPublicUser "u0" "ann"))).

(** A server that accepts the login at once. *)
Definition welcoming : Exchange Accounts.AuthResponse :=
  mkExchange Accounts.AuthResponse
    (λ _ _, fulfilled (Accounts.mkAuthResponse
                         "new" "r2" (Accounts.mkPublicUser "u0" "ann")))
    (λ _ _, rejected (Some 401)).

(** The database answers the next [k] calls to the user table. *)
Definition users_answer (k : nat) (w : Accounts.World) : Prop :=
  ∀ i, (i < k)%nat → Accounts.faults w (Accounts.calls w + i)%nat = None.

(** The id the user table would assign next is not taken. *)
Definition user_id_is_free (w : Accounts.World) : Prop :=
  ∀ u, u ∈ Accounts.users w →
       Accounts.user_id u ≠ Accounts.idgen w (Accounts.serial w).

(** No two users share an email or an id. *)
Definition unique_users (w : Accounts.World) : Prop :=
  NoDup (Accounts.user_email <$> Accounts.users w)
  ∧ NoDup (Accounts.user_id <$> Accounts.users w).

(** What the authentication service is asked to do over time. *)
Inductive AuthRequest :=
  | register_as (email password : string)
  | login_as (email password : string)
  | refresh_with (refreshToken : string)
  | validate (payload : Accounts.JwtPayload).

Definition auth_serve (lib : Accounts.Libraries)
    (configService_get : string → option string) (req : AuthRequest)
    (w : Accounts.World) : Accounts.World :=
  match req with
  | register_as email password =>
    (Accounts.AuthService.register lib configService_get email password w).2
  | login_as email password =>
    (Accounts.AuthService.login lib configService_get email password w).2
  | refresh_with refreshToken =>
    (Accounts.AuthService.refresh lib configService_get refreshToken w).2
  | validate payload => (Accounts.AuthService.validateUser payload w).2
  end.

Definition auth_serve_all (lib : Accounts.Libraries)
    (configService_get : string → option string) (reqs : list AuthRequest)
    (w : Accounts.World) : Accounts.World :=
  fold_left (λ w req, auth_serve lib configService_get req w) reqs w.

(** bcrypt accepts a password against every hash made of it. *)
Definition bcrypt_accepts_its_hashes (lib : Accounts.Libraries) : Prop :=
  ∀ data saltRounds salt,
    Accounts.bcrypt_compare lib data
      (Accounts.bcrypt_hash lib data saltRounds salt) = true.

(** Signing yields a token. *)
Definition jwt_signs (lib : Accounts.Libraries) : Prop :=
  ∀ payload secret options t,
    ∃ token, Accounts.jwt_sign lib payload secret options t = Accounts.Ok token.

(** A payload that [verify] returns for a token [sign] has made carries
    the subject and the type that were signed. *)
Definition jwt_keeps_claims (lib : Accounts.Libraries) : Prop :=
  ∀ payload secret options t token secret' t' payload',
    Accounts.jwt_sign lib payload secret options t = Accounts.Ok token →
    Accounts.jwt_verify lib token secret' t' = Accounts.Ok payload' →
    Accounts.sub payload' = Accounts.sub payload
    ∧ Accounts.payload_type payload' = Accounts.payload_type payload.

(** Stand-ins for the libraries, to run the services with: a hash that
    keeps the data in front of the salt, and tokens made of a letter for
    the type followed by the subject. *)
Definition sample_lib : Accounts.Libraries :=
  Accounts.mkLibraries
    (λ data _ salt, (data +:+ "$") +:+ salt)
    (λ data hash, String.prefix (data +:+ "$") hash)
    (λ payload _ _ _,
       Accounts.Ok
         (String (if bool_decide (Accounts.payload_type payload = "refresh")
                  then "r"%char
                  else if bool_decide (Accounts.payload_type payload = "access")
                       then "a"%char else "x"%char)
                 (Accounts.sub payload)))
    (λ token _ _,
       match token with
       | String "r"%char s =>
         Accounts.Ok (Accounts.mkJwtPayload s EmptyString "refresh")
       | String "a"%char s =>
         Accounts.Ok (Accounts.mkJwtPayload s EmptyString "access")
       | _ => Accounts.Throw (Accounts.LibraryError "jwt malformed")
       end).

Definition sample_config (key : string) : option string :=
  if String.prefix "JWT_" key then Some "900" else None.

Definition sample_accounts (l : list Accounts.User) : Accounts.World :=
  Accounts.mkWorld l (λ n, "u" +:+ pretty n) 0 "Unique constraint failed"
                   (λ _, None) 0 (λ n, "salt" +:+ pretty n) 0 1000.

(** ** What the specification says, in its own words *)




(** What a pattern matches, said without the matcher: [%] takes any
    run of characters, [_] any one character, and every other token the
    character it names, up to [same]. *)
Inductive like_matches (same : string → string → Prop)
    : list LikeToken → list string → Prop :=
  | like_matches_end : like_matches same [] []
  | like_matches_literal c x pattern text :
      same c x → like_matches same pattern text →
      like_matches same (literal c :: pattern) (x :: text)
  | like_matches_character x pattern text :
      like_matches same pattern text →
      like_matches same (any_character :: pattern) (x :: text)
  | like_matches_run skipped pattern text :
      like_matches same pattern text →
      like_matches same (any_run :: pattern) (skipped ++ text).

(** [text] matches the pattern [%term%] without regard to case. *)
Definition matches_pattern (lower : string → string) (term text : string)
    : Prop :=
  like_matches (λ c x, lower c = lower x)
               (any_run :: like_tokens (characters term ++ ["%"]))
               (characters text).


(** What a search selects, as the code has it: the notes owned by
    [userId] where (term absent OR the title OR the content matches the
    pattern [%term%] without regard to case) AND (tag filter absent OR
    every requested tag is among the note's tags). *)
Definition search_selects (lower : string → string) (userId : string)
    (term : option string) (required : option (list string)) (n : Note)
    : Prop :=
  note_userId n = userId
  ∧ (term = None
     ∨ ∃ t, term = Some t
            ∧ (matches_pattern lower t (note_title n)
               ∨ matches_pattern lower t (note_content n)))
  ∧ (required = None
     ∨ ∃ ts, required = Some ts ∧ ∀ t, t ∈ ts → t ∈ note_tags n).

(** Section 4.2, step 4: last-modified time descending, ties broken by id
    ascending. *)
Definition updatedAt_desc_id_asc (a b : Note) : Prop :=
  note_updatedAt b < note_updatedAt a
  ∨ (note_updatedAt a = note_updatedAt b ∧ String.le (note_id a) (note_id b)).

(** Section 4.2, step 1: [page = max(1, page)],
    [pageSize = clamp(pageSize, 1, 100)], tag set deduplicated and sorted. *)
Definition clamp (x lo hi : Z) : Z := Z.max lo (Z.min x hi).

Definition normalized_number (f : Z → Z) (v : option QueryNumber)
    : option QueryNumber :=
  match v with
  | Some (integer z) => Some (integer (f z))
  | other => other
  end.

Definition normalized_tags (v : QueryValue) : QueryValue :=
  match v with
  | many l => many (CacheService.normalizeTags l)
  | one s => one s
  end.

Definition normalized (query : NotesQuery) : NotesQuery :=
  mkNotesQuery (param_search query)
               (normalized_tags <$> param_tags query)
               (normalized_number (Z.max 1) (param_page query))
               (normalized_number (λ z, clamp z 1 100) (param_limit query)).

(** A query whose page and page size, where given as integers, already
    lie in the normalized range. *)
Definition in_range (query : NotesQuery) : Prop :=
  (∀ z, param_page query = Some (integer z) → 1 ≤ z)
  ∧ (∀ z, param_limit query = Some (integer z) → 1 ≤ z ≤ 100).

(** A query whose page or page size is an integer below 1. *)
Definition below_range (query : NotesQuery) : Prop :=
  (∃ z, param_page query = Some (integer z) ∧ z < 1)
  ∨ (∃ z, param_limit query = Some (integer z) ∧ z < 1).

(** Two tag lists that name the same set of tags. *)
Definition same_tag_set (a b : option (list string)) : Prop :=
  ∀ t, t ∈ default [] a ↔ t ∈ default [] b.

(** Two tag parameters that name the same set of tags: permutations or
    duplications of one another. *)
Definition same_tags (a b : option QueryValue) : Prop :=
  match a, b with
  | Some (many l1), Some (many l2) => ∀ t, t ∈ l1 ↔ t ∈ l2
  | _, _ => a = b
  end.

(** The three mutations of section 4.2. *)
Inductive Mutation :=
  | create_note (createNoteDto : CreateNoteDto)
  | update_note (id : string) (updateNoteDto : UpdateNoteDto)
  | remove_note (id : string).

Definition mutate (userId : string) (m : Mutation) : M unit :=
  match m with
  | create_note dto =>
    await _ <- NotesService.create userId dto ;; ret tt
  | update_note id dto =>
    await _ <- NotesService.update id userId dto ;; ret tt
  | remove_note id => NotesService.remove id userId
  end.

Definition mutation_op (m : Mutation) : StoreOp :=
  match m with
  | create_note _ => OpCreate
  | update_note _ _ => OpUpdate
  | remove_note _ => OpDelete
  end.

(** The calls a mutation makes before it writes: the lookup of [findOne]. *)
Definition access_check (m : Mutation) : list Event :=
  match m with
  | create_note _ => []
  | _ => [EvStore OpFindUnique]
  end.

(** What the service is asked to do over time: searches, mutations and
    reads of single notes, by any user, one after the other. *)
Inductive Request :=
  | search (userId : string) (queryDto : QueryNotesDto)
  | change (userId : string) (m : Mutation)
  | read (id userId : string).

Definition serve (req : Request) (w : World) : World :=
  match req with
  | search userId queryDto => (NotesService.findAll userId queryDto w).2
  | change userId m => (mutate userId m w).2
  | read id userId => (NotesService.findOne id userId w).2
  end.

Definition serve_all (reqs : list Request) (w : World) : World :=
  fold_left (λ w req, serve req w) reqs w.

(** The database answers its next [k] calls. *)
Definition answers (k : nat) (s : Store) : Prop :=
  ∀ i, (i < k)%nat → outage s (calls s + i)%nat = false.

(** The cache answers what it is asked during the next [k] calls, to
    the table or to itself. *)
Definition cache_answers (k : nat) (w : World) : Prop :=
  ∀ i, (i < k)%nat → cache_down w (length (trace w) + i)%nat = false.

(** The write of a mutation with the access check before it. *)
Definition write_of (m : Mutation) : list Event :=
  access_check m ++ [EvStore (mutation_op m)].

(** The same world with a cache that fails to answer the call made after
    [k] others, and only that one. *)
Definition failing_at (k : nat) (w : World) : World :=
  mkWorld (prisma w) (redis w) (trace w) (λ i, bool_decide (i = k)).

Global Instance Note_eq_dec : EqDecision Note.
Proof. solve_decision. Defined.

(** The notes a search has returned; none when it has thrown. *)
Definition page_of (r : Result PaginatedNotes) : list Note :=
  match r with
  | Ok found => notes found
  | Throw _ => []
  end.

(** The same query for another page. *)
Definition with_page (queryDto : QueryNotesDto) (p : Z) : QueryNotesDto :=
  mkQueryNotesDto (query_search queryDto) (query_tags queryDto) (Some p)
                  (query_limit queryDto).

(** The pages [ps] of a search, asked for one after the other. *)
Fixpoint read_pages (userId : string) (queryDto : QueryNotesDto)
    (ps : list Z) (w : World) : list (list Note) * World :=
  match ps with
  | [] => ([], w)
  | p :: ps' =>
    let '(r, w1) := NotesService.findAll userId (with_page queryDto p) w in
    let '(rest, w2) := read_pages userId queryDto ps' w1 in
    (page_of r :: rest, w2)
  end.

(** The rows a user owns, in table order. *)
Definition notes_of_user (userId : string) (s : Store) : list Note :=
  List.filter (λ n, bool_decide (note_userId n = userId)) (rows s).

(** The tags over all notes of a user. *)
Definition tag_of_user (userId : string) (s : Store) (t : string) : Prop :=
  ∃ n, n ∈ rows s ∧ note_userId n = userId ∧ t ∈ note_tags n.

(** A call is refused with [e]: it throws [e] and leaves the rows of the
    table and the cache as they were. *)
Definition refused {A} (e : Exception) (run : M A) (w : World) : Prop :=
  (run w).1 = Throw e
  ∧ rows (prisma (run w).2) = rows (prisma w)
  ∧ redis (run w).2 = redis w.

(** The cache key [findAll] derives for a query. *)
Definition search_key (userId : string) (queryDto : QueryNotesDto) : string :=
  CacheService.generateNotesSearchKey userId
    (query_search queryDto) (query_tags queryDto)
    (default 1 (query_page queryDto)) (default 10 (query_limit queryDto)).

(** A query the validation lets through: page and page size at least 1. *)
Definition valid_query (queryDto : QueryNotesDto) : Prop :=
  1 ≤ default 1 (query_page queryDto) ∧ 1 ≤ default 10 (query_limit queryDto).

(** The world with every cache entry dropped. *)
Definition without_cache (w : World) : World :=
  mkWorld (prisma w) ∅ (trace w) (cache_down w).

(** The world once [findMany] and [count] have both been issued. *)
Definition after_queries (w : World) : World :=
  mkWorld (answered (answered (prisma w))) (redis w)
          (trace w ++ [EvStore OpFindMany; EvStore OpCount]) (cache_down w).

(** The page [findAll] assembles from what the two queries return. *)
Definition assembled (l : list Note) (count page limit : Z) : PaginatedNotes :=
  mkPage l count page limit (Math_ceil_div count limit).

(** The number of rows a filter selects. *)
Definition count_of (wh : NoteWhere) (s : Store) : Z :=
  Z.of_nat (length (selected wh s)).

(** ** Strings *)

Lemma append_nil_l s : EmptyString +:+ s = s.
Proof. reflexivity. Qed.

Lemma append_cons c s t : String c s +:+ t = String c (s +:+ t).
Proof. reflexivity. Qed.

Lemma prefix_true_iff (p s : string) :
  String.prefix p s = true ↔ ∃ rest, s = p +:+ rest.
Proof.
  revert p. induction s as [|b s IH]; intros [|a p]; simpl.
  - split; [exists EmptyString; reflexivity | done].
  - split; [done | intros [rest H]; rewrite append_cons in H; discriminate].
  - split; [eexists; apply append_nil_l | done].
  - destruct (ascii_dec a b) as [->|Hne].
    + rewrite IH. split; intros [rest H]; exists rest.
      * rewrite append_cons. by f_equal.
      * rewrite append_cons in H. by injection H.
    + split; [done | intros [rest H]].
      rewrite append_cons in H. injection H as H1 H2. congruence.
Qed.

Lemma prefix_append (p rest : string) : String.prefix p (p +:+ rest) = true.
Proof. apply prefix_true_iff. by exists rest. Qed.


(** ** Patterns *)

Lemma like_run same pattern text :
  like same (any_run :: pattern) text
  = like same pattern text
    || match text with
       | [] => false
       | _ :: text' => like same (any_run :: pattern) text'
       end.
Proof. by destruct text. Qed.

Lemma like_matches_skip same x pattern text :
  like_matches same (any_run :: pattern) text →
  like_matches same (any_run :: pattern) (x :: text).
Proof.
  inversion 1 as [| | |skipped p t Hrest]; subst.
  by apply (like_matches_run same (x :: skipped)).
Qed.

(** The matcher decides what the pattern matches. *)
Lemma like_iff (same : string → string → bool) pattern text :
  like same pattern text = true
  ↔ like_matches (λ c x, same c x = true) pattern text.
Proof.
  revert text. induction pattern as [|token pattern IH]; intros text.
  - destruct text; simpl; split; try done.
    + intros _. constructor.
    + inversion 1.
  - destruct token as [| |c].
    + induction text as [|x text IHtext]; rewrite like_run.
      * rewrite orb_false_r, IH. split.
        -- intros H. by apply (like_matches_run _ []).
        -- inversion 1 as [| | |skipped p t Hrest Hp Ht]; subst.
           by destruct skipped, t.
      * rewrite orb_true_iff, IH, IHtext. split.
        -- intros [H|H].
           ++ by apply (like_matches_run _ []).
           ++ by apply like_matches_skip.
        -- inversion 1 as [| | |skipped p t Hrest Hp Ht]; subst.
           destruct skipped as [|y skipped]; simpl in *.
           ++ left. exact Hrest.
           ++ right. injection Ht as _ <-. by constructor.
    + destruct text as [|x text]; simpl.
      * split; [done|inversion 1].
      * rewrite IH. split; [by constructor|by inversion 1].
    + destruct text as [|x text]; simpl.
      * split; [done|inversion 1].
      * rewrite andb_true_iff, IH. split.
        -- intros [? ?]. by constructor.
        -- by inversion 1.
Qed.

Lemma like_matches_same (same same' : string → string → Prop) pattern text :
  (∀ c x, same c x → same' c x) →
  like_matches same pattern text → like_matches same' pattern text.
Proof. intros Himpl. induction 1; constructor; auto. Qed.

Lemma ilike_iff lower term value :
  ilike lower term value = true ↔ matches_pattern lower term value.
Proof.
  unfold ilike, matches_pattern. rewrite like_iff.
  split; apply like_matches_same; intros c x.
  - intros H. by apply bool_decide_eq_true in H.
  - intros H. by apply bool_decide_eq_true.
Qed.

(** The pattern of the empty term matches every text. *)
Lemma matches_pattern_empty lower text :
  matches_pattern lower EmptyString text.
Proof.
  unfold matches_pattern. simpl.
  rewrite <- (app_nil_r (characters text)).
  apply like_matches_run. apply (like_matches_run _ []). constructor.
Qed.






(** ** The filter *)

Lemma hasEvery_true_iff (required : list string) (n : Note) :
  hasEvery required n = true ↔ ∀ t, t ∈ required → t ∈ note_tags n.
Proof.
  unfold hasEvery. rewrite forallb_forall. split; intros H t Ht.
  - apply list_elem_of_In, H in Ht. by apply bool_decide_eq_true in Ht.
  - apply bool_decide_eq_true, H, list_elem_of_In, Ht.
Qed.

(** The [where] object the service builds selects the notes whose title
    or content matches the pattern of the term and that carry every
    requested tag. *)
Lemma where_matches_iff lower userId term required n :
  where_matches lower (NotesService.build_where userId term required) n = true
  ↔ search_selects lower userId term required n.
Proof.
  unfold where_matches, search_selects, NotesService.build_where; simpl.
  rewrite !andb_true_iff, bool_decide_eq_true, Logic.and_assoc.
  apply and_iff_compat_l, Morphisms_Prop.and_iff_morphism.
  - destruct term as [[|c term]|]; simpl.
    + split; [intros _|done]. right. exists EmptyString. split; [done|].
      left. apply matches_pattern_empty.
    + rewrite orb_false_r, orb_true_iff, !ilike_iff. split.
      * intros H. right. eauto.
      * intros [?|(t & [= <-] & H)]; done.
    + split; [by left|done].
  - destruct required as [[|t ts]|].
    + split; [intros _|done]. right. exists []. split; [done|].
      intros t Ht. by apply elem_of_nil in Ht.
    + rewrite hasEvery_true_iff. split.
      * intros H. right. eauto.
      * intros [?|(ts' & [= <-] & H)]; done.
    + split; [by left|done].
Qed.

(** ** The order of the rows *)

Lemma insert_ordered_Permutation n l : insert_ordered n l ≡ₚ n :: l.
Proof.
  induction l as [|m l IH]; simpl; [done|].
  case_decide; [done|]. by rewrite IH, Permutation_swap.
Qed.

Lemma order_Permutation l : order_by_updatedAt_desc l ≡ₚ l.
Proof.
  induction l as [|n l IH]; simpl; [done|].
  by rewrite insert_ordered_Permutation, IH.
Qed.

Lemma insert_ordered_sorted n l :
  StronglySorted updatedAt_desc l →
  StronglySorted updatedAt_desc (insert_ordered n l).
Proof.
  induction 1 as [|m l Hl IH Hm]; simpl.
  - by repeat constructor.
  - case_decide as Hnm.
    + constructor; [by constructor|].
      constructor; [done|].
      eapply Forall_impl; [exact Hm|]. intros k Hk. by etrans.
    + constructor; [done|].
      rewrite insert_ordered_Permutation. constructor; [|done].
      by destruct (updatedAt_desc_total n m).
Qed.

Lemma order_sorted l : StronglySorted updatedAt_desc (order_by_updatedAt_desc l).
Proof.
  induction l as [|n l IH]; simpl; [constructor|].
  by apply insert_ordered_sorted.
Qed.

(** Rows that are in order already are left as they are: the sort moves
    no row past one of equal [updatedAt]. *)
Lemma order_of_sorted l :
  StronglySorted updatedAt_desc l → order_by_updatedAt_desc l = l.
Proof.
  induction 1 as [|n l Hl IH Hn]; simpl; [done|].
  rewrite IH. destruct l as [|m l]; simpl; [done|].
  apply Forall_inv in Hn. by rewrite decide_True.
Qed.

(** ** Running the calls *)

Lemma answers_now k s : answers (S k) s → outage s (calls s) = false.
Proof. intros H. specialize (H 0%nat). rewrite Nat.add_0_r in H. apply H. lia. Qed.

Lemma answers_next k s :
  answers (S k) s → ∀ l, answers k (set_rows l (answered s)).
Proof.
  intros H l i Hi. simpl. specialize (H (S i)).
  rewrite Nat.add_succ_r in H. apply H. lia.
Qed.

(** Unfolds one layer of the service down to the table and the cache. *)
Ltac unfold_calls :=
  unfold mutate, NotesService.create, NotesService.update,
    NotesService.remove, NotesService.findOne, NotesService.findAll,
    NotesService.findAll_miss, PrismaNote.create, PrismaNote.update,
    PrismaNote.delete, PrismaNote.findUnique, PrismaNote.findMany,
    PrismaNote.count, CacheService.invalidateUserNotesCache,
    CacheService.invalidatePattern, CacheService.get, CacheService.set,
    CacheService.reachable, promise_all, store_call, bind, ret, throw in *.

(** Splits on what the next pending test of a run decides. *)
Ltac split_run :=
  repeat match goal with
    | |- context [if outage ?s ?n then _ else _] =>
      destruct (outage s n) eqn:?; simpl
    | |- context [if existsb ?f ?l then _ else _] =>
      destruct (existsb f l) eqn:?; simpl
    | |- context [match List.find ?f ?l with _ => _ end] =>
      destruct (List.find f l) eqn:?; simpl
    | |- context [if bool_decide ?P then _ else _] =>
      destruct (bool_decide P) eqn:?; simpl
    | |- context [cache_down ?w ?n] =>
      destruct (cache_down w n) eqn:?; simpl
    end.

Ltac split_window :=
  match goal with
  | |- context [window ?skip ?take ?l] => destruct (window skip take l) eqn:?
  end.

(** ** Mutations and the cache *)


(** ** Access to a single note *)

Lemma find_has_id_None id (l : list Note) :
  List.find (has_id id) l = None ↔ ∀ n, n ∈ l → note_id n ≠ id.
Proof.
  induction l as [|m l IH]; simpl.
  - split; [intros _ n Hn; by apply elem_of_nil in Hn | done].
  - unfold has_id at 1. case_bool_decide as Hm.
    + split; [done|]. intros H. by destruct (H m (list_elem_of_here _ _)).
    + rewrite IH. split.
      * intros H n [->|Hn]%elem_of_cons; auto.
      * intros H n Hn. apply H. by right.
Qed.

Lemma find_has_id_Some id (l : list Note) n :
  List.find (has_id id) l = Some n → n ∈ l ∧ note_id n = id.
Proof.
  intros H. apply find_some in H as [Hin Hid].
  split; [by apply list_elem_of_In | by apply bool_decide_eq_true in Hid].
Qed.

(** C8: asking for a note whose id is not in the table fails with
    not-found; asking for a note that is in the table but belongs to
    another user fails with forbidden; asking for a note of one's own
    returns it.  [update] and [remove] start with the same check and are
    refused in the same way, before any row or cache entry is touched. *)
Theorem findOne_not_found_or_forbidden id userId dto w
    (Hup : outage (prisma w) (calls (prisma w)) = false) :
  ((∀ n, n ∈ rows (prisma w) → note_id n ≠ id) →
     refused (NotFoundException "Note not found")
             (NotesService.findOne id userId) w
     ∧ refused (NotFoundException "Note not found")
               (NotesService.update id userId dto) w
     ∧ refused (NotFoundException "Note not found")
               (NotesService.remove id userId) w)
  ∧ (∀ n, List.find (has_id id) (rows (prisma w)) = Some n →
       note_userId n ≠ userId →
       refused (ForbiddenException "Access denied")
               (NotesService.findOne id userId) w
       ∧ refused (ForbiddenException "Access denied")
                 (NotesService.update id userId dto) w
       ∧ refused (ForbiddenException "Access denied")
                 (NotesService.remove id userId) w)
  ∧ (∀ n, List.find (has_id id) (rows (prisma w)) = Some n →
       note_userId n = userId →
       (NotesService.findOne id userId w).1 = Ok n).
Proof.
  unfold refused. split_and!.
  - intros Hnone%find_has_id_None.
    unfold_calls. rewrite Hup; simpl. by rewrite Hnone.
  - intros n Hn Hother. unfold_calls. rewrite Hup; simpl. rewrite Hn; simpl.
    by rewrite bool_decide_eq_true_2.
  - intros n Hn Hown. unfold_calls. rewrite Hup; simpl. rewrite Hn; simpl.
    by rewrite bool_decide_eq_false_2 by (by intros []).
Qed.

(** ** Updating a note *)

Lemma lookup_map_update id n' (l : list Note) i m :
  l !! i = Some m → note_id m ≠ id →
  List.map (λ m, if has_id id m then n' else m) l !! i = Some m.
Proof.
  intros Hi Hm. change (List.map ?f l) with (f <$> l).
  rewrite list_lookup_fmap, Hi; simpl.
  unfold has_id. by rewrite bool_decide_eq_false_2.
Qed.

Lemma find_map_update id n' (l : list Note) n :
  List.find (has_id id) l = Some n → note_id n' = id →
  List.find (has_id id) (List.map (λ m, if has_id id m then n' else m) l)
  = Some n'.
Proof.
  intros Hfind Hid. induction l as [|m l IH]; [done|]. simpl in *.
  destruct (has_id id m) eqn:Hm.
  - unfold has_id at 1. by rewrite bool_decide_eq_true_2.
  - rewrite Hm. by apply IH.
Qed.

(** C10: an update of a note its user owns leaves every field that the
    payload omits as it was; a field the payload carries takes the
    payload's value, [updatedAt] is stamped anew, and the id, the owner
    and the creation time stay.  No other row changes. *)
Theorem update_changes_only_given_fields id userId dto w n
    (Hup : answers 2 (prisma w))
    (Hrow : List.find (has_id id) (rows (prisma w)) = Some n)
    (Hown : note_userId n = userId) :
  ∃ n' w',
    NotesService.update id userId dto w = (Ok n', w')
    ∧ note_id n' = note_id n
    ∧ note_userId n' = note_userId n
    ∧ note_createdAt n' = note_createdAt n
    ∧ (update_title dto = None → note_title n' = note_title n)
    ∧ (update_content dto = None → note_content n' = note_content n)
    ∧ (update_tags dto = None → note_tags n' = note_tags n)
    ∧ (∀ t, update_title dto = Some t → note_title n' = t)
    ∧ (∀ c, update_content dto = Some c → note_content n' = c)
    ∧ (∀ ts, update_tags dto = Some ts → note_tags n' = ts)
    ∧ note_updatedAt n' = now (prisma w)
    ∧ List.find (has_id id) (rows (prisma w')) = Some n'
    ∧ (∀ i m, rows (prisma w) !! i = Some m → note_id m ≠ id →
              rows (prisma w') !! i = Some m).
Proof.
  pose proof (answers_now _ _ Hup) as Hup1.
  pose proof (answers_now _ _ (answers_next _ _ Hup (rows (prisma w)))) as Hup2.
  simpl in Hup2.
  destruct (find_has_id_Some _ _ _ Hrow) as [_ Hid].
  eexists _, _. split.
  { unfold_calls. rewrite Hup1; simpl. rewrite Hrow; simpl.
    rewrite bool_decide_eq_false_2 by (by intros []); simpl.
    rewrite Hup2; simpl. rewrite Hrow. reflexivity. }
  simpl. split_and!; try done.
  - by intros ->.
  - by intros ->.
  - by intros ->.
  - by intros t ->.
  - by intros c ->.
  - by intros ts ->.
  - by eapply find_map_update.
  - intros i m Hi Hm. by apply lookup_map_update.
Qed.

(** ** The cache *)

Lemma search_key_under_prefix userId queryDto :
  String.prefix (CacheService.userNotesPrefix userId)
                (search_key userId queryDto) = true.
Proof. apply prefix_append. Qed.

Lemma mutate_cache_down userId m w :
  cache_down (mutate userId m w).2 = cache_down w.
Proof. destruct m; unfold_calls; simpl; split_run; done. Qed.

Lemma findOne_cache_down id userId w :
  cache_down (NotesService.findOne id userId w).2 = cache_down w.
Proof. unfold_calls; simpl; split_run; done. Qed.

Lemma mutate_Ok_redis userId m w r w' :
  mutate userId m w = (Ok r, w') →
  redis w'
  = if cache_down w (length (trace w ++ write_of m))
    then redis w
    else filter (λ kv, ¬ CacheService.under
                          (CacheService.userNotesPrefix userId) kv)
                (redis w).
Proof.
  unfold write_of.
  destruct m as [dto|id dto|id]; unfold_calls; simpl; split_run;
    rewrite ?length_app, <- ?Nat.add_assoc in *; simpl in *;
    intros [= <- <-]; simpl; congruence.
Qed.

Lemma findAll_on_miss userId queryDto w :
  redis w !! search_key userId queryDto = None
  ∨ cache_down w (length (trace w)) = true →
  NotesService.findAll userId queryDto w
  = NotesService.findAll_miss userId (search_key userId queryDto)
      (query_search queryDto) (query_tags queryDto)
      (default 1 (query_page queryDto)) (default 10 (query_limit queryDto))
      (log (EvCacheGet (search_key userId queryDto)) w).
Proof.
  intros Hmiss.
  unfold NotesService.findAll, CacheService.get, CacheService.reachable, bind.
  fold (search_key userId queryDto).
  destruct Hmiss as [-> | ->]; [|done]. by destruct (negb _).
Qed.

Lemma findAll_on_hit userId queryDto w entry :
  cache_down w (length (trace w)) = false →
  redis w !! search_key userId queryDto = Some entry →
  NotesService.findAll userId queryDto w
  = (Ok (entry_value entry), log (EvCacheGet (search_key userId queryDto)) w).
Proof.
  intros Hup Hhit.
  unfold NotesService.findAll, CacheService.get, CacheService.reachable, bind.
  fold (search_key userId queryDto). by rewrite Hup, Hhit.
Qed.

(** What the miss path does, in one equation: both queries are issued;
    when both are answered and the window is admissible the page is
    assembled, handed to the cache under the key, which stores it if it
    answers, and returned. *)
Lemma findAll_miss_run userId key search tags page limit w :
  NotesService.findAll_miss userId key search tags page limit w
  = let s := prisma w in
    let wh := NotesService.build_where userId search tags in
    if outage s (calls s) || outage s (S (calls s))
    then (Throw PrismaClientError, after_queries w)
    else
      match window ((page - 1) * limit) limit
                   (select_ordered wh (answered s)) with
      | None => (Throw PrismaClientError, after_queries w)
      | Some l =>
        let r := assembled l (count_of wh s) page limit in
        (Ok r,
         mkWorld (prisma (after_queries w))
                 (if cache_down w (length (trace w) + 2)
                  then redis w
                  else <[key := mkEntry r 300]> (redis w))
                 (trace (after_queries w) ++ [EvCacheSet key])
                 (cache_down w))
      end.
Proof.
  unfold_calls.
  unfold after_queries, log, set_prisma, select_ordered, count_of, selected.
  simpl.
  repeat (first
    [ split_window
    | match goal with
      | |- context [if outage ?s ?n then _ else _] =>
        destruct (outage s n) eqn:?
      | |- context [outage ?s ?n || _] => destruct (outage s n) eqn:?
      end ]; simpl);
    rewrite ?length_app, <- ?Nat.add_assoc, <- ?app_assoc; simpl;
    try reflexivity.
  all: by destruct (cache_down _ _).
Qed.

Lemma findAll_cache_down userId queryDto w :
  cache_down (NotesService.findAll userId queryDto w).2 = cache_down w.
Proof.
  destruct (redis w !! search_key userId queryDto) as [hit|] eqn:Hlook;
    [destruct (cache_down w (length (trace w))) eqn:Hdown|].
  2: by rewrite (findAll_on_hit _ _ _ _ Hdown Hlook).
  all: rewrite findAll_on_miss, findAll_miss_run by auto; simpl.
  all: destruct (_ || _); [done|]; by split_window.
Qed.

(** On a miss the outcome is read off the note table: the cache plays no
    part in it. *)
Lemma findAll_miss_result_of_store userId key search tags page limit w1 w2 :
  prisma w1 = prisma w2 →
  (NotesService.findAll_miss userId key search tags page limit w1).1
  = (NotesService.findAll_miss userId key search tags page limit w2).1.
Proof.
  intros Hs. rewrite !findAll_miss_run. simpl. rewrite Hs.
  destruct (_ || _); [done|]. by split_window.
Qed.

(** A cache entry found after a search was either there before or has
    been stored by that search. *)
Lemma findAll_keeps_or_sets userId queryDto w :
  ∃ evs,
    trace (NotesService.findAll userId queryDto w).2 = trace w ++ evs
    ∧ ∀ key entry,
        redis (NotesService.findAll userId queryDto w).2 !! key = Some entry →
        redis w !! key = Some entry ∨ EvCacheSet key ∈ evs.
Proof.
  destruct (redis w !! search_key userId queryDto) as [hit|] eqn:Hlook;
    [destruct (cache_down w (length (trace w))) eqn:Hdown|].
  2: { rewrite (findAll_on_hit _ _ _ _ Hdown Hlook). simpl. eauto. }
  all: rewrite findAll_on_miss, findAll_miss_run by auto; simpl.
  all: destruct (_ || _); simpl;
    [eexists; split; [by rewrite <- app_assoc|]; auto|].
  all: split_window; simpl;
    [|eexists; split; [by rewrite <- app_assoc|]; auto].
  all: eexists; (split; [by rewrite <- !app_assoc|]).
  all: intros key entry; simpl.
  all: destruct (cache_down w (_ + 2)); intros Hentry; [by left|].
  all: destruct (decide (search_key userId queryDto = key)) as [<-|Hne];
    [right; simpl; rewrite !elem_of_cons; auto
    |left; by rewrite lookup_insert_ne in Hentry].
Qed.

Lemma mutate_keeps userId m w :
  ∃ evs,
    trace (mutate userId m w).2 = trace w ++ evs
    ∧ ∀ key entry,
        redis (mutate userId m w).2 !! key = Some entry →
        redis w !! key = Some entry.
Proof.
  destruct m as [dto|id dto|id]; unfold_calls; simpl; split_run;
    rewrite <- ?app_assoc;
    (eexists; split; [reflexivity|]);
    intros key entry Hentry; simpl in Hentry;
    first [ exact Hentry
          | by apply map_lookup_filter_Some in Hentry as [? _] ].
Qed.

Lemma findOne_keeps id userId w :
  ∃ evs,
    trace (NotesService.findOne id userId w).2 = trace w ++ evs
    ∧ redis (NotesService.findOne id userId w).2 = redis w.
Proof. unfold_calls; simpl; split_run; eauto. Qed.

(** Whatever the service is asked, a cache entry found afterwards was
    either there before or has been stored in the meantime. *)
Lemma serve_keeps_or_sets req w :
  ∃ evs,
    trace (serve req w) = trace w ++ evs
    ∧ ∀ key entry,
        redis (serve req w) !! key = Some entry →
        redis w !! key = Some entry ∨ EvCacheSet key ∈ evs.
Proof.
  destruct req as [userId queryDto|userId m|id userId]; simpl.
  - apply findAll_keeps_or_sets.
  - destruct (mutate_keeps userId m w) as (evs & Htrace & Hkeep).
    exists evs. split; [done|]. intros key entry Hentry. left. eauto.
  - destruct (findOne_keeps id userId w) as (evs & Htrace & Hkeep).
    exists evs. split; [done|]. intros key entry Hentry. left.
    by rewrite <- Hkeep.
Qed.

Lemma serve_all_keeps_or_sets reqs w :
  ∃ evs,
    trace (serve_all reqs w) = trace w ++ evs
    ∧ ∀ key entry,
        redis (serve_all reqs w) !! key = Some entry →
        redis w !! key = Some entry ∨ EvCacheSet key ∈ evs.
Proof.
  revert w. induction reqs as [|req reqs IH]; intros w; simpl.
  - exists []. split; [by rewrite app_nil_r|]. auto.
  - destruct (serve_keeps_or_sets req w) as (evs1 & Htrace1 & Hkeep1).
    destruct (IH (serve req w)) as (evs2 & Htrace2 & Hkeep2).
    exists (evs1 ++ evs2). split.
    + fold (serve_all reqs (serve req w)).
      by rewrite Htrace2, Htrace1, app_assoc.
    + intros key entry Hentry. rewrite elem_of_app.
      destruct (Hkeep2 key entry Hentry) as [Hold|Hset]; [|auto].
      destruct (Hkeep1 key entry Hold); auto.
Qed.

(** C1, as the code has it: once a create, update or delete of user
    [userId] has succeeded and the cache has answered the invalidation
    that follows the write, no cache entry under that user's prefix is
    left, whatever was cached before; a search of that user that follows,
    for any query, misses the cache and reads its page from the note
    table as the mutation left it: it returns what it would return with
    an empty cache.  However the service is used from then on, an entry
    found under that user's prefix has been stored after the mutation. *)
Theorem mutation_busts_search_cache userId m w r w' queryDto
    (Hdone : mutate userId m w = (Ok r, w'))
    (Hcache : cache_down w (length (trace w ++ write_of m)) = false) :
  (∀ key, String.prefix (CacheService.userNotesPrefix userId) key = true →
          redis w' !! key = None)
  ∧ (∀ reqs key entry,
       String.prefix (CacheService.userNotesPrefix userId) key = true →
       redis (serve_all reqs w') !! key = Some entry →
       ∃ evs, trace (serve_all reqs w') = trace w' ++ evs
              ∧ EvCacheSet key ∈ evs)
  ∧ redis w' !! search_key userId queryDto = None
  ∧ NotesService.findAll userId queryDto w'
    = NotesService.findAll_miss userId (search_key userId queryDto)
        (query_search queryDto) (query_tags queryDto)
        (default 1 (query_page queryDto)) (default 10 (query_limit queryDto))
        (log (EvCacheGet (search_key userId queryDto)) w')
  ∧ (NotesService.findAll userId queryDto w').1
    = (NotesService.findAll userId queryDto (without_cache w')).1.
Proof.
  assert (∀ key,
    String.prefix (CacheService.userNotesPrefix userId) key = true →
    redis w' !! key = None) as Hgone.
  { intros key Hkey. rewrite (mutate_Ok_redis _ _ _ _ _ Hdone), Hcache.
    apply map_lookup_filter_None. right. intros entry _ Hkeep.
    by apply Hkeep. }
  pose proof (Hgone _ (search_key_under_prefix userId queryDto)) as Hmiss.
  split_and!; [done| |done|by apply findAll_on_miss; left|].
  { intros reqs key entry Hkey Hentry.
    destruct (serve_all_keeps_or_sets reqs w') as (evs & Htrace & Hkeep).
    exists evs. split; [done|].
    destruct (Hkeep key entry Hentry) as [Hold|Hset]; [|done].
    by rewrite (Hgone key Hkey) in Hold. }
  rewrite !findAll_on_miss by (left; done || apply lookup_empty).
  by apply findAll_miss_result_of_store.
Qed.

(** C1 as stated fails: when the cache does not answer the invalidation
    of a delete that has succeeded, the page cached before it is served
    to the next search, with the deleted note on it. *)
Lemma stale_page_counterexample :
  ¬ (∀ userId m w r w' queryDto,
       mutate userId m w = (Ok r, w') →
       (NotesService.findAll userId queryDto w').1
       = (NotesService.findAll userId queryDto (without_cache w')).1).
Proof.
  intros Hclaim.
  specialize (Hclaim "u" (remove_note "a") (failing_at 6 cached_world) tt
                     (mutate "u" (remove_note "a")
                             (failing_at 6 cached_world)).2
                     no_filter eq_refl).
  vm_compute in Hclaim. discriminate Hclaim.
Qed.

Lemma findAll_trace_miss userId queryDto w r w1 :
  redis w !! search_key userId queryDto = None
  ∨ cache_down w (length (trace w)) = true →
  NotesService.findAll userId queryDto w = (Ok r, w1) →
  length (trace w1) = (length (trace w) + 4)%nat
  ∧ redis w1 = (if cache_down w (length (trace w) + 3)
                then redis w
                else <[search_key userId queryDto := mkEntry r 300]> (redis w)).
Proof.
  intros Hmiss. rewrite findAll_on_miss, findAll_miss_run by done. simpl.
  destruct (_ || _); [done|]. split_window; [|done].
  intros [= <- <-]. simpl. rewrite !length_app. simpl.
  rewrite <- !Nat.add_assoc. simpl. split; [lia|done].
Qed.

(** C2, as the code has it: when a search with a valid query has
    returned a page and the cache answers, having stored the page and
    now reading it, the same search repeated with nothing in between
    returns the same page, found in the cache: the repeat makes one cache
    read and no call to the note table, and changes nothing else. *)
Theorem repeated_search_is_served_from_cache userId queryDto w r1 w1
    (Hvalid : valid_query queryDto)
    (Hcache : cache_answers 5 w)
    (Hfirst : NotesService.findAll userId queryDto w = (Ok r1, w1)) :
  NotesService.findAll userId queryDto w1
  = (Ok r1, log (EvCacheGet (search_key userId queryDto)) w1)
  ∧ (entry_value <$> redis w1 !! search_key userId queryDto) = Some r1.
Proof.
  pose proof (findAll_cache_down userId queryDto w) as Hdown.
  rewrite Hfirst in Hdown. simpl in Hdown.
  pose proof (Hcache 0%nat ltac:(lia)) as Hget. rewrite Nat.add_0_r in Hget.
  destruct (redis w !! search_key userId queryDto) as [entry|] eqn:Hlook.
  - rewrite (findAll_on_hit _ _ _ _ Hget Hlook) in Hfirst.
    revert Hfirst. intros [= <- <-].
    split; [|simpl; by rewrite Hlook].
    apply findAll_on_hit; [|done]. simpl. rewrite length_app. simpl.
    apply (Hcache 1%nat). lia.
  - destruct (findAll_trace_miss _ _ _ _ _ (or_introl Hlook) Hfirst)
      as [Hlen Hredis].
    rewrite (Hcache 3%nat) in Hredis by lia.
    assert (redis w1 !! search_key userId queryDto = Some (mkEntry r1 300))
      as Hentry by (rewrite Hredis; apply lookup_insert_eq).
    split; [|by rewrite Hentry].
    assert (cache_down w1 (length (trace w1)) = false) as Hup
      by (rewrite Hdown, Hlen; apply (Hcache 4%nat); lia).
    by rewrite (findAll_on_hit _ _ _ _ Hup Hentry).
Qed.

(** C2 as stated fails: when the cache does not answer the [set] of the
    first search, the repeat finds nothing in the cache and queries the
    note table again. *)
Lemma repeated_search_counterexample :
  ¬ (∀ userId queryDto w r1 w1,
       valid_query queryDto →
       NotesService.findAll userId queryDto w = (Ok r1, w1) →
       NotesService.findAll userId queryDto w1
       = (Ok r1, log (EvCacheGet (search_key userId queryDto)) w1)).
Proof.
  intros Hclaim.
  assert (valid_query no_filter) as Hvalid by (by vm_compute).
  destruct (NotesService.findAll "u" no_filter (failing_at 3 desk_world))
    as [[r1|e] w1] eqn:Hfirst; [|by vm_compute in Hfirst].
  specialize (Hclaim "u" no_filter (failing_at 3 desk_world) r1 w1
                     Hvalid Hfirst).
  vm_compute in Hfirst. injection Hfirst as <- <-.
  vm_compute in Hclaim. discriminate Hclaim.
Qed.

(** ** A search that misses the cache *)

Lemma answers_two s :
  answers 2 s → outage s (calls s) || outage s (S (calls s)) = false.
Proof.
  intros H. rewrite (answers_now _ _ H). simpl.
  specialize (H 1%nat). rewrite Nat.add_1_r in H. apply H. lia.
Qed.

Lemma window_valid {A} (skip size : Z) (l : list A) :
  0 ≤ skip → 0 ≤ size →
  window skip size l = Some (take (Z.to_nat size) (drop (Z.to_nat skip) l)).
Proof.
  intros Hskip Hsize. unfold window.
  destruct (Z.ltb_spec skip 0); [lia|].
  destruct (Z.leb_spec 0 size); [done|lia].
Qed.

Lemma insert_ranked_Permutation rank n l :
  insert_ranked rank n l ≡ₚ n :: l.
Proof.
  induction l as [|m l IH]; simpl; [done|].
  case_decide; [done|]. rewrite IH. apply Permutation_swap.
Qed.

Lemma scan_order_Permutation rank l : scan_order rank l ≡ₚ l.
Proof.
  induction l as [|n l IH]; simpl; [done|].
  by rewrite insert_ranked_Permutation, IH.
Qed.

Lemma select_ordered_Permutation wh s : select_ordered wh s ≡ₚ selected wh s.
Proof.
  unfold select_ordered. by rewrite order_Permutation, scan_order_Permutation.
Qed.

Lemma selected_answered wh s : selected wh (answered s) = selected wh s.
Proof. done. Qed.

Lemma count_of_select_ordered wh s :
  count_of wh s = Z.of_nat (length (select_ordered wh (answered s))).
Proof.
  unfold count_of. f_equal. symmetry.
  by rewrite select_ordered_Permutation, selected_answered.
Qed.

(** With the cache missing, the table answering and a valid query,
    [findAll] returns the requested window of the selected rows, in the
    order the table yields them for this call. *)
Lemma findAll_answered userId queryDto w :
  redis w !! search_key userId queryDto = None
  ∨ cache_down w (length (trace w)) = true →
  answers 2 (prisma w) →
  valid_query queryDto →
  ∃ w', NotesService.findAll userId queryDto w
        = (Ok (assembled
                 (take (Z.to_nat (default 10 (query_limit queryDto)))
                    (drop (Z.to_nat ((default 1 (query_page queryDto) - 1)
                                     * default 10 (query_limit queryDto)))
                       (select_ordered
                          (NotesService.build_where userId
                             (query_search queryDto) (query_tags queryDto))
                          (answered (prisma w)))))
                 (count_of (NotesService.build_where userId
                              (query_search queryDto) (query_tags queryDto))
                           (prisma w))
                 (default 1 (query_page queryDto))
                 (default 10 (query_limit queryDto))),
           w').
Proof.
  intros Hmiss Hup [Hpage Hlimit].
  rewrite findAll_on_miss, findAll_miss_run by auto. simpl.
  rewrite (answers_two _ Hup), window_valid by nia. eauto.
Qed.

Lemma Math_ceil_div_bounds (total limit : Z) :
  1 ≤ limit →
  (Math_ceil_div total limit - 1) * limit < total
  ≤ Math_ceil_div total limit * limit.
Proof.
  intros Hlimit. unfold Math_ceil_div.
  pose proof (Z.mul_div_le (- total) limit ltac:(lia)).
  pose proof (Z.mul_succ_div_gt (- total) limit ltac:(lia)).
  nia.
Qed.

Lemma Math_ceil_div_unique (total limit k : Z) :
  1 ≤ limit → (k - 1) * limit < total ≤ k * limit →
  Math_ceil_div total limit = k.
Proof.
  intros Hlimit Hk. pose proof (Math_ceil_div_bounds total limit Hlimit). nia.
Qed.

Lemma select_ordered_sorted wh s :
  StronglySorted updatedAt_desc (select_ordered wh s).
Proof. apply order_sorted. Qed.

Lemma filter_same {A} (f g : A → bool) (l : list A) :
  (∀ x, f x = g x) → List.filter f l = List.filter g l.
Proof.
  intros Hfg. induction l as [|x l IH]; simpl; [done|]. by rewrite Hfg, IH.
Qed.

(** C6: on a cache miss, be it that the cache holds no entry for the
    query or that it fails to answer, with page [p] and page size [s]:
    the matching notes are the rows of the table that the search selects,
    the ordered matching list holds those rows, each as often as the table
    does, with no note before one modified later; [total] counts all
    matching notes whatever the page, the items are positions [(p-1)*s]
    up to [p*s] of the ordered matching list, and [totalPages] is the
    ceiling of [total / s], hence 0 when nothing matches.  With 25
    matching notes and [s = 10], pages 1 and 2 hold 10 items, page 3
    holds 5, page 4 holds none, and [totalPages] is 3. *)
Theorem pagination_of_a_miss userId queryDto w
    (Hmiss : redis w !! search_key userId queryDto = None
             ∨ cache_down w (length (trace w)) = true)
    (Hup : answers 2 (prisma w))
    (Hvalid : valid_query queryDto) :
  let p := default 1 (query_page queryDto) in
  let s := default 10 (query_limit queryDto) in
  ∃ r w' (decided : Note → bool) (matching ordered : list Note),
    NotesService.findAll userId queryDto w = (Ok r, w')
    ∧ (∀ n, decided n = true
            ↔ search_selects (lower (prisma w)) userId
                (query_search queryDto) (query_tags queryDto) n)
    ∧ matching = List.filter decided (rows (prisma w))
    ∧ ordered ≡ₚ matching
    ∧ StronglySorted updatedAt_desc ordered
    ∧ page r = p ∧ limit r = s
    ∧ total r = Z.of_nat (length matching)
    ∧ notes r = take (Z.to_nat s) (drop (Z.to_nat ((p - 1) * s)) ordered)
    ∧ (∀ i : nat,
         notes r !! i
         = if decide (Z.of_nat i < s)
           then ordered !! (Z.to_nat ((p - 1) * s) + i)%nat
           else None)
    ∧ (totalPages r - 1) * s < total r ≤ totalPages r * s
    ∧ (total r = 0 → totalPages r = 0)
    ∧ (total r = 25 → s = 10 →
       totalPages r = 3
       ∧ (p = 1 ∨ p = 2 → length (notes r) = 10%nat)
       ∧ (p = 3 → length (notes r) = 5%nat)
       ∧ (p = 4 → length (notes r) = 0%nat)).
Proof.
  intros p s.
  destruct (findAll_answered _ _ _ Hmiss Hup Hvalid) as [w' Hrun].
  destruct Hvalid as [Hp Hs]. fold p in Hp. fold s in Hs.
  set (wh := NotesService.build_where userId (query_search queryDto)
                                      (query_tags queryDto)) in *.
  eexists _, w', (where_matches (lower (prisma w)) wh),
    (selected wh (prisma w)), (select_ordered wh (answered (prisma w))).
  split; [exact Hrun|]. unfold assembled. simpl. fold p s.
  assert (count_of wh (prisma w)
          = Z.of_nat (length (select_ordered wh (answered (prisma w)))))
    as Hcount by apply count_of_select_ordered.
  split_and!; try done.
  - intros n. apply where_matches_iff.
  - by rewrite select_ordered_Permutation.
  - apply select_ordered_sorted.
  - intros i. rewrite lookup_take, lookup_drop.
    repeat case_decide; (done || lia).
  - by apply Math_ceil_div_bounds.
  - by apply Math_ceil_div_bounds.
  - intros H0. apply Math_ceil_div_unique; lia.
  - intros H25 ->. rewrite H25.
    split; [by apply Math_ceil_div_unique|].
    rewrite Hcount in H25. rewrite length_take, length_drop. lia.
Qed.

(** ** Which notes a search returns, and in which order *)




Lemma sample_answers l k : answers k (prisma (sample_world l)).
Proof. by intros i _. Qed.


Lemma StronglySorted_sublist {A} (R : relation A) (l k : list A) :
  sublist l k → StronglySorted R k → StronglySorted R l.
Proof.
  induction 1 as [|x l k Hsub IH|x l k Hsub IH]; intros Hk.
  - constructor.
  - apply StronglySorted_inv in Hk as [Hk Hx].
    constructor; [by apply IH|].
    apply Forall_forall. intros y Hy.
    eapply Forall_forall in Hx; [exact Hx|].
    by eapply elem_of_sublist.
  - apply StronglySorted_inv in Hk as [Hk _]. by apply IH.
Qed.

Lemma StronglySorted_lookup_lt {A} (R : relation A) (l : list A) i j a b :
  StronglySorted R l → l !! i = Some a → l !! j = Some b → (i < j)%nat →
  R a b.
Proof.
  intros Hl. revert i j. induction Hl as [|x l Hl IH Hx]; intros i j Hi Hj Hij.
  - done.
  - destruct j as [|j]; [lia|]. destruct i as [|i]; simpl in *.
    + injection Hi as <-. eapply Forall_forall in Hx; [exact Hx|].
      by eapply list_elem_of_lookup_2.
    + apply (IH i j); (done || lia).
Qed.

(** C5, as the code has it: on a cache miss the notes come ordered by
    [updatedAt] descending: a note never precedes one modified later.
    Nothing orders notes of equal [updatedAt] by id. *)
Theorem search_orders_by_updatedAt userId queryDto w
    (Hmiss : redis w !! search_key userId queryDto = None)
    (Hup : answers 2 (prisma w))
    (Hvalid : valid_query queryDto) :
  ∃ r w',
    NotesService.findAll userId queryDto w = (Ok r, w')
    ∧ StronglySorted updatedAt_desc (notes r)
    ∧ (∀ i j a b, notes r !! i = Some a → notes r !! j = Some b →
                  (i < j)%nat → note_updatedAt b ≤ note_updatedAt a).
Proof.
  destruct (findAll_answered _ _ _ (or_introl Hmiss) Hup Hvalid)
    as [w' Hrun].
  eexists _, w'. split; [exact Hrun|]. simpl.
  match goal with
  | |- StronglySorted _ ?l ∧ _ =>
    assert (StronglySorted updatedAt_desc l) as Hsorted
  end.
  { eapply StronglySorted_sublist; [|apply select_ordered_sorted].
    etrans; [apply sublist_take|apply sublist_drop]. }
  split; [done|]. intros i j a b Hi Hj Hij.
  by apply (StronglySorted_lookup_lt updatedAt_desc _ i j a b Hsorted).
Qed.

(** C5 as stated fails: two notes of equal [updatedAt] are returned in
    the order b, a. *)
Lemma tie_break_by_id_counterexample :
  ¬ (∀ userId queryDto w r w',
       redis w !! search_key userId queryDto = None →
       answers 2 (prisma w) →
       valid_query queryDto →
       NotesService.findAll userId queryDto w = (Ok r, w') →
       StronglySorted updatedAt_desc_id_asc (notes r)).
Proof.
  intros Hclaim.
  pose proof (Hclaim "u" no_filter tied_world _ _ eq_refl
                (sample_answers _ 2) ltac:(by vm_compute) eq_refl) as Hsorted.
  vm_compute in Hsorted.
  apply StronglySorted_inv in Hsorted as [_ Hfirst].
  apply Forall_inv in Hfirst. by destruct Hfirst as [?|[_ ?]].
Qed.

(** ** Normalization of a query *)

Lemma normalizeTags_same (l1 l2 : list string) :
  (∀ t, t ∈ l1 ↔ t ∈ l2) →
  CacheService.normalizeTags l1 = CacheService.normalizeTags l2.
Proof.
  intros Hsame. unfold CacheService.normalizeTags.
  apply (StronglySorted_unique String.le).
  - apply StronglySorted_merge_sort; apply _.
  - apply StronglySorted_merge_sort; apply _.
  - rewrite !merge_sort_Permutation.
    apply NoDup_Permutation; [apply NoDup_remove_dups..|].
    intros t. by rewrite !elem_of_remove_dups.
Qed.

Lemma elem_of_normalizeTags (l : list string) t :
  t ∈ CacheService.normalizeTags l ↔ t ∈ l.
Proof.
  unfold CacheService.normalizeTags.
  by rewrite merge_sort_Permutation, elem_of_remove_dups.
Qed.

Lemma search_key_same_tags userId d1 d2 :
  query_search d1 = query_search d2 →
  query_page d1 = query_page d2 →
  query_limit d1 = query_limit d2 →
  same_tag_set (query_tags d1) (query_tags d2) →
  search_key userId d1 = search_key userId d2.
Proof.
  intros Hsearch Hpage Hlimit Htags.
  unfold search_key, CacheService.generateNotesSearchKey.
  by rewrite Hsearch, Hpage, Hlimit, (normalizeTags_same _ _ Htags).
Qed.

Lemma search_selects_tags lower userId term required n :
  search_selects lower userId term required n
  ↔ note_userId n = userId
    ∧ (term = None
       ∨ ∃ t, term = Some t
              ∧ (matches_pattern lower t (note_title n)
                 ∨ matches_pattern lower t (note_content n)))
    ∧ ∀ t, t ∈ default [] required → t ∈ note_tags n.
Proof.
  unfold search_selects. do 2 apply and_iff_compat_l.
  destruct required as [ts|]; simpl.
  - split; [intros [?|(ts' & [= <-] & H)]; done | eauto].
  - split; [intros _ t Ht; by apply elem_of_nil in Ht | by left].
Qed.

Lemma where_matches_same_tags lower userId term tags1 tags2 n :
  same_tag_set tags1 tags2 →
  where_matches lower (NotesService.build_where userId term tags1) n
  = where_matches lower (NotesService.build_where userId term tags2) n.
Proof.
  intros Hsame.
  assert (search_selects lower userId term tags1 n
          ↔ search_selects lower userId term tags2 n) as Hiff.
  { rewrite !search_selects_tags. do 2 apply and_iff_compat_l.
    split; intros H t Ht; apply H, Hsame, Ht. }
  rewrite <- !where_matches_iff in Hiff.
  destruct (where_matches _ _ n), (where_matches _ _ n); try done;
    [symmetry|]; by apply Hiff.
Qed.

Lemma findAll_same_tags userId d1 d2 w :
  query_search d1 = query_search d2 →
  query_page d1 = query_page d2 →
  query_limit d1 = query_limit d2 →
  same_tag_set (query_tags d1) (query_tags d2) →
  NotesService.findAll userId d1 w = NotesService.findAll userId d2 w.
Proof.
  intros Hsearch Hpage Hlimit Htags.
  pose proof (search_key_same_tags userId _ _ Hsearch Hpage Hlimit Htags)
    as Hkey.
  assert (∀ s,
    selected (NotesService.build_where userId (query_search d1)
                                       (query_tags d1)) s
    = selected (NotesService.build_where userId (query_search d1)
                                         (query_tags d2)) s) as Hsel.
  { intros s. apply filter_same. intros n.
    by apply where_matches_same_tags. }
  assert (redis w !! search_key userId d1 = None
          ∨ cache_down w (length (trace w)) = true
          ∨ ∃ entry, cache_down w (length (trace w)) = false
                     ∧ redis w !! search_key userId d1 = Some entry)
    as [Hmiss|[Hdown|(entry & Hup & Hhit)]].
  { destruct (redis w !! search_key userId d1),
      (cache_down w (length (trace w))); eauto. }
  3: { rewrite (findAll_on_hit _ d1 _ entry), (findAll_on_hit _ d2 _ entry);
         congruence. }
  all: rewrite (findAll_on_miss _ d1), (findAll_on_miss _ d2)
    by (rewrite <- ?Hkey; auto).
  all: rewrite !findAll_miss_run, <- Hkey, <- Hsearch, <- Hpage, <- Hlimit.
  all: unfold select_ordered, count_of; cbv zeta; by rewrite !Hsel.
Qed.

Lemma normalized_in_range query :
  in_range query →
  param_page (normalized query) = param_page query
  ∧ param_limit (normalized query) = param_limit query
  ∧ same_tags (param_tags query) (param_tags (normalized query)).
Proof.
  intros [Hpage Hlimit]. unfold normalized, clamp; simpl. split_and!.
  - destruct (param_page query) as [[z|]|]; simpl; try done.
    specialize (Hpage z eq_refl). do 2 f_equal. lia.
  - destruct (param_limit query) as [[z|]|]; simpl; try done.
    specialize (Hlimit z eq_refl). do 2 f_equal. lia.
  - destruct (param_tags query) as [[s|ts]|]; simpl; try done.
    intros t. by rewrite elem_of_normalizeTags.
Qed.

Lemma same_tags_set (a b : option QueryValue) :
  same_tags a b → same_tag_set (list_of a) (list_of b).
Proof.
  unfold same_tags, same_tag_set.
  destruct a as [[s1|l1]|], b as [[s2|l2]|]; simpl; intros H; try done.
Qed.

Lemma same_tags_shape (a b : option QueryValue) :
  same_tags a b →
  from_option IsArray_param true a = from_option IsArray_param true b.
Proof.
  unfold same_tags. destruct a as [[s1|l1]|], b as [[s2|l2]|]; by simpl.
Qed.

Lemma controller_findAll_same_tags userId q1 q2 w :
  param_search q1 = param_search q2 →
  param_page q1 = param_page q2 →
  param_limit q1 = param_limit q2 →
  same_tags (param_tags q1) (param_tags q2) →
  NotesController.findAll q1 userId w = NotesController.findAll q2 userId w.
Proof.
  intros Hsearch Hpage Hlimit Htags.
  unfold NotesController.findAll, ValidationPipe.queryNotesDto,
    ValidationPipe.verdict, bind.
  rewrite <- Hsearch, <- Hpage, <- Hlimit, <- (same_tags_shape _ _ Htags).
  destruct (ValidationPipe.failing _); simpl; [|done].
  apply findAll_same_tags; simpl; try congruence. by apply same_tags_set.
Qed.

Lemma controller_findAll_below_range userId query w :
  below_range query →
  ∃ message,
    NotesController.findAll query userId w
    = (Throw (BadRequestException message), w).
Proof.
  intros Hbelow.
  unfold NotesController.findAll, ValidationPipe.queryNotesDto,
    ValidationPipe.verdict, ValidationPipe.failing, bind, throw.
  destruct Hbelow as [(z & Hz & Hlow)|(z & Hz & Hlow)]; rewrite Hz; simpl;
    destruct (Z.leb_spec 1 z); try lia; simpl;
    repeat (destruct (from_option _ _ _); simpl); eauto.
Qed.

(** C3, as the code has it: a page or page size below 1 is rejected by
    validation, not raised to 1.  For a query whose page is at least 1 and
    whose page size lies between 1 and 100 the search uses both as given,
    which there is what the normalization would yield; and two such
    queries whose tag lists name the same set of tags derive the same
    cache key and produce the same result. *)
Theorem search_validates_and_normalizes_tags userId q1 q2 w
    (Hrange : in_range q1)
    (Hsearch : param_search q1 = param_search q2)
    (Hpage : param_page q1 = param_page q2)
    (Hlimit : param_limit q1 = param_limit q2)
    (Htags : same_tags (param_tags q1) (param_tags q2)) :
  search_key userId (ValidationPipe.transformed q1)
  = search_key userId (ValidationPipe.transformed q2)
  ∧ NotesController.findAll q1 userId w = NotesController.findAll q2 userId w
  ∧ param_page (normalized q1) = param_page q1
  ∧ param_limit (normalized q1) = param_limit q1
  ∧ NotesController.findAll q1 userId w
    = NotesController.findAll (normalized q1) userId w
  ∧ (∀ query, below_range query →
       ∃ message,
         NotesController.findAll query userId w
         = (Throw (BadRequestException message), w)).
Proof.
  destruct (normalized_in_range _ Hrange) as (Hp & Hl & Ht).
  split_and!.
  - apply search_key_same_tags; simpl; try congruence.
    by apply same_tags_set.
  - by apply controller_findAll_same_tags.
  - done.
  - done.
  - by apply controller_findAll_same_tags.
  - intros query. apply controller_findAll_below_range.
Qed.

(** C3 as stated fails: page 0 is not served as page 1 but rejected. *)
Lemma page_normalization_counterexample :
  ¬ (∀ userId query w,
       (NotesController.findAll query userId w).1
       = (NotesController.findAll (normalized query) userId w).1).
Proof.
  intros Hclaim.
  specialize (Hclaim "u" (mkNotesQuery None None (Some (integer 0)) None)
                     desk_world).
  vm_compute in Hclaim. discriminate Hclaim.
Qed.

(** A page size above 100 passes validation and is used as given. *)
Lemma page_size_above_100_is_used :
  ∃ r w',
    NotesController.findAll
      (mkNotesQuery None None None (Some (integer 200))) "u" shelf_world
    = (Ok r, w')
    ∧ limit r = 200 ∧ length (notes r) = 25%nat.
Proof. eexists _, _. split; [by vm_compute|]. by vm_compute. Qed.

(** ** Creating a note *)

Lemma IsStringArray_strings (ts : list string) :
  IsStringArray (Some (JArray (JString <$> ts))) = true.
Proof. simpl. by induction ts. Qed.

Lemma strings_of_strings (ts : list string) :
  strings_of (Some (JArray (JString <$> ts))) = Some ts.
Proof.
  simpl. f_equal. induction ts as [|t ts IH]; [done|].
  simpl in *. f_equal. exact IH.
Qed.

Lemma create_body_tags_pass title content tags :
  IsOptional (body_tags (create_body title content tags))
  || IsStringArray (body_tags (create_body title content tags)) = true.
Proof.
  destruct tags as [ts|]; [|done].
  change (body_tags (create_body title content (Some ts)))
    with (Some (JArray (JString <$> ts))).
  by rewrite IsStringArray_strings, orb_true_r.
Qed.

Lemma create_body_tags title content tags :
  strings_of (body_tags (create_body title content tags)) = tags.
Proof. destruct tags as [ts|]; [apply strings_of_strings|done]. Qed.

Lemma existsb_has_id_free (s : Store) :
  id_is_free s → existsb (has_id (idgen s (serial s))) (rows s) = false.
Proof.
  intros Hfree. apply not_true_is_false. intros Htaken.
  apply existsb_exists in Htaken as (n & Hin & Hid).
  apply bool_decide_eq_true in Hid.
  by apply (Hfree n); [apply list_elem_of_In|].
Qed.

Lemma service_create_stores userId dto w :
  answers 1 (prisma w) → id_is_free (prisma w) →
  ∃ n w',
    NotesService.create userId dto w = (Ok n, w')
    ∧ note_title n = create_title dto
    ∧ note_content n = create_content dto
    ∧ note_tags n = default [] (create_tags dto)
    ∧ note_userId n = userId
    ∧ rows (prisma w') = rows (prisma w) ++ [n].
Proof.
  intros Hup%answers_now Hfree%existsb_has_id_free.
  eexists _, _. split.
  { unfold_calls. rewrite Hup; simpl. rewrite Hfree. reflexivity. }
  by simpl.
Qed.

(** C9, as the code has it: a create request is rejected with a
    validation error when its title is empty and also when its content is
    empty, and then nothing is stored; with a title and a content that are
    both non-empty the note is stored as given.  The check is the DTO's:
    the service itself stores whatever content it is handed. *)
Theorem create_requires_title_and_content userId title content tags w :
  (title = EmptyString ∨ content = EmptyString →
     ∃ message,
       NotesController.create (create_body title content tags) userId w
       = (Throw (BadRequestException message), w))
  ∧ (title ≠ EmptyString → content ≠ EmptyString →
     answers 1 (prisma w) → id_is_free (prisma w) →
     ∃ n w',
       NotesController.create (create_body title content tags) userId w
       = (Ok n, w')
       ∧ note_title n = title
       ∧ note_content n = content
       ∧ note_tags n = default [] tags
       ∧ note_userId n = userId
       ∧ rows (prisma w') = rows (prisma w) ++ [n])
  ∧ (answers 1 (prisma w) → id_is_free (prisma w) →
     ∃ n w',
       NotesService.create userId (mkCreateNoteDto title EmptyString tags) w
       = (Ok n, w')
       ∧ note_content n = EmptyString
       ∧ rows (prisma w') = rows (prisma w) ++ [n]).
Proof.
  pose proof (create_body_tags_pass title content tags) as Htags.
  split_and!.
  - intros Hempty.
    unfold NotesController.create, ValidationPipe.createNoteDto,
      ValidationPipe.verdict, ValidationPipe.failing, bind, throw.
    rewrite Htags.
    destruct Hempty as [-> | ->]; simpl.
    + destruct content; simpl; eauto.
    + destruct title; simpl; eauto.
  - intros Htitle Hcontent Hup Hfree.
    destruct (service_create_stores userId
                (mkCreateNoteDto title content tags) w Hup Hfree)
      as (n & w' & Hrun & Hfields).
    exists n, w'. split; [|exact Hfields].
    unfold NotesController.create, ValidationPipe.createNoteDto,
      ValidationPipe.verdict, ValidationPipe.failing, bind, ret.
    rewrite create_body_tags, Htags.
    destruct title; [done|]. destruct content; [done|]. exact Hrun.
  - intros Hup Hfree.
    destruct (service_create_stores userId
                (mkCreateNoteDto title EmptyString tags) w Hup Hfree)
      as (n & w' & Hrun & _ & Hcontent & _ & _ & Hrows).
    by exists n, w'.
Qed.

(** C9 as stated fails: a create request with a title and an empty
    content is not accepted. *)
Lemma empty_content_counterexample :
  ¬ (∀ userId title tags w,
       title ≠ EmptyString → answers 1 (prisma w) → id_is_free (prisma w) →
       ∃ n w',
         NotesController.create (create_body title EmptyString tags) userId w
         = (Ok n, w')
         ∧ note_content n = EmptyString).
Proof.
  intros Hclaim.
  destruct (Hclaim "u" "Shopping" None desk_world)
    as (n & w' & Hrun & _).
  - done.
  - apply sample_answers.
  - intros m Hm. cbn in Hm. rewrite !elem_of_cons, elem_of_nil in Hm.
    destruct Hm as [->|[->|[]]]; by vm_compute.
  - vm_compute in Hrun. discriminate Hrun.
Qed.

(** ** The theorems at work on the sample data *)

Lemma mutation_busts_search_cache_witness :
  is_Some (redis cached_world !! search_key "u" no_filter)
  ∧ mutate "u" (remove_note "a") cached_world
    = (Ok tt, (mutate "u" (remove_note "a") cached_world).2)
  ∧ cache_down cached_world
      (length (trace cached_world ++ write_of (remove_note "a"))) = false
  ∧ redis (mutate "u" (remove_note "a") cached_world).2
      !! search_key "u" no_filter = None
  ∧ (NotesService.findAll "u" no_filter
       (mutate "u" (remove_note "a") cached_world).2).1
    = (NotesService.findAll "u" no_filter
         (without_cache (mutate "u" (remove_note "a") cached_world).2)).1.
Proof.
  split; [by vm_compute; eexists|].
  assert (mutate "u" (remove_note "a") cached_world
          = (Ok tt, (mutate "u" (remove_note "a") cached_world).2)) as Hdone
    by (by vm_compute).
  split; [exact Hdone|]. split; [reflexivity|].
  destruct (mutation_busts_search_cache
              "u" (remove_note "a") cached_world tt _ no_filter Hdone
              eq_refl) as (_ & _ & Hgone & _ & Hsame).
  split; [exact Hgone|exact Hsame].
Defined.

Lemma repeated_search_is_served_from_cache_witness :
  valid_query no_filter
  ∧ cache_answers 5 desk_world
  ∧ ∃ r1 w1,
      NotesService.findAll "u" no_filter desk_world = (Ok r1, w1)
      ∧ note_id <$> notes r1 = ["a"]
      ∧ NotesService.findAll "u" no_filter w1
        = (Ok r1, log (EvCacheGet (search_key "u" no_filter)) w1).
Proof.
  assert (valid_query no_filter) as Hvalid by (by vm_compute).
  assert (cache_answers 5 desk_world) as Hcache by (by intros i _).
  split; [exact Hvalid|]. split; [exact Hcache|].
  destruct (NotesService.findAll "u" no_filter desk_world)
    as [[r1|e] w1] eqn:Hfirst; [|by vm_compute in Hfirst].
  exists r1, w1. split; [reflexivity|]. split.
  - vm_compute in Hfirst. by injection Hfirst as <- <-.
  - exact (proj1 (repeated_search_is_served_from_cache
                    "u" no_filter desk_world r1 w1 Hvalid Hcache Hfirst)).
Defined.

Lemma search_validates_and_normalizes_tags_witness :
  in_range tags_b_a_b
  ∧ same_tags (param_tags tags_b_a_b) (param_tags tags_a_b)
  ∧ search_key "u" (ValidationPipe.transformed tags_b_a_b)
    = search_key "u" (ValidationPipe.transformed tags_a_b)
  ∧ NotesController.findAll tags_b_a_b "u" desk_world
    = NotesController.findAll tags_a_b "u" desk_world.
Proof.
  assert (in_range tags_b_a_b) as Hrange.
  { split; intros z [= <-]; lia. }
  assert (same_tags (param_tags tags_b_a_b) (param_tags tags_a_b)) as Htags.
  { intros t. rewrite !elem_of_cons, elem_of_nil. tauto. }
  split_and!; [exact Hrange|exact Htags|..];
    apply (search_validates_and_normalizes_tags
             "u" tags_b_a_b tags_a_b desk_world Hrange eq_refl eq_refl
             eq_refl Htags).
Defined.


Lemma search_orders_by_updatedAt_witness :
  redis shelf_world !! search_key "u" no_filter = None
  ∧ answers 2 (prisma shelf_world)
  ∧ valid_query no_filter
  ∧ ∃ r w',
      NotesService.findAll "u" no_filter shelf_world = (Ok r, w')
      ∧ note_id <$> notes r
        = ["24"; "23"; "22"; "21"; "20"; "19"; "18"; "17"; "16"; "15"]
      ∧ StronglySorted updatedAt_desc (notes r).
Proof.
  assert (valid_query no_filter) as Hvalid by (by vm_compute).
  split_and!; [reflexivity|apply sample_answers|exact Hvalid|].
  destruct (search_orders_by_updatedAt
              "u" no_filter shelf_world eq_refl (sample_answers _ 2) Hvalid)
    as (r & w' & Hrun & Hsorted & _).
  exists r, w'. split; [exact Hrun|]. split; [|exact Hsorted].
  vm_compute in Hrun. by injection Hrun as <- <-.
Defined.

Lemma pagination_of_a_miss_witness :
  redis shelf_world !! search_key "u" third_page = None
  ∧ answers 2 (prisma shelf_world)
  ∧ valid_query third_page
  ∧ ∃ r w',
      NotesService.findAll "u" third_page shelf_world = (Ok r, w')
      ∧ total r = 25 ∧ totalPages r = 3 ∧ length (notes r) = 5%nat
      ∧ note_id <$> notes r = ["4"; "3"; "2"; "1"; "0"].
Proof.
  assert (valid_query third_page) as Hvalid by (by vm_compute).
  split_and!; [reflexivity|apply sample_answers|exact Hvalid|].
  destruct (pagination_of_a_miss
              "u" third_page shelf_world (or_introl eq_refl)
              (sample_answers _ 2) Hvalid)
    as (r & w' & decided & matching & ordered & Hrun & _ & _ & _ & _ & _
        & _ & _ & _ & _ & _ & _ & Hexample).
  assert (total r = 25 ∧ note_id <$> notes r = ["4"; "3"; "2"; "1"; "0"])
    as [H25 Hids].
  { pose proof Hrun as Hrun'. vm_compute in Hrun'.
    by injection Hrun' as <- <-. }
  destruct (Hexample H25 eq_refl) as (Hpages & _ & Hthird & _).
  exists r, w'. split_and!; [exact Hrun|exact H25|exact Hpages| |exact Hids].
  by apply Hthird.
Defined.

Lemma findOne_not_found_or_forbidden_witness :
  outage (prisma desk_world) (calls (prisma desk_world)) = false
  ∧ (NotesService.findOne "zz" "u" desk_world).1
    = Throw (NotFoundException "Note not found")
  ∧ (NotesService.findOne "c" "u" desk_world).1
    = Throw (ForbiddenException "Access denied")
  ∧ (NotesService.remove "c" "u" desk_world).1
    = Throw (ForbiddenException "Access denied")
  ∧ (NotesService.findOne "a" "u" desk_world).1
    = Ok (sample_note "a" "u" ["work"] 5).
Proof.
  split; [reflexivity|]. split_and!.
  - apply (findOne_not_found_or_forbidden "zz" "u" retitle desk_world eq_refl).
    intros n Hn. cbn in Hn. rewrite !elem_of_cons, elem_of_nil in Hn.
    by destruct Hn as [->|[->|[]]].
  - by eapply (findOne_not_found_or_forbidden "c" "u" retitle desk_world
                                               eq_refl).
  - by eapply (findOne_not_found_or_forbidden "c" "u" retitle desk_world
                                               eq_refl).
  - by eapply (findOne_not_found_or_forbidden "a" "u" retitle desk_world
                                               eq_refl).
Defined.

Lemma create_requires_title_and_content_witness :
  (∃ message,
     NotesController.create (create_body "Shopping" EmptyString None) "u"
                            desk_world
     = (Throw (BadRequestException message), desk_world))
  ∧ answers 1 (prisma desk_world)
  ∧ id_is_free (prisma desk_world)
  ∧ ∃ n w',
      NotesController.create (create_body "Shopping" "milk" None) "u"
                             desk_world
      = (Ok n, w')
      ∧ note_content n = "milk".
Proof.
  assert (id_is_free (prisma desk_world)) as Hfree.
  { intros m Hm. cbn in Hm. rewrite !elem_of_cons, elem_of_nil in Hm.
    destruct Hm as [->|[->|[]]]; by vm_compute. }
  split_and!; [|apply sample_answers|exact Hfree|].
  - apply (create_requires_title_and_content
             "u" "Shopping" EmptyString None desk_world). by right.
  - destruct (proj1 (proj2 (create_requires_title_and_content
                              "u" "Shopping" "milk" None desk_world))
                ltac:(done) ltac:(done) (sample_answers _ 1) Hfree)
      as (n & w' & Hrun & _ & Hcontent & _).
    by exists n, w'.
Defined.

Lemma update_changes_only_given_fields_witness :
  answers 2 (prisma desk_world)
  ∧ List.find (has_id "a") (rows (prisma desk_world))
    = Some (sample_note "a" "u" ["work"] 5)
  ∧ ∃ n' w',
      NotesService.update "a" "u" retitle desk_world = (Ok n', w')
      ∧ note_title n' = "Renamed"
      ∧ note_content n' = "Some content"
      ∧ note_tags n' = ["work"]
      ∧ note_id n' = "a"
      ∧ note_userId n' = "u".
Proof.
  split; [apply sample_answers|]. split; [reflexivity|].
  destruct (update_changes_only_given_fields
              "a" "u" retitle desk_world (sample_note "a" "u" ["work"] 5)
              (sample_answers _ 2) eq_refl eq_refl)
    as (n' & w' & Hrun & Hid & Howner & _ & _ & Hcontent & Htags & Htitle & _).
  exists n', w'. split_and!; [exact Hrun|..].
  - by apply Htitle.
  - by apply Hcontent.
  - by apply Htags.
  - exact Hid.
  - exact Howner.
Defined.


(** * Further properties of the code *)

(** ** The tags of a user *)

Lemma Set_spread_from (values seen : list string) :
  NoDup seen →
  NoDup (fold_left (λ seen v, if decide (v ∈ seen) then seen else seen ++ [v])
                   values seen)
  ∧ ∀ t, t ∈ fold_left (λ seen v, if decide (v ∈ seen) then seen
                                   else seen ++ [v]) values seen
         ↔ t ∈ seen ∨ t ∈ values.
Proof.
  revert seen. induction values as [|v values IH]; intros seen Hseen; simpl.
  - split; [done|]. intros t. rewrite elem_of_nil. tauto.
  - case_decide as Hv.
    + destruct (IH seen Hseen) as [Hnd Hin]. split; [done|].
      intros t. rewrite Hin, elem_of_cons.
      split; [tauto|]. intros [?|[->|?]]; auto.
    + assert (NoDup (seen ++ [v])) as Hseen'.
      { apply NoDup_app. split_and!; [done| |apply NoDup_singleton].
        intros t Ht ->%list_elem_of_singleton. done. }
      destruct (IH _ Hseen') as [Hnd Hin]. split; [done|].
      intros t. rewrite Hin, elem_of_app, !elem_of_cons, elem_of_nil.
      tauto.
Qed.

Lemma Set_spread_NoDup values : NoDup (Set_spread values).
Proof. apply Set_spread_from, NoDup_nil_2. Qed.

Lemma elem_of_Set_spread values t : t ∈ Set_spread values ↔ t ∈ values.
Proof.
  unfold Set_spread.
  rewrite (proj2 (Set_spread_from values [] (NoDup_nil_2)) t), elem_of_nil.
  tauto.
Qed.

Lemma elem_of_user_tags userId (s : Store) (found : list Note) t :
  found ≡ₚ selected (mkWhere userId None None) s →
  t ∈ List.concat (List.map note_tags found) ↔ tag_of_user userId s t.
Proof.
  intros Hfound.
  assert (∀ n, n ∈ found ↔ n ∈ rows s ∧ note_userId n = userId) as Hin.
  { intros n. rewrite Hfound. unfold selected.
    rewrite !list_elem_of_In, filter_In. unfold where_matches; simpl.
    by rewrite !andb_true_r, bool_decide_eq_true. }
  unfold tag_of_user. rewrite list_elem_of_In, in_concat. split.
  - intros (ts & Hts & Ht). apply in_map_iff in Hts as (n & <- & Hn).
    apply list_elem_of_In, Hin in Hn as [Hn Hown]. exists n.
    apply list_elem_of_In in Ht. done.
  - intros (n & Hn & Hown & Ht). exists (note_tags n).
    split; [|by apply list_elem_of_In].
    apply in_map, list_elem_of_In, Hin. done.
Qed.

Lemma getAllTags_run userId w :
  outage (prisma w) (calls (prisma w)) = false →
  ∃ found,
    found ≡ₚ selected (mkWhere userId None None) (prisma w)
    ∧ NotesService.getAllTags userId w
      = (Ok (Array_sort (Set_spread (List.concat
                                       (List.map note_tags found)))),
         set_prisma (answered (prisma w)) (log (EvStore OpFindMany) w)).
Proof.
  intros Hup. eexists. split; [|].
  2: { unfold NotesService.getAllTags, PrismaNote.findManyTags.
       unfold_calls. rewrite Hup. reflexivity. }
  by rewrite scan_order_Permutation.
Qed.

(** X1: the tags of a user come back each once, in ascending order of
    their code units, and they are the tags found on that user's notes
    and no others; the cache is neither read nor written and no row
    changes. *)
Theorem getAllTags_sorted_distinct_own userId w
    (Hup : outage (prisma w) (calls (prisma w)) = false) :
  ∃ tags w',
    NotesService.getAllTags userId w = (Ok tags, w')
    ∧ StronglySorted code_unit_le tags
    ∧ NoDup tags
    ∧ (∀ t, t ∈ tags ↔ tag_of_user userId (prisma w) t)
    ∧ redis w' = redis w
    ∧ rows (prisma w') = rows (prisma w)
    ∧ trace w' = trace w ++ [EvStore OpFindMany].
Proof.
  destruct (getAllTags_run userId w Hup) as (found & Hfound & Hrun).
  eexists _, _. split; [exact Hrun|]. unfold Array_sort.
  split_and!; try done.
  - apply StronglySorted_merge_sort; apply _.
  - rewrite merge_sort_Permutation. apply Set_spread_NoDup.
  - intros t.
    by rewrite merge_sort_Permutation, elem_of_Set_spread,
      (elem_of_user_tags _ _ _ _ Hfound).
Qed.

(** ** Creating, reading back, removing *)

Lemma answers_shift k (s s' : Store) :
  answers (S k) s → outage s' = outage s → calls s' = S (calls s) →
  answers k s'.
Proof.
  intros H Ho Hc i Hi. rewrite Ho, Hc. specialize (H (S i)).
  rewrite Nat.add_succ_r in H. apply H. lia.
Qed.

(** What a successful [create] leaves behind. *)
Lemma create_run userId dto w :
  answers 1 (prisma w) → id_is_free (prisma w) →
  ∃ n w1,
    NotesService.create userId dto w = (Ok n, w1)
    ∧ n = mkNote (idgen (prisma w) (serial (prisma w)))
                 (create_title dto) (create_content dto)
                 (default [] (create_tags dto)) userId
                 (now (prisma w)) (now (prisma w))
    ∧ rows (prisma w1) = rows (prisma w) ++ [n]
    ∧ outage (prisma w1) = outage (prisma w)
    ∧ calls (prisma w1) = S (calls (prisma w))
    ∧ redis w1
      = if cache_down w (length (trace w) + 1)
        then redis w
        else filter (λ kv, ¬ CacheService.under
                              (CacheService.userNotesPrefix userId) kv)
                    (redis w).
Proof.
  intros Hup%answers_now Hfree%existsb_has_id_free.
  eexists _, _. split.
  { unfold_calls. rewrite Hup; simpl. rewrite Hfree. reflexivity. }
  simpl. split_and!; try done.
  rewrite length_app. simpl. by destruct (cache_down _ _).
Qed.

Lemma find_has_id_app_new (l : list Note) n :
  existsb (has_id (note_id n)) l = false →
  List.find (has_id (note_id n)) (l ++ [n]) = Some n.
Proof.
  induction l as [|m l IH]; simpl.
  - intros _. unfold has_id. by rewrite bool_decide_eq_true_2.
  - intros [Hm Hl]%orb_false_elim. rewrite Hm. by apply IH.
Qed.

Lemma findOne_run id userId w :
  outage (prisma w) (calls (prisma w)) = false →
  NotesService.findOne id userId w
  = (match List.find (has_id id) (rows (prisma w)) with
     | None => Throw (NotFoundException "Note not found")
     | Some n => if bool_decide (note_userId n ≠ userId)
                 then Throw (ForbiddenException "Access denied")
                 else Ok n
     end,
     set_prisma (answered (prisma w)) (log (EvStore OpFindUnique) w)).
Proof.
  intros Hup. unfold_calls. rewrite Hup; simpl.
  destruct (List.find _ _); simpl; [|done]. by destruct (bool_decide _).
Qed.

(** X2: a note that has just been created can be read back under the id
    it was given: its owner gets the very note that [create] returned, and
    every other user is refused with forbidden. *)
Theorem created_note_is_read_back userId dto w
    (Hup : answers 2 (prisma w))
    (Hfree : id_is_free (prisma w)) :
  ∃ n w1,
    NotesService.create userId dto w = (Ok n, w1)
    ∧ (NotesService.findOne (note_id n) userId w1).1 = Ok n
    ∧ ∀ other, other ≠ userId →
        (NotesService.findOne (note_id n) other w1).1
        = Throw (ForbiddenException "Access denied").
Proof.
  assert (answers 1 (prisma w)) as Hup1 by (intros i Hi; apply Hup; lia).
  destruct (create_run userId dto w Hup1 Hfree)
    as (n & w1 & Hrun & Hn & Hrows & Hout & Hcalls & _).
  pose proof (answers_now _ _ (answers_shift _ _ _ Hup Hout Hcalls)) as Hup2.
  assert (List.find (has_id (note_id n)) (rows (prisma w1)) = Some n) as Hfind.
  { rewrite Hrows. apply find_has_id_app_new. rewrite Hn; simpl.
    by apply existsb_has_id_free. }
  assert (note_userId n = userId) as Hown by (by rewrite Hn).
  exists n, w1. split; [done|]. split.
  - rewrite findOne_run, Hfind by done; simpl.
    by rewrite bool_decide_eq_false_2 by (by intros []).
  - intros other Hother. rewrite findOne_run, Hfind by done; simpl.
    by rewrite bool_decide_eq_true_2 by congruence.
Qed.

(** X3: the tags of a note are listed as soon as the note is created:
    [getAllTags] right after a successful [create] returns the tags the
    user had before together with the tags of the new note. *)
Theorem created_tags_are_listed userId dto w
    (Hup : answers 2 (prisma w))
    (Hfree : id_is_free (prisma w)) :
  ∃ n w1 tags w2,
    NotesService.create userId dto w = (Ok n, w1)
    ∧ NotesService.getAllTags userId w1 = (Ok tags, w2)
    ∧ ∀ t, t ∈ tags
           ↔ t ∈ default [] (create_tags dto) ∨ tag_of_user userId (prisma w) t.
Proof.
  assert (answers 1 (prisma w)) as Hup1 by (intros i Hi; apply Hup; lia).
  destruct (create_run userId dto w Hup1 Hfree)
    as (n & w1 & Hrun & Hn & Hrows & Hout & Hcalls & _).
  pose proof (answers_now _ _ (answers_shift _ _ _ Hup Hout Hcalls)) as Hup2.
  destruct (getAllTags_run userId w1 Hup2) as (found & Hfound & Htags).
  eexists n, w1, _, _. split; [done|]. split; [exact Htags|].
  intros t. unfold Array_sort.
  rewrite merge_sort_Permutation, elem_of_Set_spread,
    (elem_of_user_tags _ _ _ _ Hfound).
  unfold tag_of_user. rewrite Hrows. split.
  - intros (m & [Hm| ->%list_elem_of_singleton]%elem_of_app & Hown & Ht).
    + right. eauto.
    + left. by rewrite Hn in Ht.
  - intros [Ht|(m & Hm & Hown & Ht)].
    + exists n. rewrite elem_of_app, list_elem_of_singleton.
      split_and!; [by right| |]; by rewrite Hn.
    + exists m. rewrite elem_of_app. auto.
Qed.

Lemma remove_run id userId w n :
  answers 2 (prisma w) →
  List.find (has_id id) (rows (prisma w)) = Some n →
  note_userId n = userId →
  ∃ w1,
    NotesService.remove id userId w = (Ok tt, w1)
    ∧ rows (prisma w1)
      = List.filter (λ m, negb (has_id id m)) (rows (prisma w))
    ∧ outage (prisma w1) = outage (prisma w)
    ∧ calls (prisma w1) = S (S (calls (prisma w))).
Proof.
  intros Hup Hrow Hown.
  pose proof (answers_now _ _ Hup) as Hup1.
  pose proof (answers_now _ _ (answers_next _ _ Hup (rows (prisma w)))) as Hup2.
  simpl in Hup2. eexists. split.
  { unfold_calls. rewrite Hup1; simpl. rewrite Hrow; simpl.
    rewrite bool_decide_eq_false_2 by (by intros []); simpl.
    rewrite Hup2; simpl. rewrite Hrow. reflexivity. }
  by simpl.
Qed.

Lemma find_has_id_removed id (l : list Note) :
  List.find (has_id id) (List.filter (λ m, negb (has_id id m)) l) = None.
Proof.
  apply find_has_id_None. intros m Hm Hid.
  apply list_elem_of_In, filter_In in Hm as [_ Hm].
  unfold has_id in Hm. by rewrite bool_decide_eq_true_2 in Hm.
Qed.

(** X4: a removed note is gone for everyone: after a successful [remove]
    no row carries the id, the other rows are all still there, and
    [findOne], [update] and a second [remove] with that id are refused
    with not-found, whoever asks. *)
Theorem removed_note_is_gone id userId w n
    (Hup : answers 3 (prisma w))
    (Hrow : List.find (has_id id) (rows (prisma w)) = Some n)
    (Hown : note_userId n = userId) :
  ∃ w1,
    NotesService.remove id userId w = (Ok tt, w1)
    ∧ (∀ m, m ∈ rows (prisma w1) ↔ m ∈ rows (prisma w) ∧ note_id m ≠ id)
    ∧ ∀ anyone dto,
        refused (NotFoundException "Note not found")
                (NotesService.findOne id anyone) w1
        ∧ refused (NotFoundException "Note not found")
                  (NotesService.update id anyone dto) w1
        ∧ refused (NotFoundException "Note not found")
                  (NotesService.remove id anyone) w1.
Proof.
  assert (answers 2 (prisma w)) as Hup2 by (intros i Hi; apply Hup; lia).
  destruct (remove_run id userId w n Hup2 Hrow Hown)
    as (w1 & Hrun & Hrows & Hout & Hcalls).
  assert (outage (prisma w1) (calls (prisma w1)) = false) as Hup3.
  { rewrite Hout, Hcalls. specialize (Hup 2%nat).
    rewrite Nat.add_succ_r, Nat.add_1_r in Hup. apply Hup. lia. }
  assert (List.find (has_id id) (rows (prisma w1)) = None) as Hgone
    by (rewrite Hrows; apply find_has_id_removed).
  exists w1. split; [done|]. split.
  - intros m. rewrite Hrows, !list_elem_of_In, filter_In.
    unfold has_id. rewrite negb_true_iff, bool_decide_eq_false. done.
  - intros anyone dto. unfold refused. unfold_calls.
    rewrite Hup3; simpl. by rewrite Hgone.
Qed.

(** ** Users do not touch each other's notes *)

Lemma has_id_unique (l : list Note) id n m :
  NoDup (note_id <$> l) → List.find (has_id id) l = Some n →
  m ∈ l → has_id id m = true → m = n.
Proof.
  induction l as [|k l IH]; [done|]. rewrite fmap_cons, NoDup_cons.
  intros [Hk Hl] Hfind Hm Hid. simpl in Hfind.
  apply bool_decide_eq_true in Hid.
  destruct (has_id id k) eqn:Hkid.
  - injection Hfind as <-. apply bool_decide_eq_true in Hkid.
    apply elem_of_cons in Hm as [->|Hm]; [done|].
    destruct Hk. rewrite Hkid, <- Hid. by apply list_elem_of_fmap_2.
  - apply elem_of_cons in Hm as [->|Hm];
      [|by apply IH; [| | |apply bool_decide_eq_true]].
    unfold has_id in Hkid. by rewrite bool_decide_eq_true_2 in Hkid.
Qed.

Lemma filter_map_untouched {A} (keep : A → bool) (f : A → A) (l : list A) :
  (∀ m, m ∈ l → f m = m ∨ (keep m = false ∧ keep (f m) = false)) →
  List.filter keep (List.map f l) = List.filter keep l.
Proof.
  induction l as [|m l IH]; intros H; [done|]. simpl.
  rewrite IH by (intros k Hk; apply H; by right).
  destruct (H m (list_elem_of_here _ _)) as [-> | [-> ->]]; done.
Qed.

Lemma filter_filter_untouched {A} (keep drop : A → bool) (l : list A) :
  (∀ m, m ∈ l → drop m = true → keep m = false) →
  List.filter keep (List.filter (λ m, negb (drop m)) l) = List.filter keep l.
Proof.
  induction l as [|m l IH]; intros H; [done|]. simpl.
  rewrite <- IH by (intros k Hk; apply H; by right).
  destruct (drop m) eqn:Hdrop; simpl; [|done].
  by rewrite (H m (list_elem_of_here _ _) Hdrop).
Qed.

(** Filtering keeps the keys of a list free of duplicates. *)
Lemma NoDup_fmap_filter {A B} (f : A → B) (keep : A → bool) (l : list A) :
  NoDup (f <$> l) → NoDup (f <$> List.filter keep l).
Proof.
  induction l as [|k l IH]; [done|]. rewrite fmap_cons, NoDup_cons.
  intros [Hk Hl]. simpl. destruct (keep k); [|by apply IH].
  rewrite fmap_cons, NoDup_cons. split; [|by apply IH].
  intros (m & Hm & Hin)%list_elem_of_fmap. apply Hk.
  apply list_elem_of_fmap. exists m. split; [done|].
  apply list_elem_of_In, filter_In in Hin as [Hin _]. by apply list_elem_of_In.
Qed.

Lemma mutate_keeps_ids_unique actor m w :
  NoDup (note_id <$> rows (prisma w)) →
  NoDup (note_id <$> rows (prisma (mutate actor m w).2)).
Proof.
  intros Hids.
  destruct m as [dto|id dto|id]; unfold_calls; simpl; split_run; try done.
  - rewrite fmap_app. apply NoDup_app. split_and!; [done| |apply NoDup_singleton].
    intros i Hi ->%list_elem_of_singleton.
    apply list_elem_of_fmap in Hi as (k & Hk & Hin). simpl in Hk.
    match goal with
    | H : existsb _ _ = false |- _ =>
      apply not_true_iff_false in H; apply H, existsb_exists
    end.
    exists k. split; [by apply list_elem_of_In|].
    by apply bool_decide_eq_true.
  - match goal with
    | Hf : List.find (has_id id) _ = Some ?n0 |- _ =>
      destruct (find_has_id_Some _ _ _ Hf) as [_ Hn0]
    end.
    change (List.map ?f ?l) with (f <$> l). rewrite <- list_fmap_compose.
    erewrite list_fmap_ext; [exact Hids|].
    intros i k _. simpl. destruct (has_id id k) eqn:Hk; simpl; [|done].
    apply bool_decide_eq_true in Hk. congruence.
  - by apply NoDup_fmap_filter.
Qed.

(** X5: users do not touch each other's notes.  On a table whose ids
    are unique, whatever one user creates, updates or removes, and
    whether or not it succeeds, the notes of every other user stay as they
    were, row by row and in the same order; the ids stay unique. *)
Theorem mutation_leaves_other_users_notes actor m owner w
    (Hids : NoDup (note_id <$> rows (prisma w)))
    (Hother : owner ≠ actor) :
  notes_of_user owner (prisma (mutate actor m w).2)
  = notes_of_user owner (prisma w)
  ∧ NoDup (note_id <$> rows (prisma (mutate actor m w).2)).
Proof.
  split; [|by apply mutate_keeps_ids_unique].
  unfold notes_of_user.
  destruct m as [dto|id dto|id]; unfold_calls; simpl; split_run;
    try reflexivity.
  - rewrite List.filter_app; simpl.
    rewrite bool_decide_eq_false_2 by done. by rewrite app_nil_r.
  - match goal with
    | H : bool_decide _ = false |- _ =>
      apply bool_decide_eq_false in H; apply dec_stable in H
    end.
    apply filter_map_untouched. intros k Hk.
    destruct (has_id id k) eqn:Hkid; [right|by left].
    match goal with
    | Hf : List.find (has_id id) _ = Some ?n0 |- _ =>
      rewrite (has_id_unique _ _ _ _ Hids Hf Hk Hkid); simpl
    end.
    by rewrite !bool_decide_eq_false_2 by congruence.
  - match goal with
    | H : bool_decide _ = false |- _ =>
      apply bool_decide_eq_false in H; apply dec_stable in H
    end.
    apply filter_filter_untouched. intros k Hk Hkid.
    match goal with
    | Hf : List.find (has_id id) _ = Some ?n0 |- _ =>
      rewrite (has_id_unique _ _ _ _ Hids Hf Hk Hkid)
    end.
    by rewrite bool_decide_eq_false_2 by congruence.
Qed.

(** ** A search is a read *)

(** X6: a search never changes a row of the note table.  When it fails,
    what it throws is the store's error and the cache is left as it was:
    nothing is cached for a query the store did not answer.  When it
    succeeds, the cache is as before or holds the returned page, for 300
    seconds, under the key of the query. *)
Theorem search_reads_only userId queryDto w :
  rows (prisma (NotesService.findAll userId queryDto w).2) = rows (prisma w)
  ∧ match (NotesService.findAll userId queryDto w).1 with
    | Throw e =>
      e = PrismaClientError
      ∧ redis (NotesService.findAll userId queryDto w).2 = redis w
    | Ok r =>
      redis (NotesService.findAll userId queryDto w).2 = redis w
      ∨ redis (NotesService.findAll userId queryDto w).2
        = <[search_key userId queryDto := mkEntry r 300]> (redis w)
    end.
Proof.
  destruct (redis w !! search_key userId queryDto) as [hit|] eqn:Hlook;
    [destruct (cache_down w (length (trace w))) eqn:Hdown|].
  2: { rewrite (findAll_on_hit _ _ _ _ Hdown Hlook). simpl. auto. }
  all: rewrite findAll_on_miss, findAll_miss_run by auto; simpl.
  all: destruct (_ || _); simpl; [done|]; split_window; simpl; [|done].
  all: split; [done|]; destruct (cache_down w (_ + 2)); auto.
Qed.

(** ** The pages of a search *)

Lemma concat_windows {A} (size k : nat) (l : list A) :
  (0 < size)%nat → (length l ≤ k * size)%nat →
  List.concat (List.map (λ i, take size (drop (i * size) l)) (seq 0 k)) = l.
Proof.
  intros Hsize. revert l. induction k as [|k IH]; intros l Hlen.
  - simpl in *. by destruct l; [|simpl in Hlen; lia].
  - rewrite <- cons_seq, <- fmap_S_seq. simpl. rewrite drop_0.
    change (List.map ?f (S <$> ?l)) with (f <$> (S <$> l)).
    rewrite <- list_fmap_compose.
    rewrite <- (take_drop size l) at 2. f_equal.
    rewrite <- (IH (drop size l)) by (rewrite length_drop; lia).
    f_equal. apply list_fmap_ext. intros _ i _. simpl.
    by rewrite drop_drop.
Qed.

Lemma findAll_page userId queryDto p w :
  redis w !! search_key userId (with_page queryDto p) = None
  ∨ cache_down w (length (trace w)) = true →
  answers 2 (prisma w) →
  1 ≤ p → 1 ≤ default 10 (query_limit queryDto) →
  ∃ w1,
    NotesService.findAll userId (with_page queryDto p) w
    = (Ok (assembled
             (take (Z.to_nat (default 10 (query_limit queryDto)))
                (drop (Z.to_nat ((p - 1) * default 10 (query_limit queryDto)))
                   (select_ordered
                      (NotesService.build_where userId
                         (query_search queryDto) (query_tags queryDto))
                      (answered (prisma w)))))
             (count_of (NotesService.build_where userId
                          (query_search queryDto) (query_tags queryDto))
                       (prisma w))
             p (default 10 (query_limit queryDto))),
       w1)
    ∧ prisma w1 = answered (answered (prisma w))
    ∧ ∀ key entry,
        redis w1 !! key = Some entry →
        redis w !! key = Some entry
        ∨ key = search_key userId (with_page queryDto p)
          ∧ notes (entry_value entry)
            = take (Z.to_nat (default 10 (query_limit queryDto)))
                (drop (Z.to_nat ((p - 1) * default 10 (query_limit queryDto)))
                   (select_ordered
                      (NotesService.build_where userId
                         (query_search queryDto) (query_tags queryDto))
                      (answered (prisma w)))).
Proof.
  intros Hmiss Hup Hp Hlimit.
  rewrite findAll_on_miss, findAll_miss_run by done. simpl.
  rewrite (answers_two _ Hup), window_valid by nia.
  eexists. split; [reflexivity|]. simpl. split; [done|].
  intros key entry. rewrite length_app. simpl.
  destruct (cache_down w (_ + 2)); [by left|].
  destruct (decide (search_key userId (with_page queryDto p) = key))
    as [<-|Hne].
  - rewrite lookup_insert_eq. intros [= <-]. by right.
  - rewrite lookup_insert_ne by done. by left.
Qed.

Lemma append_length (s t : string) :
  String.length (s +:+ t) = (String.length s + String.length t)%nat.
Proof. induction s as [|c s IH]; simpl; [done|]. by rewrite IH. Qed.

Lemma append_cancel_r (s1 s2 t : string) : s1 +:+ t = s2 +:+ t → s1 = s2.
Proof.
  revert s2. induction s1 as [|c s1 IH]; intros [|d s2] Heq; simpl in *.
  - done.
  - apply (f_equal String.length) in Heq. simpl in Heq.
    rewrite !append_length in Heq. simpl in Heq. lia.
  - apply (f_equal String.length) in Heq. simpl in Heq.
    rewrite !append_length in Heq. simpl in Heq. lia.
  - injection Heq as -> Heq. f_equal. by apply IH.
Qed.

(** The keys of two pages of a search differ. *)
Lemma search_key_page userId queryDto p q :
  search_key userId (with_page queryDto p)
  = search_key userId (with_page queryDto q) →
  p = q.
Proof.
  unfold search_key, CacheService.generateNotesSearchKey. simpl.
  intros Heq. do 5 apply String.app_inj in Heq.
  apply append_cancel_r in Heq. by apply pretty_Z_inj in Heq.
Qed.

Lemma NoDup_fmap_same {A B} (f : A → B) (l : list A) x y :
  NoDup (f <$> l) → x ∈ l → y ∈ l → f x = f y → x = y.
Proof.
  induction l as [|z l IH]; simpl; [by intros _ ?%elem_of_nil|].
  rewrite NoDup_cons, !elem_of_cons.
  intros [Hz Hl] [->|Hx] [->|Hy] Hxy; [done| | |by apply IH].
  - destruct Hz. rewrite Hxy. by apply list_elem_of_fmap_2.
  - destruct Hz. rewrite <- Hxy. by apply list_elem_of_fmap_2.
Qed.

(** Among rows of pairwise distinct [updatedAt] the sort key settles the
    order: whatever order the table comes by the rows, the result is the
    same. *)
Lemma select_ordered_settled wh s s' :
  NoDup (note_updatedAt <$> selected wh s) →
  selected wh s' = selected wh s →
  select_ordered wh s' = order_by_updatedAt_desc (selected wh s).
Proof.
  intros Hdistinct Hsame.
  apply (StronglySorted_unique_strong updatedAt_desc).
  - intros a b Ha Hb Hab Hba.
    rewrite select_ordered_Permutation, Hsame in Ha.
    rewrite order_Permutation in Hb.
    apply (NoDup_fmap_same note_updatedAt _ _ _ Hdistinct Ha Hb).
    unfold updatedAt_desc in *. lia.
  - apply select_ordered_sorted.
  - apply order_sorted.
  - by rewrite select_ordered_Permutation, order_Permutation, Hsame.
Qed.

Lemma answers_always_answered s :
  (∀ k, answers k s) → ∀ k, answers k (answered s).
Proof.
  intros Hup k i Hi. simpl. specialize (Hup (S (S k)) (S i)).
  rewrite Nat.add_succ_r in Hup. apply Hup. lia.
Qed.

Lemma read_pages_windows userId queryDto w (win : Z → list Note) ps w0 :
  let size := default 10 (query_limit queryDto) in
  let wh := NotesService.build_where userId (query_search queryDto)
                                     (query_tags queryDto) in
  1 ≤ size →
  NoDup (note_updatedAt <$> selected wh (prisma w)) →
  (∀ p, win p = take (Z.to_nat size)
                  (drop (Z.to_nat ((p - 1) * size))
                        (order_by_updatedAt_desc (selected wh (prisma w))))) →
  Forall (λ p, 1 ≤ p) ps →
  selected wh (prisma w0) = selected wh (prisma w) →
  (∀ k, answers k (prisma w0)) →
  (∀ p entry, redis w0 !! search_key userId (with_page queryDto p)
              = Some entry →
              notes (entry_value entry) = win p) →
  (read_pages userId queryDto ps w0).1 = win <$> ps.
Proof.
  intros size wh Hsize Hdistinct Hwin Hps. revert w0.
  induction Hps as [|p ps Hp Hps IH]; intros w0 Hrows Hup Hfresh; [done|].
  simpl.
  assert (∃ w1,
    NotesService.findAll userId (with_page queryDto p) w0
    = ((NotesService.findAll userId (with_page queryDto p) w0).1, w1)
    ∧ page_of (NotesService.findAll userId (with_page queryDto p) w0).1
      = win p
    ∧ selected wh (prisma w1) = selected wh (prisma w)
    ∧ (∀ k, answers k (prisma w1))
    ∧ (∀ q entry, redis w1 !! search_key userId (with_page queryDto q)
                  = Some entry →
                  notes (entry_value entry) = win q))
    as (w1 & Hrun & Hpage & Hrows1 & Hup1 & Hfresh1).
  { assert (redis w0 !! search_key userId (with_page queryDto p) = None
            ∨ cache_down w0 (length (trace w0)) = true
            ∨ ∃ entry, cache_down w0 (length (trace w0)) = false
                       ∧ redis w0 !! search_key userId (with_page queryDto p)
                         = Some entry)
      as [Hmiss|[Hdown|(entry & Hcache & Hhit)]].
    { destruct (redis w0 !! search_key userId (with_page queryDto p)),
        (cache_down w0 (length (trace w0))); eauto. }
    3: { rewrite (findAll_on_hit _ _ _ _ Hcache Hhit). simpl.
         eexists. split; [reflexivity|]. simpl.
         split_and!; [by apply Hfresh|done..]. }
    all: destruct (findAll_page userId queryDto p w0) as (w1 & -> & Hs & Hc);
      [auto|apply Hup|done..|].
    all: exists w1; simpl; split; [done|].
    all: fold wh size in Hc |- *.
    all: rewrite (select_ordered_settled wh (prisma w)) in Hc |- * by done.
    all: split_and!;
      [by rewrite Hwin
      |by rewrite Hs
      |rewrite Hs; by do 2 apply answers_always_answered|].
    all: intros q entry Hentry;
      destruct (Hc _ _ Hentry) as [Hold|[Hkey Hnotes]];
      [by apply Hfresh|].
    all: apply search_key_page in Hkey as ->; by rewrite Hwin. }
  rewrite Hrun. destruct (read_pages userId queryDto ps w1) as [rest w2] eqn:Hrest.
  simpl. rewrite Hpage. f_equal.
  change rest with (rest, w2).1. rewrite <- Hrest. by apply IH.
Qed.

(** X7: the pages of a search cut the ordered list of matching notes into
    consecutive pieces.  Let the matching notes have pairwise distinct
    [updatedAt], so that the sort key settles their order, let no page of
    the search be cached to begin with, and let the table answer.  Then
    pages 1 to [totalPages], asked for one after the other, each request
    finding the table and the cache as the one before left them, give
    every matching note exactly once, most recently modified first,
    whether the cache answers or not.  No page holds more than the page
    size, and every page after the last is empty. *)
Theorem pages_cover_the_matches userId queryDto w
    (Hmiss : ∀ p, redis w !! search_key userId (with_page queryDto p) = None)
    (Hup : ∀ k, answers k (prisma w))
    (Hlimit : 1 ≤ default 10 (query_limit queryDto))
    (Hdistinct :
       NoDup (note_updatedAt
                <$> selected (NotesService.build_where userId
                                (query_search queryDto) (query_tags queryDto))
                             (prisma w))) :
  let size := default 10 (query_limit queryDto) in
  let matching :=
    selected (NotesService.build_where userId (query_search queryDto)
                                       (query_tags queryDto))
             (prisma w) in
  let last := Math_ceil_div (Z.of_nat (length matching)) size in
  let page p :=
    page_of (NotesService.findAll userId (with_page queryDto p) w).1 in
  ∃ ordered,
    ordered ≡ₚ matching
    ∧ StronglySorted updatedAt_desc ordered
    ∧ List.concat
        (read_pages userId queryDto
                    (Z.of_nat <$> seq 1 (Z.to_nat last)) w).1
      = ordered
    ∧ (∀ p, 1 ≤ p → Z.of_nat (length (page p)) ≤ size)
    ∧ (∀ p, last < p → page p = []).
Proof.
  intros size matching last page.
  set (wh := NotesService.build_where userId (query_search queryDto)
                                      (query_tags queryDto)) in *.
  set (ordered := order_by_updatedAt_desc matching).
  assert (length ordered = length matching) as Hlen
    by (unfold ordered; by rewrite order_Permutation).
  pose proof (Math_ceil_div_bounds (Z.of_nat (length matching)) size Hlimit)
    as Hbounds. fold last in Hbounds.
  assert (1 ≤ size) as Hsize by done.
  set (win p := take (Z.to_nat size) (drop (Z.to_nat ((p - 1) * size)) ordered)).
  assert (∀ p, 1 ≤ p → page p = win p) as Hpage.
  { intros p Hp. unfold page.
    destruct (findAll_page userId queryDto p w) as (w1 & -> & _);
      [by left|apply Hup|done..|].
    simpl. fold wh size.
    by rewrite (select_ordered_settled wh (prisma w)). }
  exists ordered. split_and!.
  - apply order_Permutation.
  - apply order_sorted.
  - rewrite (read_pages_windows userId queryDto w win); try done.
    + rewrite <- (concat_windows (Z.to_nat size) (Z.to_nat last) ordered)
        by nia.
      rewrite <- fmap_S_seq.
      change (List.map ?f ?l) with (f <$> l).
      rewrite <- !list_fmap_compose. f_equal.
      apply list_fmap_ext. intros _ i _. simpl. unfold win.
      replace (Z.of_nat (S i) - 1) with (Z.of_nat i) by lia.
      by rewrite Z2Nat.inj_mul, Nat2Z.id by lia.
    + apply Forall_fmap, Forall_forall. intros i Hi.
      apply elem_of_seq in Hi. simpl. lia.
    + intros p entry Hentry. by rewrite Hmiss in Hentry.
  - intros p Hp. rewrite Hpage by done. unfold win. rewrite length_take.
    generalize (length (drop (Z.to_nat ((p - 1) * size)) ordered)).
    intros n. pose proof (Nat.le_min_l (Z.to_nat size) n). lia.
  - intros p Hp.
    assert (Z.of_nat (length ordered) ≤ (p - 1) * size) as Hpast by nia.
    rewrite Hpage by nia. unfold win. rewrite drop_ge by lia. apply take_nil.
Qed.

(** ** The client: trimming and case folding *)

Lemma characters_well_cut s : well_cut (characters s).
Proof.
  induction s as [|b s [Hcut Htail]]; simpl.
  - split; constructor.
  - destruct (characters s) as [|c cs]; simpl in *.
    + split; [|constructor]. constructor; [|constructor].
      by exists b, EmptyString.
    + apply Forall_cons in Hcut as [(k & t & -> & Ht) Hcut].
      destruct (starts_continued (String k t)) eqn:Hk; simpl in *.
      * split; [|done]. constructor; [|done].
        exists b, (String k t). split; [done|]. simpl. by rewrite Hk, Ht.
      * split.
        -- constructor; [by exists b, EmptyString|].
           constructor; [by exists k, t|done].
        -- by constructor.
Qed.

Lemma characters_run t r :
  all_continuation t = true →
  (∀ d ds, characters r = d :: ds → starts_continued d = false) →
  characters (t +:+ r)
  = match t with EmptyString => characters r | _ => t :: characters r end.
Proof.
  intros Ht Hr. induction t as [|k t IH]; [done|].
  simpl in Ht. apply andb_true_iff in Ht as [Hk Ht].
  simpl. rewrite (IH Ht). destruct t as [|k' t'].
  - destruct (characters r) as [|d ds] eqn:Hchars; [done|].
    by rewrite (Hr d ds eq_refl).
  - simpl in Ht. apply andb_true_iff in Ht as [Hk' _].
    simpl. by rewrite Hk'.
Qed.

Lemma characters_join l : well_cut l → characters (join l) = l.
Proof.
  induction l as [|c l IH]; intros [Hcut Htail]; [done|].
  apply Forall_cons in Hcut as [(b & t & -> & Ht) Hcut]. simpl in Htail.
  assert (characters (join l) = l) as Hl.
  { apply IH. split; [done|]. destruct l; [constructor|].
    by apply Forall_cons in Htail as [_ ?]. }
  simpl. rewrite characters_run, Hl; [|done|].
  - destruct t as [|k t]; simpl.
    + destruct l as [|d ds]; [done|].
      apply Forall_cons in Htail as [-> _]. done.
    + simpl in Ht. apply andb_true_iff in Ht as [-> _]. done.
  - rewrite Hl. intros d ds ->. by apply Forall_cons in Htail as [? _].
Qed.




Lemma drop_white_space_suffix l : ∃ k, l = k ++ drop_white_space l.
Proof.
  induction l as [|c l [k Hk]]; simpl; [by exists []|].
  destruct (white_space c); [|by exists []].
  exists (c :: k). simpl. by f_equal.
Qed.

Lemma drop_white_space_head l c k :
  drop_white_space l = c :: k → white_space c = false.
Proof.
  induction l as [|d l IH]; simpl; [done|].
  destruct (white_space d) eqn:Hd; [done|]. by intros [= <- <-].
Qed.

Lemma drop_white_space_fixed l c k :
  l = c :: k → white_space c = false → drop_white_space l = l.
Proof. intros -> Hc. simpl. by rewrite Hc. Qed.

Lemma drop_white_space_idemp l :
  drop_white_space (drop_white_space l) = drop_white_space l.
Proof.
  destruct (drop_white_space l) as [|c k] eqn:Hl; [done|].
  eapply drop_white_space_fixed; [done|].
  by eapply drop_white_space_head.
Qed.

Lemma well_cut_suffix k l : well_cut (k ++ l) → well_cut l.
Proof.
  induction k as [|c k IH]; [done|]. intros [Hcut Htail]. apply IH.
  simpl in *. apply Forall_cons in Hcut as [_ Hcut]. split; [done|].
  destruct (k ++ l); [constructor|]. by apply Forall_cons in Htail as [_ ?].
Qed.

Lemma well_cut_prefix l k : well_cut (l ++ k) → well_cut l.
Proof.
  intros [Hcut Htail]. apply Forall_app in Hcut as [Hcut _].
  split; [done|]. destruct l as [|c l]; [constructor|].
  simpl in *. by apply Forall_app in Htail as [? _].
Qed.

Lemma trimmed_prefix l : ∃ k, drop_white_space l = trimmed l ++ k.
Proof.
  unfold trimmed.
  destruct (drop_white_space_suffix (rev (drop_white_space l))) as [k Hk].
  exists (rev k). apply (f_equal (@rev _)) in Hk.
  by rewrite rev_involutive, rev_app_distr in Hk.
Qed.

Lemma trimmed_well_cut l : well_cut l → well_cut (trimmed l).
Proof.
  intros Hl. destruct (drop_white_space_suffix l) as [k1 Hk1].
  destruct (trimmed_prefix l) as [k2 Hk2].
  rewrite Hk1, Hk2 in Hl. by apply well_cut_suffix, well_cut_prefix in Hl.
Qed.

Lemma trimmed_idemp l : trimmed (trimmed l) = trimmed l.
Proof.
  destruct (trimmed_prefix l) as [k Hk].
  assert (drop_white_space (trimmed l) = trimmed l) as Hstart.
  { destruct (trimmed l) as [|c t] eqn:Ht; [done|].
    eapply drop_white_space_fixed; [done|].
    by eapply (drop_white_space_head l). }
  unfold trimmed at 1. rewrite Hstart. unfold trimmed.
  by rewrite rev_involutive, drop_white_space_idemp.
Qed.

Lemma characters_trim s : characters (trim s) = trimmed (characters s).
Proof. apply characters_join, trimmed_well_cut, characters_well_cut. Qed.

Lemma trim_idemp s : trim (trim s) = trim s.
Proof.
  unfold trim at 1. fold (trimmed (characters (trim s))).
  by rewrite characters_trim, trimmed_idemp.
Qed.

Lemma toLower_ascii_continuation b :
  is_continuation (toLower_ascii b) = is_continuation b.
Proof. by destruct b as [[] [] [] [] [] [] [] []]. Qed.

Lemma toLower_ascii_idemp c : toLower_ascii (toLower_ascii c) = toLower_ascii c.
Proof. by destruct c as [[] [] [] [] [] [] [] []]. Qed.

Lemma ascii_lower_idemp s : ascii_lower (ascii_lower s) = ascii_lower s.
Proof.
  induction s as [|c s IH]; simpl; [done|].
  by rewrite toLower_ascii_idemp, IH.
Qed.

Lemma ascii_lower_app s t :
  ascii_lower (s +:+ t) = ascii_lower s +:+ ascii_lower t.
Proof. induction s as [|c s IH]; simpl; [done|]. by rewrite IH. Qed.

Lemma ascii_lower_join l : ascii_lower (join l) = join (ascii_lower <$> l).
Proof.
  induction l as [|c l IH]; simpl; [done|]. by rewrite ascii_lower_app, IH.
Qed.

Lemma characters_ascii_lower s :
  characters (ascii_lower s) = ascii_lower <$> characters s.
Proof.
  induction s as [|b s IH]; simpl; [done|]. rewrite IH.
  destruct (characters s) as [|c cs]; simpl; [done|].
  assert (starts_continued (ascii_lower c) = starts_continued c) as ->.
  { destruct c; simpl; [done|]. apply toLower_ascii_continuation. }
  by destruct (starts_continued c).
Qed.

Lemma ascii_lower_no_letter c w :
  no_letter w = true → ascii_lower c = w ∨ c = w → ascii_lower c = c ∧ c = w.
Proof.
  revert w. induction c as [|b c IH]; intros [|k w]; simpl;
    try (by intros _ [?|?]).
  intros [[Hupper Hlower]%andb_true_iff Hw]%andb_true_iff Heq.
  assert (toLower_ascii b = b ∧ b = k
          ∧ (ascii_lower c = w ∨ c = w)) as (Hb & -> & Hc).
  { destruct Heq as [[= Hb Hc]|[= -> ->]].
    - subst k. split_and!; [| |by left];
        by destruct b as [[] [] [] [] [] [] [] []].
    - split_and!; [|done|by right].
      by destruct k as [[] [] [] [] [] [] [] []]. }
  destruct (IH w Hw Hc) as [Hfix ->]. by rewrite Hb, Hfix.
Qed.

Lemma white_space_ascii_lower c :
  white_space (ascii_lower c) = white_space c.
Proof.
  assert (Forall (λ w, no_letter w = true) white_space_characters) as Hplain
    by (apply (bool_decide_unpack _); by vm_compute).
  unfold white_space. apply bool_decide_ext. split; intros Hin.
  - pose proof Hin as Hw. eapply Forall_forall in Hw; [|exact Hplain].
    destruct (ascii_lower_no_letter c _ Hw (or_introl eq_refl)) as [_ ->].
    done.
  - pose proof Hin as Hw. eapply Forall_forall in Hw; [|exact Hplain].
    destruct (ascii_lower_no_letter c _ Hw (or_intror eq_refl)) as [-> _].
    done.
Qed.

Lemma drop_white_space_ascii_lower l :
  drop_white_space (ascii_lower <$> l) = ascii_lower <$> drop_white_space l.
Proof.
  induction l as [|c l IH]; simpl; [done|].
  rewrite white_space_ascii_lower. by destruct (white_space c).
Qed.

Lemma fmap_rev {A B} (f : A → B) (l : list A) : f <$> rev l = rev (f <$> l).
Proof.
  induction l as [|x l IH]; simpl; [done|]. by rewrite fmap_app, IH.
Qed.

Lemma ascii_lower_trim s : trim (ascii_lower s) = ascii_lower (trim s).
Proof.
  unfold trim.
  by rewrite characters_ascii_lower, drop_white_space_ascii_lower,
    <- fmap_rev, drop_white_space_ascii_lower, <- fmap_rev, ascii_lower_join.
Qed.

Lemma ascii_lower_keeps_trimmed s :
  trim s = s → trim (ascii_lower s) = ascii_lower s.
Proof. intros Hs. by rewrite ascii_lower_trim, Hs. Qed.


Lemma truthy_Some (s : string) : truthy (Some s) = true ↔ s ≠ EmptyString.
Proof. by destruct s. Qed.

(** ** The client: the tags of the form *)

Lemma handleAddTag_other toLowerCase key st :
  key ≠ "Enter" → key ≠ "," → NoteModal.handleAddTag toLowerCase key st = st.
Proof.
  intros H1 H2. unfold NoteModal.handleAddTag.
  by rewrite (bool_decide_eq_false_2 _ H1), (bool_decide_eq_false_2 _ H2).
Qed.

Lemma handleAddTag_enter toLowerCase key st :
  key = "Enter" ∨ key = "," →
  NoteModal.handleAddTag toLowerCase key st
  = NoteModal.mkState (NoteModal.title st) (NoteModal.content st)
      (if decide (toLowerCase (trim (NoteModal.tagInput st)) ≠ EmptyString
                  ∧ toLowerCase (trim (NoteModal.tagInput st))
                    ∉ NoteModal.tags st)
       then NoteModal.tags st
              ++ [toLowerCase (trim (NoteModal.tagInput st))]
       else NoteModal.tags st)
      EmptyString (NoteModal.loading st) (NoteModal.error st).
Proof.
  intros Hkey. unfold NoteModal.handleAddTag.
  assert (bool_decide (key = "Enter") || bool_decide (key = ",") = true) as ->.
  { apply orb_true_iff. rewrite !bool_decide_eq_true. done. }
  f_equal. generalize (toLowerCase (trim (NoteModal.tagInput st))).
  intros new. case_decide as Hnew.
  - destruct Hnew as [Hne Hin]. apply truthy_Some in Hne. rewrite Hne.
    by rewrite bool_decide_eq_false_2.
  - destruct (truthy (Some new)) eqn:Htruthy; [|done].
    apply truthy_Some in Htruthy. simpl.
    rewrite bool_decide_eq_true_2; [done|].
    destruct (decide (new ∈ NoteModal.tags st)); [done|]. by destruct Hnew.
Qed.

(** X8: the tag handlers of the form keep its tag list clean.  A key
    other than Enter or comma changes nothing.  Enter or comma empties the
    input and adds at most the one tag typed, trimmed and in lower case,
    and only if it is not empty and not yet in the list; removing a tag
    removes it and nothing else.  So, with a [toLowerCase] that leaves a
    lowered text as it is and puts no white space at the ends of a text
    that has none there, a list without duplicates whose tags are
    non-empty, trimmed and lower-case stays such a list. *)
Theorem form_tags_stay_clean (toLowerCase : string → string) key removed st
    (Hidemp : ∀ s, toLowerCase (toLowerCase s) = toLowerCase s)
    (Hkeeps : ∀ s, trim s = s → trim (toLowerCase s) = toLowerCase s)
    (Hdistinct : NoDup (NoteModal.tags st))
    (Hclean : Forall (tag_ok toLowerCase) (NoteModal.tags st)) :
  let added := NoteModal.handleAddTag toLowerCase key st in
  let dropped := NoteModal.handleRemoveTag removed st in
  NoDup (NoteModal.tags added)
  ∧ Forall (tag_ok toLowerCase) (NoteModal.tags added)
  ∧ (∀ t, t ∈ NoteModal.tags added
          ↔ t ∈ NoteModal.tags st
            ∨ ((key = "Enter" ∨ key = ",")
               ∧ t = toLowerCase (trim (NoteModal.tagInput st))
               ∧ t ≠ EmptyString))
  ∧ (key ≠ "Enter" → key ≠ "," → added = st)
  ∧ (key = "Enter" ∨ key = "," → NoteModal.tagInput added = EmptyString)
  ∧ NoDup (NoteModal.tags dropped)
  ∧ Forall (tag_ok toLowerCase) (NoteModal.tags dropped)
  ∧ (∀ t, t ∈ NoteModal.tags dropped ↔ t ∈ NoteModal.tags st ∧ t ≠ removed).
Proof.
  intros added dropped.
  assert (∀ t, t ∈ NoteModal.tags dropped
               ↔ t ∈ NoteModal.tags st ∧ t ≠ removed) as Hdropped.
  { intros t. unfold dropped, NoteModal.handleRemoveTag; simpl.
    rewrite !list_elem_of_In, filter_In, bool_decide_eq_true. done. }
  assert (NoDup (NoteModal.tags dropped)
          ∧ Forall (tag_ok toLowerCase) (NoteModal.tags dropped))
    as [Hnd Hok].
  { unfold dropped, NoteModal.handleRemoveTag; simpl. split.
    - rewrite <- (list_fmap_id (List.filter _ _)).
      apply NoDup_fmap_filter. by rewrite list_fmap_id.
    - apply Forall_forall. intros t Ht.
      apply list_elem_of_In, filter_In in Ht as [Ht _].
      eapply Forall_forall in Hclean; [exact Hclean|].
      by apply list_elem_of_In. }
  clearbody dropped.
  destruct (decide (key = "Enter" ∨ key = ",")) as [Hkey|Hkey].
  - subst added. cbv zeta. rewrite (handleAddTag_enter _ key st Hkey).
    set (new := toLowerCase (trim (NoteModal.tagInput st))) in *.
    simpl. case_decide as Hnew.
    + destruct Hnew as [Hne Hin]. split_and!; try done.
      * apply NoDup_app. split_and!; [done| |apply NoDup_singleton].
        by intros t Ht ->%list_elem_of_singleton.
      * apply Forall_app. split; [done|].
        apply Forall_singleton. split_and!; [done| |apply Hidemp].
        apply Hkeeps, trim_idemp.
      * intros t. rewrite elem_of_app, list_elem_of_singleton.
        split; [intros [? | ->]; auto|]. intros [?|(_ & -> & _)]; auto.
      * intros Hne1 Hne2. by destruct Hkey.
    + split_and!; try done.
      * intros t. split; [auto|]. intros [?|(_ & -> & Hne)]; [done|].
        destruct (decide (new ∈ NoteModal.tags st)); [done|].
        by destruct Hnew.
      * intros Hne1 Hne2. by destruct Hkey.
  - subst added. cbv zeta. rewrite (handleAddTag_other _ key st) by tauto.
    split_and!; try done.
    intros t. split; [auto|]. intros [?|(? & _)]; done.
Qed.

(** ** The client: saving the form *)

Lemma controller_create_accepts userId title content tags w :
  title ≠ EmptyString → content ≠ EmptyString →
  NotesController.create (create_body title content tags) userId w
  = NotesService.create userId (mkCreateNoteDto title content tags) w.
Proof.
  intros Htitle Hcontent.
  pose proof (create_body_tags_pass title content tags) as Htags.
  unfold NotesController.create, ValidationPipe.createNoteDto,
    ValidationPipe.verdict, ValidationPipe.failing, bind, ret.
  rewrite create_body_tags, Htags.
  destruct title; [done|]. by destruct content.
Qed.

Lemma controller_create_rejects userId title content tags w :
  title = EmptyString ∨ content = EmptyString →
  ∃ message,
    NotesController.create (create_body title content tags) userId w
    = (Throw (BadRequestException message), w).
Proof.
  intros Hempty.
  pose proof (create_body_tags_pass title content tags) as Htags.
  unfold NotesController.create, ValidationPipe.createNoteDto,
    ValidationPipe.verdict, ValidationPipe.failing, bind, throw.
  rewrite Htags.
  destruct Hempty as [-> | ->]; simpl.
  - destruct content; simpl; eauto.
  - destruct title; simpl; eauto.
Qed.

(** X9: saving the form.  With a title that is blank once trimmed no
    request is made: the form shows that a title is required and [onSave]
    is not called.  Otherwise the new note is posted with title and
    content trimmed; [POST /notes] refuses it with a validation error,
    storing nothing, when the trimmed content is empty, and else stores a
    note with the trimmed title and content and the tags of the form.
    [onSave] is called exactly when a request was made and succeeded, and
    a submit leaves the texts and tags of the form as they are. *)
Theorem form_submit_posts_trimmed_note userId note api st w
    (Hup : answers 1 (prisma w)) (Hfree : id_is_free (prisma w)) :
  let outcome := NoteModal.handleSubmit note api st in
  (trim (NoteModal.title st) = EmptyString →
     NoteModal.request note st = None
     ∧ NoteModal.error outcome.1 = "Title is required")
  ∧ (trim (NoteModal.title st) ≠ EmptyString →
     NoteModal.request None st = Some (post_notes (NoteModal.noteData st))
     ∧ (trim (NoteModal.content st) = EmptyString →
        ∃ message,
          NotesController.create (NoteModal.noteData st) userId w
          = (Throw (BadRequestException message), w))
     ∧ (trim (NoteModal.content st) ≠ EmptyString →
        ∃ n w',
          NotesController.create (NoteModal.noteData st) userId w = (Ok n, w')
          ∧ note_title n = trim (NoteModal.title st)
          ∧ note_content n = trim (NoteModal.content st)
          ∧ note_tags n = NoteModal.tags st
          ∧ note_userId n = userId
          ∧ rows (prisma w') = rows (prisma w) ++ [n]))
  ∧ (outcome.2 = true
     ↔ ∃ call, NoteModal.request note st = Some call ∧ api call = succeeded)
  ∧ NoteModal.title outcome.1 = NoteModal.title st
  ∧ NoteModal.content outcome.1 = NoteModal.content st
  ∧ NoteModal.tags outcome.1 = NoteModal.tags st
  ∧ NoteModal.loading outcome.1 = false.
Proof.
  intros outcome. split_and!.
  - intros Hblank. subst outcome.
    unfold NoteModal.handleSubmit, NoteModal.request. by rewrite Hblank.
  - intros Htitle. split_and!.
    + unfold NoteModal.request.
      apply truthy_Some in Htitle. by rewrite Htitle.
    + intros Hcontent. unfold NoteModal.noteData.
      apply controller_create_rejects. by right.
    + intros Hcontent. unfold NoteModal.noteData.
      rewrite controller_create_accepts by done.
      destruct (service_create_stores userId
                  (mkCreateNoteDto (trim (NoteModal.title st))
                     (trim (NoteModal.content st))
                     (Some (NoteModal.tags st))) w Hup Hfree)
        as (n & w' & Hrun & Hfields).
      by exists n, w'.
  - subst outcome. unfold NoteModal.handleSubmit.
    destruct (NoteModal.request note st) as [call|]; simpl.
    + destruct (api call) eqn:Hreply; simpl.
      * split; [eauto|done].
      * split; [done|]. intros (call' & [= <-] & Hok). congruence.
    + split; [done|]. by intros (call & ? & _).
  - subst outcome. unfold NoteModal.handleSubmit.
    destruct (NoteModal.request note st) as [call|]; [|done].
    by destruct (api call).
  - subst outcome. unfold NoteModal.handleSubmit.
    destruct (NoteModal.request note st) as [call|]; [|done].
    by destruct (api call).
  - subst outcome. unfold NoteModal.handleSubmit.
    destruct (NoteModal.request note st) as [call|]; [|done].
    by destruct (api call).
  - subst outcome. unfold NoteModal.handleSubmit.
    destruct (NoteModal.request note st) as [call|]; [|done].
    by destruct (api call).
Qed.

(** ** The client: the notes page *)

Lemma NoDup_filter_ne (tag : string) (l : list string) :
  NoDup l → NoDup (List.filter (λ t, bool_decide (t ≠ tag)) l).
Proof.
  intros Hl. rewrite <- (list_fmap_id (List.filter _ _)).
  apply NoDup_fmap_filter. by rewrite list_fmap_id.
Qed.

Lemma elem_of_filter_ne (tag t : string) (l : list string) :
  t ∈ List.filter (λ t, bool_decide (t ≠ tag)) l ↔ t ∈ l ∧ t ≠ tag.
Proof. by rewrite !list_elem_of_In, filter_In, bool_decide_eq_true. Qed.

Lemma filter_ne_absent (tag : string) (l : list string) :
  tag ∉ l → List.filter (λ t, bool_decide (t ≠ tag)) l = l.
Proof.
  induction l as [|t l IH]; [done|]. intros Hnotin.
  apply not_elem_of_cons in Hnotin as [Hne Hnotin]. simpl.
  rewrite bool_decide_eq_true_2 by done. by rewrite IH.
Qed.

Lemma filter_ne_present (tag : string) (l : list string) :
  NoDup l → tag ∈ l →
  List.filter (λ t, bool_decide (t ≠ tag)) l ++ [tag] ≡ₚ l.
Proof.
  induction l as [|t l IH]; intros Hl Hin.
  - by apply elem_of_nil in Hin.
  - apply NoDup_cons in Hl as [Hnotin Hl]. simpl.
    destruct (decide (t = tag)) as [->|Hne].
    + rewrite bool_decide_eq_false_2 by (by intros ?).
      rewrite filter_ne_absent by done.
      by rewrite Permutation_app_comm.
    + rewrite bool_decide_eq_true_2 by done. simpl. f_equiv.
      apply IH; [done|]. by apply elem_of_cons in Hin as [?|?].
Qed.

(** X10: a click on a tag of the notes page flips that tag in the
    selection and nothing else, keeps the selection free of duplicates and
    goes back to page 1; a second click restores the selection, up to the
    order of the tags when the tag had been selected. *)
Theorem toggleTag_flips_one_tag tag st
    (Hdistinct : NoDup (Dashboard.selectedTags st)) :
  let once := Dashboard.toggleTag tag st in
  let twice := Dashboard.toggleTag tag once in
  (tag ∈ Dashboard.selectedTags once ↔ tag ∉ Dashboard.selectedTags st)
  ∧ (∀ t, t ≠ tag →
       (t ∈ Dashboard.selectedTags once ↔ t ∈ Dashboard.selectedTags st))
  ∧ NoDup (Dashboard.selectedTags once)
  ∧ Dashboard.currentPage once = 1
  ∧ Dashboard.selectedTags twice ≡ₚ Dashboard.selectedTags st
  ∧ (tag ∉ Dashboard.selectedTags st →
     Dashboard.selectedTags twice = Dashboard.selectedTags st).
Proof.
  intros once twice. subst twice once. unfold Dashboard.toggleTag. simpl.
  destruct (decide (tag ∈ Dashboard.selectedTags st)) as [Hin|Hnotin].
  - rewrite (bool_decide_eq_true_2 _ Hin).
    rewrite bool_decide_eq_false_2
      by (rewrite elem_of_filter_ne; by intros [_ ?]).
    split_and!; try done.
    + rewrite elem_of_filter_ne. split; [by intros [_ ?]|done].
    + intros t Hne. rewrite elem_of_filter_ne. tauto.
    + by apply NoDup_filter_ne.
    + by apply filter_ne_present.
  - rewrite (bool_decide_eq_false_2 _ Hnotin).
    rewrite bool_decide_eq_true_2
      by (rewrite elem_of_app, list_elem_of_singleton; by right).
    assert (List.filter (λ t, bool_decide (t ≠ tag))
              (Dashboard.selectedTags st ++ [tag])
            = Dashboard.selectedTags st) as Hback.
    { rewrite List.filter_app, filter_ne_absent by done. simpl.
      rewrite bool_decide_eq_false_2 by (by intros ?).
      by rewrite app_nil_r. }
    split_and!; try done.
    + rewrite elem_of_app, list_elem_of_singleton. split; [done|by right].
    + intros t Hne. rewrite elem_of_app, list_elem_of_singleton. tauto.
    + apply NoDup_app. split_and!; [done| |apply NoDup_singleton].
      by intros t Ht ->%list_elem_of_singleton.
    + by rewrite Hback.
Qed.

Lemma filterNotes_idemp toLowerCase st :
  Dashboard.filterNotes toLowerCase (Dashboard.filterNotes toLowerCase st)
  = Dashboard.filterNotes toLowerCase st.
Proof. done. Qed.

Lemma filterNotes_set_page toLowerCase p st :
  Dashboard.filterNotes toLowerCase st = st →
  Dashboard.filterNotes toLowerCase (Dashboard.set_page p st)
  = Dashboard.set_page p st.
Proof.
  intros Hst. apply (f_equal Dashboard.filteredNotes) in Hst.
  unfold Dashboard.set_page, Dashboard.filterNotes in *. simpl in *.
  by f_equal.
Qed.

(** What holds of the notes page whatever happened on it: the page asked
    for is at least 1, no tag is selected twice, and the notes shown are
    the local filter of the notes held. *)
Lemma dashboard_invariant toLowerCase evs :
  let st := Dashboard.handle_all toLowerCase evs Dashboard.initial in
  1 ≤ Dashboard.currentPage st
  ∧ NoDup (Dashboard.selectedTags st)
  ∧ Dashboard.filterNotes toLowerCase st = st.
Proof.
  unfold Dashboard.handle_all.
  induction evs as [|ev l IH] using rev_ind; simpl.
  { split_and!; [done|apply NoDup_nil_2|done]. }
  rewrite fold_left_app. simpl in *.
  destruct IH as (Hpage & Hdistinct & Hshown).
  set (st := fold_left _ l _) in *. clearbody st.
  destruct ev as [text|tag| | |p| |[data|e]]; simpl.
  - split_and!; [done|done|apply filterNotes_idemp].
  - split_and!; [done| |apply filterNotes_idemp].
    case_bool_decide as Hin.
    + by apply NoDup_filter_ne.
    + apply NoDup_app. split_and!; [done| |apply NoDup_singleton].
      by intros t Ht ->%list_elem_of_singleton.
  - split_and!; [done|apply NoDup_nil_2|apply filterNotes_idemp].
  - destruct (_ && _); [|done]. simpl.
    split_and!; [lia|done|by apply filterNotes_set_page].
  - destruct (_ && _) eqn:Hshown'; [|done]. simpl.
    apply andb_true_iff in Hshown' as [[_ Hlow]%andb_true_iff _].
    split_and!; [lia|done|by apply filterNotes_set_page].
  - destruct (_ && _) eqn:Hshown'; [|done]. simpl.
    apply andb_true_iff in Hshown' as [Hmany _].
    split_and!; [lia|done|by apply filterNotes_set_page].
  - destruct data; simpl. split_and!; [done|done|apply filterNotes_idemp].
  - done.
Qed.

(** X11: the requests of the notes page.  Whatever the user did on the
    page, the page number it asks for is at least 1 and the notes it
    shows are the local filter of the notes it holds.  While no tag is
    selected its request passes the validation of [GET /notes] and
    reaches the service with the term typed (none when the box is empty),
    the page and a page size of 10.  Once a tag is selected the tags
    travel as one comma-joined parameter, which is not an array: the
    request is refused with a validation error naming [tags], and the
    page keeps the notes it had. *)
Theorem dashboard_requests (toLowerCase : string → string) evs userId w e :
  let st := Dashboard.handle_all toLowerCase evs Dashboard.initial in
  1 ≤ Dashboard.currentPage st
  ∧ NoDup (Dashboard.selectedTags st)
  ∧ Dashboard.filterNotes toLowerCase st = st
  ∧ (Dashboard.selectedTags st = [] →
     NotesController.findAll (Dashboard.query st) userId w
     = NotesService.findAll userId
         (mkQueryNotesDto
            (if truthy (Some (Dashboard.searchTerm st))
             then Some (Dashboard.searchTerm st) else None)
            None (Some (Dashboard.currentPage st)) (Some 10)) w)
  ∧ (Dashboard.selectedTags st ≠ [] →
     NotesController.findAll (Dashboard.query st) userId w
     = (Throw (BadRequestException "tags"), w)
     ∧ Dashboard.handle toLowerCase (Dashboard.fetched (Throw e)) st = st).
Proof.
  intros st.
  destruct (dashboard_invariant toLowerCase evs)
    as (Hpage & Hdistinct & Hshown).
  fold st in Hpage, Hdistinct, Hshown. clearbody st.
  split_and!; try done.
  - intros Hnone.
    unfold NotesController.findAll, ValidationPipe.queryNotesDto,
      ValidationPipe.verdict, ValidationPipe.failing, Dashboard.query, bind, ret.
    rewrite Hnone. simpl.
    destruct (Z.leb_spec 1 (Dashboard.currentPage st)) as [_|?]; [|lia].
    by destruct (Dashboard.searchTerm st).
  - intros Hsome.
    unfold NotesController.findAll, ValidationPipe.queryNotesDto,
      ValidationPipe.verdict, ValidationPipe.failing, Dashboard.query,
      bind, throw.
    destruct (Dashboard.selectedTags st) as [|t ts]; [done|]. simpl.
    destruct (Z.leb_spec 1 (Dashboard.currentPage st)) as [_|?]; [|lia].
    by destruct (Dashboard.searchTerm st).
Qed.





(** ** The note changed last comes first *)

Lemma newest_heads_the_order (l : list Note) n :
  n ∈ l →
  (∀ m, m ∈ l → m ≠ n → note_updatedAt m < note_updatedAt n) →
  head (order_by_updatedAt_desc l) = Some n.
Proof.
  intros Hn Hnewest.
  pose proof (order_sorted l) as Hsorted.
  pose proof (order_Permutation l) as Hperm.
  destruct (order_by_updatedAt_desc l) as [|h t].
  - rewrite <- Hperm in Hn. by apply elem_of_nil in Hn.
  - simpl. f_equal. destruct (decide (h = n)) as [|Hne]; [done|].
    assert (h ∈ l) as Hh by (rewrite <- Hperm; apply list_elem_of_here).
    specialize (Hnewest h Hh Hne).
    rewrite <- Hperm in Hn. apply elem_of_cons in Hn as [->|Hn]; [done|].
    apply StronglySorted_inv in Hsorted as [_ Hall].
    eapply Forall_forall in Hall; [|exact Hn].
    unfold updatedAt_desc in Hall. lia.
Qed.

Lemma update_run id userId dto w n :
  answers 2 (prisma w) →
  List.find (has_id id) (rows (prisma w)) = Some n →
  note_userId n = userId →
  ∃ w1,
    NotesService.update id userId dto w
    = (Ok (apply_update dto (now (prisma w)) n), w1)
    ∧ rows (prisma w1)
      = List.map (λ m, if has_id id m
                       then apply_update dto (now (prisma w)) n else m)
                 (rows (prisma w))
    ∧ outage (prisma w1) = outage (prisma w)
    ∧ calls (prisma w1) = S (S (calls (prisma w)))
    ∧ lower (prisma w1) = lower (prisma w)
    ∧ redis w1
      = if cache_down w (length (trace w) + 2)
        then redis w
        else filter (λ kv, ¬ CacheService.under
                              (CacheService.userNotesPrefix userId) kv)
                    (redis w).
Proof.
  intros Hup Hrow Hown.
  pose proof (answers_now _ _ Hup) as Hup1.
  pose proof (answers_now _ _ (answers_next _ _ Hup (rows (prisma w)))) as Hup2.
  simpl in Hup2. eexists. split.
  { unfold_calls. rewrite Hup1; simpl. rewrite Hrow; simpl.
    rewrite bool_decide_eq_false_2 by (by intros []); simpl.
    rewrite Hup2; simpl. rewrite Hrow. reflexivity. }
  simpl. split_and!; try done.
  rewrite !length_app. simpl. rewrite <- Nat.add_assoc. simpl.
  by destruct (cache_down _ _).
Qed.

Lemma create_keeps_lower userId dto w :
  lower (prisma (NotesService.create userId dto w).2) = lower (prisma w).
Proof. unfold_calls; simpl; split_run; done. Qed.

Lemma busted_key_misses userId queryDto (cache : gmap string CacheEntry) :
  filter (λ kv, ¬ CacheService.under (CacheService.userNotesPrefix userId) kv)
         cache
  !! search_key userId queryDto = None.
Proof.
  apply map_lookup_filter_None. right. intros entry _ Hnot. apply Hnot.
  apply search_key_under_prefix.
Qed.

Lemma first_page_head userId queryDto w n :
  redis w !! search_key userId queryDto = None →
  answers 2 (prisma w) →
  default 1 (query_page queryDto) = 1 →
  1 ≤ default 10 (query_limit queryDto) →
  n ∈ rows (prisma w) →
  (∀ m, m ∈ rows (prisma w) → m ≠ n → note_updatedAt m < note_updatedAt n) →
  where_matches (lower (prisma w))
    (NotesService.build_where userId (query_search queryDto)
                              (query_tags queryDto)) n = true →
  head (page_of (NotesService.findAll userId queryDto w).1) = Some n.
Proof.
  intros Hmiss Hup Hpage Hlimit Hn Hnewest Hmatch.
  destruct (findAll_answered userId queryDto w (or_introl Hmiss) Hup)
    as [w' Hrun].
  { split; [by rewrite Hpage|done]. }
  rewrite Hrun, Hpage. simpl. rewrite drop_0.
  set (wh := NotesService.build_where _ _ _) in *.
  assert (head (select_ordered wh (answered (prisma w))) = Some n) as Hhead.
  { apply newest_heads_the_order.
    - rewrite scan_order_Permutation.
      by apply list_elem_of_In, filter_In; split; [apply list_elem_of_In|].
    - intros m Hm. rewrite scan_order_Permutation in Hm.
      apply list_elem_of_In, filter_In in Hm as [Hm _]. apply Hnewest.
      by apply list_elem_of_In. }
  destruct (select_ordered wh (answered (prisma w))) as [|h t]; [done|].
  destruct (Z.to_nat (default 10 (query_limit queryDto))) eqn:Hsize; [lia|].
  exact Hhead.
Qed.

(** X13: the note changed last comes first.  On a table whose rows were
    all stamped before now, a note that has just been created or updated
    is the first note of every first page of its owner's searches whose
    filter it matches, whatever the cache held before, provided the
    cache answered the invalidation that followed the write. *)
Theorem changed_note_heads_the_next_search userId queryDto w
    (Hup : answers 4 (prisma w))
    (Hclock : ∀ m, m ∈ rows (prisma w) → note_updatedAt m < now (prisma w))
    (Hpage : default 1 (query_page queryDto) = 1)
    (Hlimit : 1 ≤ default 10 (query_limit queryDto)) :
  let matches :=
    where_matches (lower (prisma w))
      (NotesService.build_where userId (query_search queryDto)
                                (query_tags queryDto)) in
  let first_found w1 :=
    head (page_of (NotesService.findAll userId queryDto w1).1) in
  (∀ dto, id_is_free (prisma w) →
     cache_down w (length (trace w) + 1) = false →
     ∃ n w1, NotesService.create userId dto w = (Ok n, w1)
             ∧ (matches n = true → first_found w1 = Some n))
  ∧ (∀ id dto n0,
       List.find (has_id id) (rows (prisma w)) = Some n0 →
       note_userId n0 = userId →
       cache_down w (length (trace w) + 2) = false →
       ∃ n w1, NotesService.update id userId dto w = (Ok n, w1)
               ∧ (matches n = true → first_found w1 = Some n)).
Proof.
  intros matches first_found. split.
  - intros dto Hfree Hcache.
    assert (answers 1 (prisma w)) as Hup1 by (intros i Hi; apply Hup; lia).
    pose proof (create_keeps_lower userId dto w) as Hlower.
    destruct (create_run userId dto w Hup1 Hfree)
      as (n & w1 & Hrun & Hn & Hrows & Hout & Hcalls & Hredis).
    rewrite Hrun in Hlower. simpl in Hlower. rewrite Hcache in Hredis.
    exists n, w1. split; [done|]. intros Hmatch.
    apply first_page_head; try done.
    + rewrite Hredis. apply busted_key_misses.
    + intros i Hi. rewrite Hout, Hcalls.
      specialize (Hup (S i)). rewrite Nat.add_succ_r in Hup.
      apply Hup. lia.
    + rewrite Hrows, elem_of_app, list_elem_of_singleton. by right.
    + intros m Hm Hne. rewrite Hrows, elem_of_app, list_elem_of_singleton in Hm.
      destruct Hm as [Hm|Hm]; [|done].
      apply Hclock in Hm. by rewrite Hn.
    + by rewrite Hlower.
  - intros id dto n0 Hrow Hown Hcache.
    assert (answers 2 (prisma w)) as Hup2 by (intros i Hi; apply Hup; lia).
    destruct (update_run id userId dto w n0 Hup2 Hrow Hown)
      as (w1 & Hrun & Hrows & Hout & Hcalls & Hlower & Hredis).
    rewrite Hcache in Hredis.
    eexists _, w1. split; [done|]. intros Hmatch.
    apply first_page_head; try done.
    + rewrite Hredis. apply busted_key_misses.
    + intros i Hi. rewrite Hout, Hcalls.
      specialize (Hup (S (S i))). rewrite !Nat.add_succ_r in Hup.
      apply Hup. lia.
    + rewrite Hrows. apply list_elem_of_In, in_map_iff. exists n0.
      destruct (find_has_id_Some _ _ _ Hrow) as [Hin Hid].
      split; [|by apply list_elem_of_In].
      unfold has_id. by rewrite bool_decide_eq_true_2.
    + intros m Hm Hne. rewrite Hrows in Hm.
      apply list_elem_of_In, in_map_iff in Hm as (k & Hk & Hin).
      destruct (has_id id k); [by subst m|]. subst m.
      apply list_elem_of_In, Hclock in Hin. done.
    + by rewrite Hlower.
Qed.

(** ** The further properties at work on the sample data *)

Lemma desk_free : id_is_free (prisma desk_world).
Proof.
  intros m Hm. cbn in Hm. rewrite !elem_of_cons, elem_of_nil in Hm.
  destruct Hm as [->|[->|[]]]; by vm_compute.
Qed.

Lemma desk_ids : NoDup (note_id <$> rows (prisma desk_world)).
Proof. apply (bool_decide_unpack _). by vm_compute. Qed.

Lemma desk_clock m :
  m ∈ rows (prisma desk_world) → note_updatedAt m < now (prisma desk_world).
Proof.
  intros Hm. cbn in Hm. rewrite !elem_of_cons, elem_of_nil in Hm.
  destruct Hm as [->|[->|[]]]; by vm_compute.
Qed.

Lemma getAllTags_sorted_distinct_own_witness :
  outage (prisma labelled_world) (calls (prisma labelled_world)) = false
  ∧ ∃ tags w',
      NotesService.getAllTags "u" labelled_world = (Ok tags, w')
      ∧ tags = ["Alpha"; "work"; bytes [240; 159; 152; 128];
                bytes [239; 189; 158]]
      ∧ StronglySorted code_unit_le tags
      ∧ NoDup tags
      ∧ redis w' = redis labelled_world.
Proof.
  split; [reflexivity|].
  destruct (getAllTags_sorted_distinct_own "u" labelled_world eq_refl)
    as (tags & w' & Hrun & Hsorted & Hdistinct & _ & Hredis & _).
  exists tags, w'. split_and!; try done.
  vm_compute in Hrun. by injection Hrun as <- <-.
Defined.

Lemma created_note_is_read_back_witness :
  answers 2 (prisma desk_world)
  ∧ id_is_free (prisma desk_world)
  ∧ ∃ n w1,
      NotesService.create "u" (mkCreateNoteDto "Shopping" "milk" None)
                          desk_world = (Ok n, w1)
      ∧ (NotesService.findOne (note_id n) "u" w1).1 = Ok n.
Proof.
  split; [apply sample_answers|]. split; [apply desk_free|].
  destruct (created_note_is_read_back
              "u" (mkCreateNoteDto "Shopping" "milk" None) desk_world
              (sample_answers _ 2) desk_free)
    as (n & w1 & Hrun & Hread & _).
  by exists n, w1.
Defined.

Lemma created_tags_are_listed_witness :
  answers 2 (prisma desk_world)
  ∧ id_is_free (prisma desk_world)
  ∧ ∃ n w1 tags w2,
      NotesService.create "u" (mkCreateNoteDto "Shopping" "milk" (Some ["home"]))
                          desk_world = (Ok n, w1)
      ∧ NotesService.getAllTags "u" w1 = (Ok tags, w2)
      ∧ "home" ∈ tags.
Proof.
  split; [apply sample_answers|]. split; [apply desk_free|].
  destruct (created_tags_are_listed
              "u" (mkCreateNoteDto "Shopping" "milk" (Some ["home"]))
              desk_world (sample_answers _ 2) desk_free)
    as (n & w1 & tags & w2 & Hrun & Htags & Hlisted).
  exists n, w1, tags, w2. split_and!; [done|done|].
  apply Hlisted. left. apply list_elem_of_here.
Defined.

Lemma removed_note_is_gone_witness :
  answers 3 (prisma desk_world)
  ∧ List.find (has_id "a") (rows (prisma desk_world))
    = Some (sample_note "a" "u" ["work"] 5)
  ∧ ∃ w1,
      NotesService.remove "a" "u" desk_world = (Ok tt, w1)
      ∧ refused (NotFoundException "Note not found")
                (NotesService.findOne "a" "u") w1.
Proof.
  split; [apply sample_answers|]. split; [reflexivity|].
  destruct (removed_note_is_gone
              "a" "u" desk_world (sample_note "a" "u" ["work"] 5)
              (sample_answers _ 3) eq_refl eq_refl)
    as (w1 & Hrun & _ & Hgone).
  exists w1. split; [done|]. apply (Hgone "u" retitle).
Defined.

Lemma mutation_leaves_other_users_notes_witness :
  NoDup (note_id <$> rows (prisma desk_world))
  ∧ "v" ≠ "u"
  ∧ notes_of_user "v" (prisma (mutate "u" (remove_note "a") desk_world).2)
    = notes_of_user "v" (prisma desk_world).
Proof.
  split; [apply desk_ids|]. split; [done|].
  apply (mutation_leaves_other_users_notes
           "u" (remove_note "a") "v" desk_world desk_ids).
  done.
Defined.

Lemma pages_cover_the_matches_witness :
  (∀ p, redis shelf_world
          !! search_key "u" (with_page (mkQueryNotesDto None None None (Some 10)) p)
        = None)
  ∧ (∀ k, answers k (prisma shelf_world))
  ∧ NoDup (note_updatedAt
             <$> selected (NotesService.build_where "u" None None)
                          (prisma shelf_world))
  ∧ (∃ ordered,
       ordered
       ≡ₚ selected (NotesService.build_where "u" None None)
                   (prisma shelf_world)
       ∧ StronglySorted updatedAt_desc ordered
       ∧ List.concat
           (read_pages "u" (mkQueryNotesDto None None None (Some 10))
                       [1; 2; 3] shelf_world).1
         = ordered)
  ∧ note_id
      <$> List.concat
            (read_pages "u" (mkQueryNotesDto None None None (Some 10))
                        [1; 2; 3] shelf_world).1
    = ["24"; "23"; "22"; "21"; "20"; "19"; "18"; "17"; "16"; "15"; "14";
       "13"; "12"; "11"; "10"; "9"; "8"; "7"; "6"; "5"; "4"; "3"; "2"; "1";
       "0"].
Proof.
  assert (∀ p, redis shelf_world
                 !! search_key "u" (with_page (mkQueryNotesDto None None None
                                                               (Some 10)) p)
               = None) as Hmiss by (intros p; apply lookup_empty).
  assert (NoDup (note_updatedAt
                   <$> selected (NotesService.build_where "u" None None)
                                (prisma shelf_world))) as Hdistinct.
  { apply (bool_decide_unpack _). by vm_compute. }
  split; [exact Hmiss|]. split; [intros k; apply sample_answers|].
  split; [exact Hdistinct|]. split; [|by vm_compute].
  destruct (pages_cover_the_matches
              "u" (mkQueryNotesDto None None None (Some 10)) shelf_world
              Hmiss (λ k, sample_answers _ k) ltac:(done) Hdistinct)
    as (ordered & Hperm & Hsorted & Hcat & _).
  exists ordered. split; [exact Hperm|]. split; [exact Hsorted|].
  exact Hcat.
Defined.

Lemma form_tags_stay_clean_witness :
  (∀ s, ascii_lower (ascii_lower s) = ascii_lower s)
  ∧ (∀ s, trim s = s → trim (ascii_lower s) = ascii_lower s)
  ∧ NoDup (NoteModal.tags draft)
  ∧ Forall (tag_ok ascii_lower) (NoteModal.tags draft)
  ∧ NoteModal.tags (NoteModal.handleAddTag ascii_lower "Enter" draft)
    = ["home"; "work"]
  ∧ NoDup (NoteModal.tags (NoteModal.handleAddTag ascii_lower "Enter" draft))
  ∧ Forall (tag_ok ascii_lower)
           (NoteModal.tags (NoteModal.handleAddTag ascii_lower "Enter" draft)).
Proof.
  assert (NoDup (NoteModal.tags draft)) as Hdistinct.
  { apply NoDup_singleton. }
  assert (Forall (tag_ok ascii_lower) (NoteModal.tags draft)) as Hclean.
  { apply Forall_singleton. by split_and!. }
  split; [exact ascii_lower_idemp|]. split; [exact ascii_lower_keeps_trimmed|].
  split; [exact Hdistinct|]. split; [exact Hclean|]. split; [reflexivity|].
  destruct (form_tags_stay_clean ascii_lower "Enter" "home" draft
              ascii_lower_idemp ascii_lower_keeps_trimmed Hdistinct Hclean)
    as (Hdistinct' & Hclean' & _).
  by split.
Defined.

Lemma form_submit_posts_trimmed_note_witness :
  answers 1 (prisma desk_world)
  ∧ id_is_free (prisma desk_world)
  ∧ (∃ n w',
       NotesController.create (NoteModal.noteData draft) "u" desk_world
       = (Ok n, w')
       ∧ note_title n = "Shopping"
       ∧ note_content n = "milk"
       ∧ note_tags n = ["home"])
  ∧ NoteModal.request None blank_draft = None
  ∧ NoteModal.error
      (NoteModal.handleSubmit None (λ _, succeeded) blank_draft).1
    = "Title is required".
Proof.
  split; [apply sample_answers|]. split; [apply desk_free|]. split.
  - destruct (form_submit_posts_trimmed_note
                "u" None (λ _, succeeded) draft desk_world
                (sample_answers _ 1) desk_free)
      as (_ & Hposted & _).
    destruct Hposted as (_ & _ & Hstored); [done|].
    destruct Hstored as (n & w' & Hrun & Htitle & Hcontent & Htags & _);
      [done|].
    by exists n, w'.
  - destruct (form_submit_posts_trimmed_note
                "u" None (λ _, succeeded) blank_draft desk_world
                (sample_answers _ 1) desk_free)
      as (Hblank & _).
    by apply Hblank.
Defined.

Lemma toggleTag_flips_one_tag_witness :
  NoDup (Dashboard.selectedTags picked)
  ∧ Dashboard.selectedTags
      (Dashboard.toggleTag "work" (Dashboard.toggleTag "work" picked))
    ≡ₚ Dashboard.selectedTags picked
  ∧ "work" ∉ Dashboard.selectedTags (Dashboard.toggleTag "work" picked).
Proof.
  assert (NoDup (Dashboard.selectedTags picked)) as Hdistinct.
  { apply (bool_decide_unpack _). by vm_compute. }
  split; [exact Hdistinct|].
  destruct (toggleTag_flips_one_tag "work" picked Hdistinct)
    as (Hflip & _ & _ & _ & Hback & _).
  split; [exact Hback|].
  intros Hin. apply Hflip in Hin. apply Hin.
  apply list_elem_of_here.
Defined.


Lemma shelf_clock m :
  m ∈ rows (prisma shelf_world) → note_updatedAt m < now (prisma shelf_world).
Proof.
  revert m. apply Forall_forall. apply (bool_decide_unpack _). by vm_compute.
Qed.

Lemma changed_note_heads_the_next_search_witness :
  answers 4 (prisma shelf_world)
  ∧ (∀ m, m ∈ rows (prisma shelf_world) →
          note_updatedAt m < now (prisma shelf_world))
  ∧ cache_down shelf_world (length (trace shelf_world) + 2) = false
  ∧ ∃ n w1,
      NotesService.update "3" "u" retitle shelf_world = (Ok n, w1)
      ∧ note_id n = "3"
      ∧ head (page_of (NotesService.findAll "u" no_filter w1).1) = Some n.
Proof.
  split; [apply sample_answers|]. split; [apply shelf_clock|].
  split; [reflexivity|].
  destruct (changed_note_heads_the_next_search
              "u" no_filter shelf_world (sample_answers _ 4) shelf_clock
              eq_refl ltac:(done))
    as [_ Hupdated].
  destruct (Hupdated "3" retitle (sample_note "3" "u" ["work"] 3)
                     ltac:(by vm_compute) eq_refl eq_refl)
    as (n & w1 & Hrun & Hfirst).
  exists n, w1. split; [exact Hrun|].
  assert (note_id n = "3"
          ∧ where_matches (lower (prisma shelf_world))
              (NotesService.build_where "u" None None) n = true)
    as [Hid Hmatch].
  { clear Hfirst. vm_compute in Hrun. by injection Hrun as <- _. }
  split; [exact Hid|]. by apply Hfirst.
Defined.

(** * Accounts *)

Ltac unfold_accounts :=
  unfold Accounts.AuthService.register, Accounts.AuthService.login,
    Accounts.AuthService.refresh, Accounts.AuthService.validateUser,
    Accounts.AuthService.generateTokens,
    Accounts.AuthService.generateAccessToken,
    Accounts.AuthService.generateRefreshToken,
    Accounts.UsersService.create, Accounts.UsersService.findByEmail,
    Accounts.UsersService.findById, Accounts.UsersService.validatePassword,
    Accounts.PrismaUser.findUnique_email, Accounts.PrismaUser.findUnique_id,
    Accounts.PrismaUser.create, Accounts.bcrypt_hash_call,
    Accounts.db_call, Accounts.try_catch, Accounts.lift, Accounts.bind,
    Accounts.ret, Accounts.throw.

Ltac split_accounts :=
  repeat (simpl;
    match goal with
    | |- context [match ?x with _ => _ end] =>
      lazymatch x with
      | context [match _ with _ => _ end] => fail
      | _ => destruct x eqn:?
      end
    end); simpl.

Lemma generateTokens_users lib get u w :
  (Accounts.AuthService.generateTokens lib get u w).2 = w.
Proof. unfold_accounts. by split_accounts. Qed.

Lemma login_users lib get email password w :
  Accounts.users (Accounts.AuthService.login lib get email password w).2
  = Accounts.users w.
Proof. unfold_accounts. by split_accounts. Qed.

Lemma refresh_users lib get token w :
  Accounts.users (Accounts.AuthService.refresh lib get token w).2
  = Accounts.users w.
Proof. unfold_accounts. by split_accounts. Qed.

Lemma validateUser_users payload w :
  Accounts.users (Accounts.AuthService.validateUser payload w).2
  = Accounts.users w.
Proof. unfold_accounts. by split_accounts. Qed.

Lemma register_users lib get email password w :
  Accounts.users (Accounts.AuthService.register lib get email password w).2
  = Accounts.users w
  ∨ ∃ u,
      Accounts.users (Accounts.AuthService.register lib get email password w).2
      = Accounts.users w ++ [u]
      ∧ Accounts.user_email u = email
      ∧ existsb (Accounts.has_email email) (Accounts.users w) = false
      ∧ existsb (Accounts.has_user_id (Accounts.user_id u)) (Accounts.users w)
        = false.
Proof.
  unfold_accounts. split_accounts; try (by left);
    right; eexists; (split; [reflexivity|]); simpl;
    match goal with
    | H : _ || _ = false |- _ => apply orb_false_elim in H as [? ?]
    end; done.
Qed.

Lemma existsb_has_email_false email (l : list Accounts.User) :
  existsb (Accounts.has_email email) l = false →
  email ∉ Accounts.user_email <$> l.
Proof.
  intros Hnone Hin. apply list_elem_of_fmap in Hin as (u & -> & Hu).
  apply not_true_iff_false in Hnone. apply Hnone, existsb_exists.
  exists u. split; [by apply list_elem_of_In|].
  by apply bool_decide_eq_true.
Qed.

Lemma existsb_has_user_id_false id (l : list Accounts.User) :
  existsb (Accounts.has_user_id id) l = false →
  id ∉ Accounts.user_id <$> l.
Proof.
  intros Hnone Hin. apply list_elem_of_fmap in Hin as (u & -> & Hu).
  apply not_true_iff_false in Hnone. apply Hnone, existsb_exists.
  exists u. split; [by apply list_elem_of_In|].
  by apply bool_decide_eq_true.
Qed.

Lemma auth_serve_keeps_unique lib get req w :
  unique_users w →
  unique_users (auth_serve lib get req w)
  ∧ Accounts.users w `prefix_of` Accounts.users (auth_serve lib get req w).
Proof.
  intros Hunique. unfold unique_users in *.
  destruct req as [email password|email password|token|payload]; simpl.
  - destruct (register_users lib get email password w)
      as [->|(u & -> & Hemail & Hnew & Hid)].
    + done.
    + split; [|by apply prefix_app_r].
      destruct Hunique as [Hemails Hids].
      rewrite !fmap_app. simpl. split; apply NoDup_app.
      * split_and!; [done| |apply NoDup_singleton].
        intros e He ->%list_elem_of_singleton. rewrite Hemail in He.
        by apply existsb_has_email_false in Hnew.
      * split_and!; [done| |apply NoDup_singleton].
        intros i Hi ->%list_elem_of_singleton.
        by apply existsb_has_user_id_false in Hid.
  - by rewrite login_users.
  - by rewrite refresh_users.
  - by rewrite validateUser_users.
Qed.

(** X14: accounts stay unique.  Whatever is asked of the authentication
    service, in whatever order and whether or not the database and the
    libraries play along, no two users ever share an email or an id, and
    no user is removed or changed: the table only grows at its end. *)
Theorem accounts_stay_unique lib get reqs w (Hunique : unique_users w) :
  unique_users (auth_serve_all lib get reqs w)
  ∧ Accounts.users w `prefix_of` Accounts.users (auth_serve_all lib get reqs w).
Proof.
  revert w Hunique. induction reqs as [|req reqs IH]; intros w Hunique; simpl.
  - done.
  - destruct (auth_serve_keeps_unique lib get req w Hunique) as [Hstep Hgrow].
    destruct (IH _ Hstep) as [Hrest Hgrows].
    split; [done|]. by etrans.
Qed.

Lemma find_has_email_None email (l : list Accounts.User) :
  email ∉ Accounts.user_email <$> l →
  List.find (Accounts.has_email email) l = None
  ∧ existsb (Accounts.has_email email) l = false.
Proof.
  induction l as [|u l IH]; [done|]. simpl.
  intros [Hne Hnotin]%not_elem_of_cons. unfold Accounts.has_email at 1 3.
  rewrite bool_decide_eq_false_2 by done. by apply IH.
Qed.

Lemma find_has_email_Some email (l : list Accounts.User) :
  email ∈ Accounts.user_email <$> l →
  ∃ u, List.find (Accounts.has_email email) l = Some u
       ∧ u ∈ l ∧ Accounts.user_email u = email.
Proof.
  induction l as [|u l IH]; simpl.
  - by intros ?%elem_of_nil.
  - intros Hin. unfold Accounts.has_email at 1.
    case_bool_decide as Hu.
    + exists u. split_and!; [done|apply list_elem_of_here|done].
    + apply elem_of_cons in Hin as [?|Hin]; [done|].
      destruct (IH Hin) as (v & Hfind & Hv & Hemail).
      exists v. split_and!; [done|by apply list_elem_of_further|done].
Qed.

Lemma user_id_free_existsb w :
  user_id_is_free w →
  existsb (Accounts.has_user_id (Accounts.idgen w (Accounts.serial w)))
          (Accounts.users w) = false.
Proof.
  intros Hfree. apply not_true_is_false. intros Htaken.
  apply existsb_exists in Htaken as (u & Hin & Hid).
  apply bool_decide_eq_true in Hid.
  by apply (Hfree u); [apply list_elem_of_In|].
Qed.

(** X15: what a registration does when the database answers.  With an
    email that is taken it is refused as a bad request, 'User with this
    email already exists', and the table is as it was.  With a new email
    one user is stored, with the id the table assigns, the email given
    and the bcrypt hash of the password with 12 salt rounds, and this
    also when signing a token then fails; a response names the stored
    user, and there is one whenever signing succeeds. *)
Theorem register_stores_or_reports_conflict lib get email password w
    (Hup : users_answer 2 w) (Hfree : user_id_is_free w) :
  let run := Accounts.AuthService.register lib get email password w in
  let u :=
    Accounts.mkUser (Accounts.idgen w (Accounts.serial w)) email
      (Accounts.bcrypt_hash lib password 12
         (Accounts.salts w (Accounts.drawn w))) in
  (email ∈ Accounts.user_email <$> Accounts.users w →
     run.1 = Accounts.Throw
               (Accounts.BadRequestException
                  "User with this email already exists")
     ∧ Accounts.users run.2 = Accounts.users w)
  ∧ (email ∉ Accounts.user_email <$> Accounts.users w →
     Accounts.users run.2 = Accounts.users w ++ [u]
     ∧ (∀ resp, run.1 = Accounts.Ok resp →
          Accounts.user resp
          = Accounts.mkPublicUser (Accounts.user_id u) email)
     ∧ (jwt_signs lib → ∃ resp, run.1 = Accounts.Ok resp)).
Proof.
  intros run u.
  pose proof (Hup 0%nat ltac:(lia)) as Hup1. rewrite Nat.add_0_r in Hup1.
  pose proof (Hup 1%nat ltac:(lia)) as Hup2. rewrite Nat.add_1_r in Hup2.
  apply user_id_free_existsb in Hfree.
  split.
  - intros (v & Hfind & _)%find_has_email_Some. subst run.
    unfold_accounts. rewrite Hup1. simpl. by rewrite Hfind.
  - intros [Hfind Hnone]%find_has_email_None. subst run u.
    unfold_accounts. rewrite Hup1. simpl. rewrite Hfind. simpl.
    rewrite Hup2. simpl. rewrite Hfree, Hnone. simpl.
    split_and!.
    + by split_accounts.
    + intros resp. split_accounts; try done. by intros [= <-].
    + intros Hsigns.
      destruct (Hsigns
        (Accounts.mkJwtPayload (Accounts.idgen w (Accounts.serial w)) email
                               "access")
        (get "JWT_ACCESS_SECRET")
        (Accounts.interpolated (get "JWT_ACCESS_TTL") +:+ "s")
        (Accounts.clock w)) as [a Ha].
      destruct (Hsigns
        (Accounts.mkJwtPayload (Accounts.idgen w (Accounts.serial w)) email
                               "refresh")
        (get "JWT_REFRESH_SECRET")
        (Accounts.interpolated (get "JWT_REFRESH_TTL") +:+ "s")
        (Accounts.clock w)) as [r Hr].
      rewrite Ha. simpl. rewrite Hr. simpl. eauto.
Qed.

Lemma find_has_email_elem email (l : list Accounts.User) u :
  List.find (Accounts.has_email email) l = Some u →
  u ∈ l ∧ Accounts.user_email u = email.
Proof.
  intros [Hin Hu]%find_some. split; [by apply list_elem_of_In|].
  by apply bool_decide_eq_true in Hu.
Qed.

Lemma find_has_user_id_elem id (l : list Accounts.User) u :
  List.find (Accounts.has_user_id id) l = Some u →
  u ∈ l ∧ Accounts.user_id u = id.
Proof.
  intros [Hin Hu]%find_some. split; [by apply list_elem_of_In|].
  by apply bool_decide_eq_true in Hu.
Qed.

(** X16: logging in.  A login never changes the user table.  When it
    returns, the response names a user of the table with the email given
    whose stored hash bcrypt accepts for the password.  When the database
    answers and no user has that email, or bcrypt refuses the password
    for the first user with that email, the login fails with
    'Invalid credentials', unauthorized: the same exception and the same
    state after it in both cases, and no token is signed. *)
Theorem login_outcomes lib get email password w :
  let run := Accounts.AuthService.login lib get email password w in
  Accounts.users run.2 = Accounts.users w
  ∧ (∀ resp, run.1 = Accounts.Ok resp →
       ∃ u, u ∈ Accounts.users w
            ∧ Accounts.user_email u = email
            ∧ Accounts.bcrypt_compare lib password (Accounts.user_password u)
              = true
            ∧ Accounts.user resp
              = Accounts.mkPublicUser (Accounts.user_id u) email)
  ∧ (Accounts.faults w (Accounts.calls w) = None →
     match List.find (Accounts.has_email email) (Accounts.users w) with
     | Some u =>
       Accounts.bcrypt_compare lib password (Accounts.user_password u) = false
     | None => True
     end →
     run = (Accounts.Throw (Accounts.UnauthorizedException "Invalid credentials"),
            Accounts.answered w)).
Proof.
  intros run. split; [apply login_users|]. subst run. split.
  - intros resp. unfold_accounts.
    destruct (Accounts.faults w (Accounts.calls w)); [done|]. simpl.
    destruct (List.find _ _) as [u|] eqn:Hfind; [|done]. simpl.
    apply find_has_email_elem in Hfind as [Hin Hemail].
    destruct (Accounts.bcrypt_compare lib password (Accounts.user_password u))
      eqn:Hvalid; [|done]. simpl.
    split_accounts; try done. intros [= <-]. exists u. simpl.
    by rewrite Hemail.
  - intros Hup Hwrong. unfold_accounts. rewrite Hup. simpl.
    destruct (List.find _ _) as [u|]; [|done]. simpl. by rewrite Hwrong.
Qed.

(** X17: refreshing.  A refresh never changes the user table, and
    whatever goes wrong (the token does not verify, it is not a refresh
    token, its user is gone, the database or the signing fails) the
    caller sees one and the same exception: unauthorized, 'Invalid refresh
    token'.  When it returns, the token verified under the refresh secret
    with a payload of type refresh, and the response names the user of the
    table whose id is the payload's subject. *)
Theorem refresh_masks_every_failure lib get refreshToken w :
  let run := Accounts.AuthService.refresh lib get refreshToken w in
  Accounts.users run.2 = Accounts.users w
  ∧ (∀ e, run.1 = Accounts.Throw e →
          e = Accounts.UnauthorizedException "Invalid refresh token")
  ∧ (∀ resp, run.1 = Accounts.Ok resp →
       ∃ payload u,
         Accounts.jwt_verify lib refreshToken (get "JWT_REFRESH_SECRET")
                             (Accounts.clock w) = Accounts.Ok payload
         ∧ Accounts.payload_type payload = "refresh"
         ∧ u ∈ Accounts.users w
         ∧ Accounts.user_id u = Accounts.sub payload
         ∧ Accounts.user resp
           = Accounts.mkPublicUser (Accounts.user_id u) (Accounts.user_email u)).
Proof.
  intros run. split; [apply refresh_users|]. subst run. split.
  - intros e. unfold_accounts. split_accounts; congruence.
  - intros resp. unfold_accounts.
    destruct (Accounts.jwt_verify _ _ _ _) as [payload|] eqn:Hverify; [|done].
    simpl. case_bool_decide as Htype; [done|].
    simpl. destruct (Accounts.faults w (Accounts.calls w)); [done|]. simpl.
    destruct (List.find _ _) as [u|] eqn:Hfind; [|done]. simpl.
    apply find_has_user_id_elem in Hfind as [Hin Hid].
    split_accounts; try done. intros [= <-]. by exists payload, u.
Qed.

Lemma find_has_email_app_new (l : list Accounts.User) u :
  existsb (Accounts.has_email (Accounts.user_email u)) l = false →
  List.find (Accounts.has_email (Accounts.user_email u)) (l ++ [u]) = Some u.
Proof.
  induction l as [|v l IH]; simpl.
  - intros _. unfold Accounts.has_email. by rewrite bool_decide_eq_true_2.
  - intros [Hv Hl]%orb_false_elim. rewrite Hv. by apply IH.
Qed.

(** X18: who has registered can log in.  When the database answers,
    signing yields tokens and bcrypt accepts a password against its own
    hashes, a registration with a new email succeeds, a login with the
    same email and password right after it succeeds and names the same
    user, a login with a password bcrypt refuses for the stored hash fails
    with 'Invalid credentials', and a second registration with that email
    is refused as a bad request. *)
Theorem registered_user_can_log_in lib get email password w
    (Hbcrypt : bcrypt_accepts_its_hashes lib)
    (Hsigns : jwt_signs lib)
    (Hup : users_answer 3 w)
    (Hfree : user_id_is_free w)
    (Hnew : email ∉ Accounts.user_email <$> Accounts.users w) :
  ∃ resp w1 again w2 u,
    Accounts.AuthService.register lib get email password w
    = (Accounts.Ok resp, w1)
    ∧ Accounts.users w1 = Accounts.users w ++ [u]
    ∧ Accounts.AuthService.login lib get email password w1
      = (Accounts.Ok again, w2)
    ∧ Accounts.user again = Accounts.user resp
    ∧ Accounts.public_email (Accounts.user resp) = email
    ∧ (∀ other,
         Accounts.bcrypt_compare lib other (Accounts.user_password u) = false →
         (Accounts.AuthService.login lib get email other w1).1
         = Accounts.Throw (Accounts.UnauthorizedException "Invalid credentials"))
    ∧ ∀ other,
        (Accounts.AuthService.register lib get email other w1).1
        = Accounts.Throw (Accounts.BadRequestException
                            "User with this email already exists").
Proof.
  pose proof (Hup 0%nat ltac:(lia)) as Hup1. rewrite Nat.add_0_r in Hup1.
  pose proof (Hup 1%nat ltac:(lia)) as Hup2. rewrite Nat.add_1_r in Hup2.
  pose proof (Hup 2%nat ltac:(lia)) as Hup3.
  replace (Accounts.calls w + 2)%nat with (S (S (Accounts.calls w))) in Hup3
    by lia.
  apply user_id_free_existsb in Hfree.
  apply find_has_email_None in Hnew as [Hfind Hnone].
  set (u := Accounts.mkUser (Accounts.idgen w (Accounts.serial w)) email
              (Accounts.bcrypt_hash lib password 12
                 (Accounts.salts w (Accounts.drawn w)))).
  destruct (Hsigns
    (Accounts.mkJwtPayload (Accounts.user_id u) email "access")
    (get "JWT_ACCESS_SECRET")
    (Accounts.interpolated (get "JWT_ACCESS_TTL") +:+ "s")
    (Accounts.clock w)) as [a Ha].
  destruct (Hsigns
    (Accounts.mkJwtPayload (Accounts.user_id u) email "refresh")
    (get "JWT_REFRESH_SECRET")
    (Accounts.interpolated (get "JWT_REFRESH_TTL") +:+ "s")
    (Accounts.clock w)) as [r Hr].
  simpl in Ha, Hr.
  assert (List.find (Accounts.has_email email) (Accounts.users w ++ [u])
          = Some u) as Hstored
    by (by apply (find_has_email_app_new (Accounts.users w) u)).
  eexists _, _, _, _, u. subst u. simpl in *. split_and!.
  - unfold_accounts. rewrite Hup1. simpl. rewrite Hfind. simpl.
    rewrite Hup2. simpl. rewrite Hfree, Hnone. simpl.
    rewrite Ha. simpl. rewrite Hr. simpl. reflexivity.
  - done.
  - unfold_accounts. simpl. rewrite Hup3. simpl. rewrite Hstored. simpl.
    rewrite Hbcrypt. simpl. rewrite Ha. simpl. rewrite Hr. simpl.
    reflexivity.
  - done.
  - done.
  - intros other Hother. unfold_accounts. simpl. rewrite Hup3. simpl.
    rewrite Hstored. simpl. by rewrite Hother.
  - intros other. unfold_accounts. simpl. rewrite Hup3. simpl.
    by rewrite Hstored.
Qed.

(** ** Tokens *)

Lemma generateTokens_returns lib get u w resp w' :
  Accounts.AuthService.generateTokens lib get u w = (Accounts.Ok resp, w') →
  Accounts.jwt_sign lib
    (Accounts.mkJwtPayload (Accounts.user_id u) (Accounts.user_email u) "access")
    (get "JWT_ACCESS_SECRET")
    (Accounts.interpolated (get "JWT_ACCESS_TTL") +:+ "s") (Accounts.clock w)
  = Accounts.Ok (Accounts.accessToken resp)
  ∧ Accounts.jwt_sign lib
      (Accounts.mkJwtPayload (Accounts.user_id u) (Accounts.user_email u)
                             "refresh")
      (get "JWT_REFRESH_SECRET")
      (Accounts.interpolated (get "JWT_REFRESH_TTL") +:+ "s") (Accounts.clock w)
    = Accounts.Ok (Accounts.refreshToken resp)
  ∧ Accounts.user resp
    = Accounts.mkPublicUser (Accounts.user_id u) (Accounts.user_email u).
Proof.
  unfold_accounts.
  destruct (Accounts.jwt_sign lib (Accounts.mkJwtPayload _ _ "access") _ _ _)
    as [a|]; [|done]. simpl.
  destruct (Accounts.jwt_sign lib (Accounts.mkJwtPayload _ _ "refresh") _ _ _)
    as [r|]; [|done]. simpl.
  by intros [= <- _].
Qed.

(** Whoever a response names, its tokens were signed for: registration
    and login both end in [generateTokens]. *)
Lemma issued_by_generateTokens lib get email password w resp w1 :
  Accounts.AuthService.login lib get email password w = (Accounts.Ok resp, w1)
  ∨ Accounts.AuthService.register lib get email password w
    = (Accounts.Ok resp, w1) →
  ∃ u w0,
    Accounts.AuthService.generateTokens lib get u w0 = (Accounts.Ok resp, w1)
    ∧ u ∈ Accounts.users w1.
Proof.
  intros [Hrun|Hrun]; revert Hrun.
  - unfold Accounts.AuthService.login, Accounts.UsersService.findByEmail,
      Accounts.UsersService.validatePassword,
      Accounts.PrismaUser.findUnique_email, Accounts.db_call, Accounts.bind,
      Accounts.ret, Accounts.throw.
    destruct (Accounts.faults w (Accounts.calls w)); [done|]. simpl.
    destruct (List.find _ _) as [u|] eqn:Hfind; [|done]. simpl.
    destruct (Accounts.bcrypt_compare _ _ _); [|done]. simpl.
    intros Hrun. exists u, (Accounts.answered w). split; [done|].
    apply (f_equal snd) in Hrun. simpl in Hrun.
    rewrite generateTokens_users in Hrun. subst w1. simpl.
    by apply find_has_email_elem in Hfind as [? _].
  - unfold Accounts.AuthService.register, Accounts.UsersService.create,
      Accounts.PrismaUser.findUnique_email, Accounts.PrismaUser.create,
      Accounts.bcrypt_hash_call, Accounts.db_call, Accounts.try_catch,
      Accounts.bind, Accounts.ret, Accounts.throw.
    destruct (Accounts.faults w (Accounts.calls w));
      [simpl; by destruct (includes _ _)|]. simpl.
    destruct (List.find _ _) as [v|]; [done|]. simpl.
    destruct (Accounts.faults w (S (Accounts.calls w)));
      [simpl; by destruct (includes _ _)|]. simpl.
    destruct (_ || _); [simpl; by destruct (includes _ _)|]. simpl.
    match goal with
    | |- context [Accounts.AuthService.generateTokens lib get ?u ?w0] =>
      destruct (Accounts.AuthService.generateTokens lib get u w0)
        as [[resp'|e] w'] eqn:Htokens;
      [|simpl; by destruct (includes _ _)];
      intros [= <- <-]; exists u, w0; split; [done|];
      apply (f_equal snd) in Htokens; simpl in Htokens;
      rewrite generateTokens_users in Htokens; subst w'; simpl
    end.
    rewrite elem_of_app, list_elem_of_singleton. by right.
Qed.

Lemma refresh_returns lib get refreshToken w resp w' :
  Accounts.AuthService.refresh lib get refreshToken w = (Accounts.Ok resp, w') →
  ∃ payload u,
    Accounts.jwt_verify lib refreshToken (get "JWT_REFRESH_SECRET")
                        (Accounts.clock w) = Accounts.Ok payload
    ∧ Accounts.payload_type payload = "refresh"
    ∧ List.find (Accounts.has_user_id (Accounts.sub payload)) (Accounts.users w)
      = Some u
    ∧ Accounts.AuthService.generateTokens lib get u (Accounts.answered w)
      = (Accounts.Ok resp, w').
Proof.
  unfold Accounts.AuthService.refresh, Accounts.AuthService.validateUser,
    Accounts.UsersService.findById, Accounts.PrismaUser.findUnique_id,
    Accounts.db_call, Accounts.try_catch, Accounts.lift, Accounts.bind,
    Accounts.ret, Accounts.throw.
  destruct (Accounts.jwt_verify _ _ _ _) as [payload|] eqn:Hverify; [|done].
  simpl. case_bool_decide as Htype; [done|].
  simpl. destruct (Accounts.faults w (Accounts.calls w)); [done|]. simpl.
  destruct (List.find _ _) as [u|] eqn:Hfind; [|done]. simpl.
  destruct (Accounts.AuthService.generateTokens lib get u (Accounts.answered w))
    as [[resp'|e] w''] eqn:Htokens; [|done].
  intros [= <- <-]. by exists payload, u.
Qed.

Lemma find_has_user_id_unique id (l : list Accounts.User) u :
  NoDup (Accounts.user_id <$> l) → u ∈ l → Accounts.user_id u = id →
  List.find (Accounts.has_user_id id) l = Some u.
Proof.
  induction l as [|v l IH]; simpl.
  - by intros _ ?%elem_of_nil.
  - intros [Hnotin Hl]%NoDup_cons Hin Hid. unfold Accounts.has_user_id at 1.
    apply elem_of_cons in Hin as [->|Hin].
    + by rewrite bool_decide_eq_true_2.
    + rewrite bool_decide_eq_false_2; [by apply IH|].
      intros Hv. apply Hnotin. rewrite Hv, <- Hid.
      by apply list_elem_of_fmap_2.
Qed.

(** X19: the tokens of a response.  Let a login or a registration have
    returned, with a jsonwebtoken whose [verify] returns the subject and
    the type that were signed.  Then the access token is never accepted
    for a refresh, at whatever time and whatever the secrets are; the
    refresh token refreshes no user but the one it was issued to; and it
    does refresh that user, whenever it verifies, the database answers,
    signing yields tokens, and the user table has only grown and has
    unique ids. *)
Theorem tokens_at_refresh lib get email password w resp w1
    (Hclaims : jwt_keeps_claims lib)
    (Hissued :
       Accounts.AuthService.login lib get email password w
       = (Accounts.Ok resp, w1)
       ∨ Accounts.AuthService.register lib get email password w
         = (Accounts.Ok resp, w1)) :
  (∀ w2,
     (Accounts.AuthService.refresh lib get (Accounts.accessToken resp) w2).1
     = Accounts.Throw (Accounts.UnauthorizedException "Invalid refresh token"))
  ∧ (∀ w2 again,
       (Accounts.AuthService.refresh lib get (Accounts.refreshToken resp) w2).1
       = Accounts.Ok again →
       Accounts.public_id (Accounts.user again)
       = Accounts.public_id (Accounts.user resp))
  ∧ (∀ w2 payload,
       Accounts.jwt_verify lib (Accounts.refreshToken resp)
                           (get "JWT_REFRESH_SECRET") (Accounts.clock w2)
       = Accounts.Ok payload →
       Accounts.faults w2 (Accounts.calls w2) = None →
       jwt_signs lib →
       Accounts.users w1 `prefix_of` Accounts.users w2 →
       NoDup (Accounts.user_id <$> Accounts.users w2) →
       ∃ again w3,
         Accounts.AuthService.refresh lib get (Accounts.refreshToken resp) w2
         = (Accounts.Ok again, w3)
         ∧ Accounts.user again = Accounts.user resp).
Proof.
  destruct (issued_by_generateTokens _ _ _ _ _ _ _ Hissued)
    as (u & w0 & Htokens & Hu).
  apply generateTokens_returns in Htokens as (Haccess & Hrefresh & Huser).
  split_and!.
  - intros w2.
    destruct (Accounts.AuthService.refresh lib get (Accounts.accessToken resp) w2)
      as [[again|e] w3] eqn:Hrun; simpl.
    + apply refresh_returns in Hrun as (payload & v & Hverify & Htype & _).
      destruct (Hclaims _ _ _ _ _ _ _ _ Haccess Hverify) as [_ Hsame].
      simpl in Hsame. congruence.
    + revert Hrun. unfold_accounts. split_accounts; congruence.
  - intros w2 again Hrun.
    destruct (Accounts.AuthService.refresh lib get (Accounts.refreshToken resp) w2)
      as [[again'|e] w3] eqn:Hrun'; simpl in Hrun; [|done].
    injection Hrun as ->.
    apply refresh_returns in Hrun' as (payload & v & Hverify & _ & Hfind & Hagain).
    apply generateTokens_returns in Hagain as (_ & _ & Hagain).
    destruct (Hclaims _ _ _ _ _ _ _ _ Hrefresh Hverify) as [Hsub _].
    simpl in Hsub. apply find_has_user_id_elem in Hfind as [_ Hid].
    rewrite Hagain, Huser. simpl. congruence.
  - intros w2 payload Hverify Hup Hsigns Hgrown Hids.
    destruct (Hclaims _ _ _ _ _ _ _ _ Hrefresh Hverify) as [Hsub Htype].
    simpl in Hsub, Htype.
    assert (List.find (Accounts.has_user_id (Accounts.sub payload))
                      (Accounts.users w2) = Some u) as Hfind.
    { apply find_has_user_id_unique; [done| |done].
      destruct Hgrown as [rest ->]. apply elem_of_app. by left. }
    destruct (Hsigns
      (Accounts.mkJwtPayload (Accounts.user_id u) (Accounts.user_email u)
                             "access")
      (get "JWT_ACCESS_SECRET")
      (Accounts.interpolated (get "JWT_ACCESS_TTL") +:+ "s")
      (Accounts.clock w2)) as [a Ha].
    destruct (Hsigns
      (Accounts.mkJwtPayload (Accounts.user_id u) (Accounts.user_email u)
                             "refresh")
      (get "JWT_REFRESH_SECRET")
      (Accounts.interpolated (get "JWT_REFRESH_TTL") +:+ "s")
      (Accounts.clock w2)) as [r Hr].
    eexists _, _. split.
    + unfold_accounts. rewrite Hverify. simpl.
      rewrite bool_decide_eq_false_2 by (by intros ?). simpl.
      rewrite Hup. simpl. rewrite Hfind. simpl.
      rewrite Ha. simpl. rewrite Hr. simpl. reflexivity.
    + by rewrite Huser.
Qed.

(** ** The account properties at work on the sample data *)

Lemma sample_bcrypt : bcrypt_accepts_its_hashes sample_lib.
Proof. intros data saltRounds salt. apply prefix_append. Qed.

Lemma sample_signs : jwt_signs sample_lib.
Proof. intros payload secret options t. by eexists. Qed.

Lemma sample_claims : jwt_keeps_claims sample_lib.
Proof.
  intros payload secret options t token secret' t' payload' Hsign Hverify.
  simpl in Hsign. injection Hsign as <-.
  case_bool_decide as Hrefresh; [|case_bool_decide as Haccess];
    simpl in Hverify; [| |done]; injection Hverify as <-; by simpl.
Qed.

Lemma sample_users_answer l k : users_answer k (sample_accounts l).
Proof. by intros i _. Qed.

Lemma sample_user_id_free : user_id_is_free (sample_accounts []).
Proof. by intros u ?%elem_of_nil. Qed.

Lemma accounts_stay_unique_witness :
  unique_users (sample_accounts [])
  ∧ unique_users
      (auth_serve_all sample_lib sample_config
         [register_as "ann@example.org" "secret1";
          register_as "ann@example.org" "secret2";
          login_as "ann@example.org" "secret1"]
         (sample_accounts []))
  ∧ length (Accounts.users
              (auth_serve_all sample_lib sample_config
                 [register_as "ann@example.org" "secret1";
                  register_as "ann@example.org" "secret2";
                  login_as "ann@example.org" "secret1"]
                 (sample_accounts []))) = 1%nat.
Proof.
  assert (unique_users (sample_accounts [])) as Hunique.
  { split; apply NoDup_nil_2. }
  split; [exact Hunique|]. split; [|reflexivity].
  apply (accounts_stay_unique sample_lib sample_config _ _ Hunique).
Defined.

Lemma register_stores_or_reports_conflict_witness :
  users_answer 2 (sample_accounts [])
  ∧ user_id_is_free (sample_accounts [])
  ∧ Accounts.users
      (Accounts.AuthService.register sample_lib sample_config
         "ann@example.org" "secret1" (sample_accounts [])).2
    = [Accounts.mkUser "u0" "ann@example.org" "secret1$salt0"].
Proof.
  split; [apply sample_users_answer|]. split; [apply sample_user_id_free|].
  destruct (register_stores_or_reports_conflict
              sample_lib sample_config "ann@example.org" "secret1"
              (sample_accounts []) (sample_users_answer _ 2)
              sample_user_id_free)
    as [_ Hstored].
  destruct Hstored as [Hstored _]; [by intros ?%elem_of_nil|].
  exact Hstored.
Defined.

Lemma registered_user_can_log_in_witness :
  bcrypt_accepts_its_hashes sample_lib
  ∧ jwt_signs sample_lib
  ∧ users_answer 3 (sample_accounts [])
  ∧ user_id_is_free (sample_accounts [])
  ∧ ∃ resp w1 again w2,
      Accounts.AuthService.register sample_lib sample_config
        "ann@example.org" "secret1" (sample_accounts [])
      = (Accounts.Ok resp, w1)
      ∧ Accounts.AuthService.login sample_lib sample_config
          "ann@example.org" "secret1" w1
        = (Accounts.Ok again, w2)
      ∧ Accounts.user again = Accounts.user resp.
Proof.
  split; [apply sample_bcrypt|]. split; [apply sample_signs|].
  split; [apply sample_users_answer|]. split; [apply sample_user_id_free|].
  destruct (registered_user_can_log_in
              sample_lib sample_config "ann@example.org" "secret1"
              (sample_accounts []) sample_bcrypt sample_signs
              (sample_users_answer _ 3) sample_user_id_free)
    as (resp & w1 & again & w2 & u & Hregister & _ & Hlogin & Hsame & _).
  { by intros ?%elem_of_nil. }
  by exists resp, w1, again, w2.
Defined.

Lemma tokens_at_refresh_witness :
  jwt_keeps_claims sample_lib
  ∧ ∃ resp w1,
      Accounts.AuthService.register sample_lib sample_config
        "ann@example.org" "secret1" (sample_accounts [])
      = (Accounts.Ok resp, w1)
      ∧ (Accounts.AuthService.refresh sample_lib sample_config
           (Accounts.accessToken resp) w1).1
        = Accounts.Throw (Accounts.UnauthorizedException "Invalid refresh token")
      ∧ ∃ again w2,
          Accounts.AuthService.refresh sample_lib sample_config
            (Accounts.refreshToken resp) w1
          = (Accounts.Ok again, w2)
          ∧ Accounts.user again = Accounts.user resp.
Proof.
  split; [apply sample_claims|].
  destruct (Accounts.AuthService.register sample_lib sample_config
              "ann@example.org" "secret1" (sample_accounts []))
    as [[resp|e] w1] eqn:Hrun; [|by vm_compute in Hrun].
  exists resp, w1. split; [reflexivity|].
  destruct (tokens_at_refresh
              sample_lib sample_config "ann@example.org" "secret1"
              (sample_accounts []) resp w1 sample_claims (or_intror Hrun))
    as (Haccess & _ & Hrefresh).
  split; [apply Haccess|].
  vm_compute in Hrun. injection Hrun as <- <-.
  eapply Hrefresh.
  - reflexivity.
  - reflexivity.
  - apply sample_signs.
  - done.
  - apply NoDup_singleton.
Defined.

(** * The client's session *)

Lemma api_retry_fuel {A} (exchange : Exchange A) fuel config st :
  AuthContext.api (S fuel) exchange true config st
  = AuthContext.api 1 exchange true config st.
Proof.
  simpl. destruct (answer exchange _ _) as [data|status]; [done|].
  by rewrite andb_false_r.
Qed.

Lemma api_fuel {A} (exchange : Exchange A) fuel config st :
  (2 ≤ fuel)%nat →
  AuthContext.api fuel exchange false config st
  = AuthContext.api 2 exchange false config st.
Proof.
  intros Hfuel. destruct fuel as [|[|fuel]]; [lia|lia|].
  cbn [AuthContext.api].
  destruct (answer exchange _ _) as [data|status]; [done|].
  destruct (_ && _); [|done]. destruct (truthy _); [|done].
  destruct (refresh_answer exchange _ _) as [response|]; [|done].
  apply api_retry_fuel.
Qed.

(** X20: a request of the client is sent at most twice.  With fuel for
    two rounds a request through [api] ends, and more fuel changes
    nothing.  It is sent once with the header of the stored access token,
    or with the header of its config when no token is stored, and a
    second time only after a 401 and a successful refresh: then with the
    token that refresh returned, or, when that token is the empty string,
    with the header it was first sent with.  At most one refresh is
    posted, with the stored refresh token.  The request never changes the
    user of the provider and never stores another refresh token: the
    refresh token is kept as it is, or, when the refresh was refused, both
    tokens are removed, the window is sent to /login and the caller gets
    the 401. *)
Theorem request_is_sent_at_most_twice {A} (exchange : Exchange A) fuel
    config st
    (Hfuel : (2 ≤ fuel)%nat) :
  let first := AuthContext.authorization config st in
  ∃ reply st',
    AuthContext.api fuel exchange false config st = Some (reply, st')
    ∧ (∃ headers,
         AuthContext.sent st' = AuthContext.sent st ++ headers
         ∧ (headers = [first]
            ∨ ∃ response,
                headers
                = [first;
                   if truthy (Some (Accounts.accessToken response))
                   then Some ("Bearer " +:+ Accounts.accessToken response)
                   else first]
                ∧ answer exchange (length (AuthContext.sent st)) first
                  = rejected (Some 401)
                ∧ refresh_answer exchange (length (AuthContext.refreshes st))
                    (default EmptyString (AuthContext.refreshToken st))
                  = fulfilled response
                ∧ AuthContext.accessToken st'
                  = Some (Accounts.accessToken response)))
    ∧ (AuthContext.refreshes st' = AuthContext.refreshes st
       ∨ ∃ token,
           AuthContext.refreshToken st = Some token
           ∧ AuthContext.refreshes st' = AuthContext.refreshes st ++ [token])
    ∧ AuthContext.user st' = AuthContext.user st
    ∧ (AuthContext.refreshToken st' = AuthContext.refreshToken st
       ∧ AuthContext.location st' = AuthContext.location st
       ∨ AuthContext.refreshToken st' = None
         ∧ AuthContext.accessToken st' = None
         ∧ AuthContext.location st' = Some "/login"
         ∧ reply = rejected (Some 401)).
Proof.
  intros first. rewrite api_fuel by done. cbn [AuthContext.api]. fold first.
  destruct (answer exchange _ _) as [data|status] eqn:Hfirst.
  { eexists _, _. split; [reflexivity|]. simpl.
    split_and!; [exists [first]; split; [done|by left]
                |by left|done|by left]. }
  destruct (bool_decide (status = Some 401)) eqn:Hstatus; simpl.
  2: { eexists _, _. split; [reflexivity|]. simpl.
       split_and!; [exists [first]; split; [done|by left]
                   |by left|done|by left]. }
  apply bool_decide_eq_true in Hstatus as ->.
  destruct (AuthContext.refreshToken st) as [token|] eqn:Htoken; simpl.
  2: { eexists _, _. split; [reflexivity|]. simpl.
       split_and!; [exists [first]; split; [done|by left]
                   |by left|done|by left]. }
  destruct token as [|c rest]; simpl.
  { eexists _, _. split; [reflexivity|]. simpl.
    split_and!; [exists [first]; split; [done|by left]
                |by left|done|by left]. }
  destruct (refresh_answer exchange _ _) as [response|] eqn:Hrefresh.
  2: { eexists _, _. split; [reflexivity|]. simpl.
       split_and!; [exists [first]; split; [done|by left]
                   |right; by eexists|done|by right]. }
  rewrite length_app, Nat.add_1_r.
  unfold AuthContext.authorization at 1 2. cbn [AuthContext.accessToken].
  destruct (answer exchange (S _) _) as [data|status] eqn:Hsecond.
  - eexists _, _. split; [reflexivity|]. simpl. split_and!.
    + eexists [_; _].
      split; [by rewrite <- app_assoc|]. right. by exists response.
    + right. by eexists.
    + done.
    + by left.
  - rewrite andb_false_r. eexists _, _. split; [reflexivity|]. simpl.
    split_and!.
    + eexists [_; _].
      split; [by rewrite <- app_assoc|]. right. by exists response.
    + right. by eexists.
    + done.
    + by left.
Qed.

Lemma api_keeps_user {A} (exchange : Exchange A) fuel retry config st
    reply st' :
  AuthContext.api fuel exchange retry config st = Some (reply, st') →
  AuthContext.user st' = AuthContext.user st.
Proof.
  revert retry config st.
  induction fuel as [|fuel IH]; intros retry config st; [done|].
  cbn [AuthContext.api].
  destruct (answer exchange _ _) as [data|status]; [by intros [= <- <-]|].
  destruct (_ && _); [|by intros [= <- <-]].
  destruct (truthy _); [|by intros [= <- <-]].
  destruct (refresh_answer exchange _ _) as [response|];
    [|by intros [= <- <-]].
  intros Hrun. by apply IH in Hrun.
Qed.

(** What [api] hands back as the data of a response is what the server
    answered to the request sent last. *)
Lemma api_fulfilled {A} (exchange : Exchange A) fuel retry config st
    data st' :
  AuthContext.api fuel exchange retry config st = Some (fulfilled data, st') →
  ∃ earlier header,
    AuthContext.sent st' = earlier ++ [header]
    ∧ answer exchange (length earlier) header = fulfilled data.
Proof.
  revert retry config st.
  induction fuel as [|fuel IH]; intros retry config st; [done|].
  cbn [AuthContext.api].
  destruct (answer exchange _ _) as [data'|status] eqn:Hanswer.
  { intros [= <- <-]. simpl. eauto. }
  destruct (_ && _); [|by intros [= <- <-]].
  destruct (truthy _); [|by intros [= <- <-]].
  destruct (refresh_answer exchange _ _) as [response|];
    [|by intros [= <- <-]].
  intros Hrun. by apply IH in Hrun.
Qed.

Lemma api_ends {A} (exchange : Exchange A) fuel config st :
  (2 ≤ fuel)%nat → is_Some (AuthContext.api fuel exchange false config st).
Proof.
  intros Hfuel. rewrite api_fuel by done. cbn [AuthContext.api].
  destruct (answer exchange _ _) as [data|status]; [done|].
  destruct (_ && _); [|done]. destruct (truthy _); [|done].
  destruct (refresh_answer exchange _ _) as [response|]; [|done].
  destruct (answer exchange _ _) as [data|status']; [done|].
  by rewrite andb_false_r.
Qed.

(** X21: the session of the client.  A login ends, given fuel for two
    rounds.  When it succeeds, the server has answered the request sent
    last with a response; the provider holds the user of that response
    and the store holds its two tokens, and the next request carries the
    access token as its bearer; when it fails the user of the provider is
    as before.  After a logout there is no user and no token, and every
    request goes out once, without an [Authorization] header and without
    a refresh, whatever the server answers. *)
Theorem session_of_the_client {A} (exchange : Exchange Accounts.AuthResponse)
    (later : Exchange A) fuel st
    (Hfuel : (2 ≤ fuel)%nat) :
  (∃ reply st',
     AuthContext.login fuel exchange st = Some (reply, st')
     ∧ match reply with
       | fulfilled _ =>
         ∃ response earlier header,
           AuthContext.sent st' = earlier ++ [header]
           ∧ answer exchange (length earlier) header = fulfilled response
           ∧ AuthContext.accessToken st' = Some (Accounts.accessToken response)
           ∧ AuthContext.refreshToken st'
             = Some (Accounts.refreshToken response)
           ∧ AuthContext.user st' = Some (Accounts.user response)
           ∧ (Accounts.accessToken response ≠ EmptyString →
              ∀ config,
                AuthContext.authorization config st'
                = Some ("Bearer " +:+ Accounts.accessToken response))
       | rejected _ => AuthContext.user st' = AuthContext.user st
       end)
  ∧ AuthContext.user (AuthContext.logout st) = None
  ∧ AuthContext.accessToken (AuthContext.logout st) = None
  ∧ AuthContext.refreshToken (AuthContext.logout st) = None
  ∧ AuthContext.api fuel later false None (AuthContext.logout st)
    = Some (answer later (length (AuthContext.sent st)) None,
            AuthContext.mkState None None None (AuthContext.location st)
                                (AuthContext.sent st ++ [None])
                                (AuthContext.refreshes st)).
Proof.
  split_and!; try done.
  - destruct (api_ends exchange fuel None st Hfuel) as [[reply st'] Hrun].
    unfold AuthContext.login. rewrite Hrun.
    destruct reply as [response|status]; eexists _, _;
      (split; [reflexivity|]); simpl.
    + destruct (api_fulfilled _ _ _ _ _ _ _ Hrun)
        as (earlier & header & Hsent & Hanswer).
      exists response, earlier, header. split_and!; try done.
      intros Htoken config. unfold AuthContext.authorization. simpl.
      by destruct (Accounts.accessToken response).
    + by apply api_keeps_user in Hrun.
  - destruct fuel as [|fuel]; [lia|]. cbn [AuthContext.api]. simpl.
    unfold AuthContext.authorization. simpl.
    destruct (answer later _ _) as [data|status]; [done|].
    by destruct (_ && _).
Qed.

(** ** The session properties at work on the sample data *)

Lemma request_is_sent_at_most_twice_witness :
  (2 ≤ 2)%nat
  ∧ (∃ reply st',
       AuthContext.api 2 renewing false None stale_session = Some (reply, st')
       ∧ AuthContext.user st' = AuthContext.user stale_session
       ∧ AuthContext.sent st' = [Some "Bearer old"; Some "Bearer new"])
  ∧ (∃ reply st',
       AuthContext.api 2 renewing_blank false None stale_session
       = Some (reply, st')
       ∧ AuthContext.sent st' = [Some "Bearer old"; Some "Bearer old"]).
Proof.
  split; [done|]. split.
  - destruct (request_is_sent_at_most_twice renewing 2 None stale_session
                                            (le_n 2))
      as (reply & st' & Hrun & _ & _ & Huser & _).
    exists reply, st'. split_and!; [exact Hrun|exact Huser|].
    vm_compute in Hrun. by injection Hrun as <- <-.
  - destruct (request_is_sent_at_most_twice renewing_blank 2 None
                                            stale_session (le_n 2))
      as (reply & st' & Hrun & _).
    exists reply, st'. split; [exact Hrun|].
    vm_compute in Hrun. by injection Hrun as <- <-.
Defined.

Lemma session_of_the_client_witness :
  (2 ≤ 2)%nat
  ∧ (∃ reply st',
       AuthContext.login 2 welcoming stale_session = Some (reply, st')
       ∧ AuthContext.accessToken st' = Some "new"
       ∧ AuthContext.refreshToken st' = Some "r2"
       ∧ AuthContext.user st' = Some (Accounts.mkPublicUser "u0" "ann"))
  ∧ AuthContext.api 2 renewing false None (AuthContext.logout stale_session)
    = Some (rejected (Some 401),
            AuthContext.mkState None None None None [None] []).
Proof.
  split; [done|].
  destruct (session_of_the_client welcoming renewing 2 stale_session (le_n 2))
    as (Hlogin & _ & _ & _ & Hlogout).
  split; [|exact Hlogout].
  destruct Hlogin as (reply & st' & Hrun & _).
  exists reply, st'. split; [exact Hrun|].
  vm_compute in Hrun. by injection Hrun as <- <-.
Defined.
